(** * Extractor de Convenios: the rule-based field extraction of [script.py]

    A shallow embedding of the class [ConvenioExtractor] of [src/script.py]:
    the four extraction passes ([extract_resolution_data],
    [extract_convenio_data], [extract_institutions], [extract_signers]) and
    the part of [process_single_pdf] that runs once the text of a document
    is known.  The passes are driven by Python regular expressions, so the
    development starts with a model of the [str] operations and of the
    backtracking matcher of the [re] module that the passes rely on.
    The methods around the passes follow: the text of a PDF file
    ([extract_text_from_pdf], [ocr_pdf]) and of an HTML file
    ([extract_text_from_html]), and the loop over the file of URLs
    ([process_urls_file]), each with the outcome of its input and output
    as a parameter.

    Texts.  A Python [str] is a sequence of code points.  The model covers
    the texts whose code points are below 256 (Latin-1, which holds the
    Spanish alphabet and every character that occurs in the patterns of the
    script): a text is a [list ascii], one [ascii] per code point.

    Python.  The script relies on Python 3.7 or later: a [dict] is
    iterated in the order of its literal, and [re.escape] escapes the
    special characters only. *)

From Stdlib Require Import Ascii String List Arith Bool Lia NArith Sorted.
From Stdlib Require Import DecimalString.
Import ListNotations.

Set Implicit Arguments.

Local Open Scope list_scope.
Local Open Scope nat_scope.

(** ** Code points and the [str] methods used by the script *)

Module Py.

Definition str := list ascii.

Definition code (c : ascii) : N := N_of_ascii c.
Definition chr (n : N) : ascii := ascii_of_N n.

Definition between (lo hi n : N) : bool := (N.leb lo n && N.leb n hi)%bool.

(** The literals of this file are written in UTF-8, as the script is:
    [text] decodes the two-byte sequences of U+0080..U+00FF so that every
    code point is one element. *)
Fixpoint utf8 (bs : list ascii) : str :=
  match bs with
  | [] => []
  | b1 :: rest =>
      match rest with
      | b2 :: t =>
          if N.eqb (code b1) 194 then b2 :: utf8 t
          else if N.eqb (code b1) 195 then chr (code b2 + 64) :: utf8 t
          else b1 :: utf8 rest
      | [] => [b1]
      end
  end.

Definition text (s : string) : str := utf8 (list_ascii_of_string s).

Definition eqb_str (a b : str) : bool :=
  if list_eq_dec ascii_dec a b then true else false.

(** [str.isdecimal], [str.isalnum] or ['_'], [str.isspace] on one code
    point: the categories behind [\d], [\w] and [\s] of a [str] pattern. *)
Definition is_digit (c : ascii) : bool := between 48 57 (code c).

Definition is_alnum (c : ascii) : bool :=
  let n := code c in
  (between 48 57 n || between 65 90 n || between 97 122 n
   || N.eqb n 170 || N.eqb n 178 || N.eqb n 179 || N.eqb n 181
   || N.eqb n 185 || N.eqb n 186 || between 188 190 n
   || between 192 214 n || between 216 246 n || between 248 255 n)%bool.

Definition is_word (c : ascii) : bool := (is_alnum c || N.eqb (code c) 95)%bool.

Definition is_space (c : ascii) : bool :=
  let n := code c in
  (between 9 13 n || between 28 32 n || N.eqb n 133 || N.eqb n 160)%bool.

(** Lower case of one code point.  In Latin-1 the mapping is one to one. *)
Definition lower_char (c : ascii) : ascii :=
  let n := code c in
  if (between 65 90 n || (between 192 222 n && negb (N.eqb n 215)))%bool
  then chr (n + 32) else c.

(** Upper case of one code point as the matcher uses it for ranges under
    IGNORECASE: [None] when the upper case lies outside Latin-1 (y with
    diaeresis and the micro sign); the sharp s is its own upper case. *)
Definition upper_char (c : ascii) : option ascii :=
  let n := code c in
  if (between 97 122 n || (between 224 254 n && negb (N.eqb n 247)))%bool
  then Some (chr (n - 32))
  else if (N.eqb n 255 || N.eqb n 181)%bool then None
  else Some c.

(** [s.lower()] *)
Definition lower (s : str) : str := map lower_char s.

(** [s.strip()] *)
Fixpoint lstrip (s : str) : str :=
  match s with
  | c :: t => if is_space c then lstrip t else s
  | [] => []
  end.

Definition rstrip (s : str) : str := rev (lstrip (rev s)).

Definition strip (s : str) : str := rstrip (lstrip s).

(** [s[:n]] and [s[a:b]] for non-negative bounds *)
Definition upto (n : nat) (s : str) : str := firstn n s.

Definition slice (a b : nat) (s : str) : str := firstn (b - a) (skipn a s).

(** [s.zfill(width)]: zeros are inserted after a leading sign. *)
Definition zfill (width : nat) (s : str) : str :=
  let pad := repeat "0"%char (width - length s) in
  match s with
  | c :: t =>
      if (Ascii.eqb c "+" || Ascii.eqb c "-")%bool then c :: pad ++ t
      else pad ++ s
  | [] => pad
  end.

(** [int(s)] on a string of decimal digits *)
Definition digit_val (c : ascii) : nat := N.to_nat (code c) - 48.

Definition int (s : str) : nat :=
  fold_left (fun acc c => 10 * acc + digit_val c) s 0.

(** [a in b] on strings *)
Fixpoint starts_with (p s : str) : bool :=
  match p, s with
  | [], _ => true
  | a :: p', b :: s' => (Ascii.eqb a b && starts_with p' s')%bool
  | _ :: _, [] => false
  end.

Fixpoint contains (p s : str) : bool :=
  (starts_with p s ||
   match s with
   | [] => false
   | _ :: t => contains p t
   end)%bool.

(** [sep.join(parts)] *)
Fixpoint join (sep : str) (parts : list str) : str :=
  match parts with
  | [] => []
  | [p] => p
  | p :: rest => p ++ sep ++ join sep rest
  end.



(** [str(n)] for an integer that is not negative *)
Definition str_of_nat (n : nat) : str :=
  list_ascii_of_string (NilEmpty.string_of_uint (Nat.to_uint n)).

(** [s.count(c)] for one character *)
Fixpoint count (c : ascii) (s : str) : nat :=
  match s with
  | [] => 0
  | x :: t => (if Ascii.eqb x c then 1 else 0) + count c t
  end.

(** [s.splitlines()]: the line boundaries among the code points below 256
    are LF, VT, FF, CR, FS, GS, RS and NEL, and CR LF is one boundary.  No
    empty line follows a boundary at the end of the text. *)
Definition is_linebreak (c : ascii) : bool :=
  let n := code c in
  (between 10 13 n || between 28 30 n || N.eqb n 133)%bool.

Fixpoint splitlines_from (s cur : str) : list str :=
  match s with
  | [] => match cur with [] => [] | _ :: _ => [rev cur] end
  | c :: t =>
      if is_linebreak c then
        rev cur ::
          match t with
          | d :: t' =>
              if (N.eqb (code c) 13 && N.eqb (code d) 10)%bool
              then splitlines_from t' []
              else splitlines_from t []
          | [] => splitlines_from t []
          end
      else splitlines_from t (c :: cur)
  end.

Definition splitlines (s : str) : list str := splitlines_from s [].

(** [s.split(sep)] for a separator that is not empty: the text is cut at
    the occurrences of [sep] found from left to right; [skip] counts the
    characters of an occurrence that are still to be passed over. *)
Fixpoint split_from (sep s cur : str) (skip : nat) : list str :=
  match s with
  | [] => [rev cur]
  | c :: t =>
      match skip with
      | S k => split_from sep t cur k
      | 0 =>
          if starts_with sep s
          then rev cur :: split_from sep t [] (length sep - 1)
          else split_from sep t (c :: cur) 0
      end
  end.

Definition split (sep s : str) : list str := split_from sep s [] 0.

End Py.

Definition txt : string -> Py.str := Py.text.

(** ** The regular expressions of the [re] module

    The syntax tree of the part of the pattern language the script uses,
    a parser from the pattern source, and the backtracking matcher:
    alternatives are tried left to right, a greedy repetition tries one
    more round before it stops, a lazy one stops before it tries one more
    round, and the first way to reach the end of the pattern wins. *)

Module Re.
Import Py.

Inductive citem : Type :=
| CLit (c : ascii)
| CRange (lo hi : ascii)
| CDigit
| CWord
| CSpace.

Inductive regex : Type :=
| Eps
| Lit (c : ascii)
| Any
| Cls (neg : bool) (items : list citem)
| WordB
| Seq (a b : regex)
| Alt (a b : regex)
| Rep (a : regex) (lo : nat) (hi : option nat) (greedy : bool)
| Grp (n : nat) (a : regex).

(** *** Parsing a pattern *)

Definition newline : ascii := chr 10.
Definition tab : ascii := chr 9.

Definition escape_item (c : ascii) : option citem :=
  if Ascii.eqb c "d" then Some CDigit
  else if Ascii.eqb c "w" then Some CWord
  else if Ascii.eqb c "s" then Some CSpace
  else if Ascii.eqb c "n" then Some (CLit newline)
  else if Ascii.eqb c "t" then Some (CLit tab)
  else if is_alnum c then None
  else Some (CLit c).

Definition escape_atom (c : ascii) : option regex :=
  if Ascii.eqb c "b" then Some WordB
  else match escape_item c with
       | Some (CLit x) => Some (Lit x)
       | Some it => Some (Cls false [it])
       | None => None
       end.

Fixpoint parse_items (s : str) (acc : list citem) : option (list citem * str) :=
  match s with
  | [] => None
  | c :: t =>
      if Ascii.eqb c "]" then Some (rev acc, t)
      else if Ascii.eqb c "\" then
        match t with
        | e :: t' =>
            match escape_item e with
            | Some it => parse_items t' (it :: acc)
            | None => None
            end
        | [] => None
        end
      else
        match t with
        | d :: hi :: t' =>
            if (Ascii.eqb d "-" && negb (Ascii.eqb hi "]"))%bool
            then parse_items t' (CRange c hi :: acc)
            else parse_items t (CLit c :: acc)
        | _ => parse_items t (CLit c :: acc)
        end
  end.

Fixpoint parse_num (s : str) (acc : option nat) : option nat * str :=
  match s with
  | c :: t =>
      if is_digit c
      then parse_num t (Some (10 * match acc with Some n => n | None => 0 end
                              + digit_val c))
      else (acc, s)
  | [] => (acc, s)
  end.

Definition quantified (a : regex) (lo : nat) (hi : option nat) (s : str)
  : regex * str :=
  match s with
  | c :: t => if Ascii.eqb c "?" then (Rep a lo hi false, t)
              else (Rep a lo hi true, s)
  | [] => (Rep a lo hi true, s)
  end.

Definition parse_quant (a : regex) (s : str) : regex * str :=
  match s with
  | c :: t =>
      if Ascii.eqb c "*" then quantified a 0 None t
      else if Ascii.eqb c "+" then quantified a 1 None t
      else if Ascii.eqb c "?" then quantified a 0 (Some 1) t
      else if Ascii.eqb c "{" then
        match parse_num t None with
        | (Some n, d :: t') =>
            if Ascii.eqb d "}" then quantified a n (Some n) t'
            else if Ascii.eqb d "," then
              match parse_num t' None with
              | (Some m, e :: t'') =>
                  if Ascii.eqb e "}" then quantified a n (Some m) t''
                  else (a, s)
              | (None, e :: t'') =>
                  if Ascii.eqb e "}" then quantified a n None t''
                  else (a, s)
              | _ => (a, s)
              end
            else (a, s)
        | _ => (a, s)
        end
      else (a, s)
  | [] => (a, s)
  end.

Definition mk_seq (a b : regex) : regex :=
  match b with
  | Eps => a
  | _ => Seq a b
  end.

Definition is_special (c : ascii) : bool :=
  (Ascii.eqb c "*" || Ascii.eqb c "+" || Ascii.eqb c "?" || Ascii.eqb c "{"
   || Ascii.eqb c "}" || Ascii.eqb c "^" || Ascii.eqb c "$")%bool.

(** [g] counts the capturing groups opened so far: a group is numbered by
    the position of its opening parenthesis. *)
Fixpoint parse_alt (fuel : nat) (s : str) (g : nat) {struct fuel}
  : option (regex * str * nat) :=
  match fuel with
  | 0 => None
  | S f =>
      match parse_seq f s g with
      | Some (a, c :: s', g') =>
          if Ascii.eqb c "|" then
            match parse_alt f s' g' with
            | Some (b, s'', g'') => Some (Alt a b, s'', g'')
            | None => None
            end
          else Some (a, c :: s', g')
      | other => other
      end
  end
with parse_seq (fuel : nat) (s : str) (g : nat) {struct fuel}
  : option (regex * str * nat) :=
  match fuel with
  | 0 => None
  | S f =>
      match s with
      | [] => Some (Eps, s, g)
      | c :: _ =>
          if (Ascii.eqb c ")" || Ascii.eqb c "|")%bool then Some (Eps, s, g)
          else
            match parse_atom f s g with
            | Some (a, s1, g1) =>
                let (a', s2) := parse_quant a s1 in
                match parse_seq f s2 g1 with
                | Some (b, s3, g3) => Some (mk_seq a' b, s3, g3)
                | None => None
                end
            | None => None
            end
      end
  end
with parse_atom (fuel : nat) (s : str) (g : nat) {struct fuel}
  : option (regex * str * nat) :=
  match fuel with
  | 0 => None
  | S f =>
      match s with
      | [] => None
      | c :: t =>
          if Ascii.eqb c "(" then
            if starts_with (list_ascii_of_string "?:") t then
              match parse_alt f (skipn 2 t) g with
              | Some (a, d :: t', g') =>
                  if Ascii.eqb d ")" then Some (a, t', g') else None
              | _ => None
              end
            else
              match parse_alt f t (S g) with
              | Some (a, d :: t', g') =>
                  if Ascii.eqb d ")" then Some (Grp (S g) a, t', g') else None
              | _ => None
              end
          else if Ascii.eqb c "[" then
            match t with
            | d :: t' =>
                if Ascii.eqb d "^" then
                  match parse_items t' [] with
                  | Some (items, rest) => Some (Cls true items, rest, g)
                  | None => None
                  end
                else
                  match parse_items t [] with
                  | Some (items, rest) => Some (Cls false items, rest, g)
                  | None => None
                  end
            | [] => None
            end
          else if Ascii.eqb c "\" then
            match t with
            | e :: t' =>
                match escape_atom e with
                | Some a => Some (a, t', g)
                | None => None
                end
            | [] => None
            end
          else if Ascii.eqb c "." then Some (Any, t, g)
          else if is_special c then None
          else Some (Lit c, t, g)
      end
  end.

Definition parse (src : str) : option regex :=
  match parse_alt (3 * length src + 3) src 0 with
  | Some (r, [], _) => Some r
  | _ => None
  end.

(** A pattern that does not parse would raise [re.error] in Python; the
    patterns of the script all parse (see [patterns_parse] below), and
    [compile] maps anything else to a pattern that matches nothing. *)
Definition compile (src : str) : regex :=
  match parse src with
  | Some r => r
  | None => Cls false []
  end.

(** [re.escape(s)] *)
Definition escape_specials : str :=
  list_ascii_of_string "()[]{}?*+-|^$\.&~# " ++ [chr 9; chr 10; chr 13; chr 11; chr 12].

Definition escape (s : str) : str :=
  flat_map (fun c => if existsb (Ascii.eqb c) escape_specials
                     then ["\"%char; c] else [c]) s.

(** *** Matching *)

Record flags : Type := { ignorecase : bool; dotall : bool }.

Definition no_flags : flags := {| ignorecase := false; dotall := false |}.
Definition IGNORECASE : flags := {| ignorecase := true; dotall := false |}.
Definition IGNORECASE_DOTALL : flags := {| ignorecase := true; dotall := true |}.

Definition in_range (lo hi c : ascii) : bool := between (code lo) (code hi) (code c).

(** Membership of a class item.  Under IGNORECASE the subject character
    [ch] arrives lowered, a literal of the class is lowered too, and a
    range also accepts a character whose upper case lies in it. *)
Definition item_has (ic : bool) (ch : ascii) (it : citem) : bool :=
  match it with
  | CLit c => Ascii.eqb ch (if ic then lower_char c else c)
  | CRange lo hi =>
      (in_range lo hi ch
       || (ic && match upper_char ch with
                 | Some u => in_range lo hi u
                 | None => false
                 end))%bool
  | CDigit => is_digit ch
  | CWord => is_word ch
  | CSpace => is_space ch
  end.

Definition lit_ok (fl : flags) (c x : ascii) : bool :=
  if ignorecase fl then Ascii.eqb (lower_char x) (lower_char c)
  else Ascii.eqb x c.

Definition any_ok (fl : flags) (x : ascii) : bool :=
  (dotall fl || negb (Ascii.eqb x newline))%bool.

Definition cls_ok (fl : flags) (neg : bool) (items : list citem) (x : ascii)
  : bool :=
  let ch := if ignorecase fl then lower_char x else x in
  xorb neg (existsb (item_has (ignorecase fl) ch) items).

(** The state of a match in progress: the character before the current
    position (for [\b]), the text from the current position on, the
    position, and the text of the groups closed so far. *)
Record mstate : Type := {
  m_prev : option ascii;
  m_rest : str;
  m_pos : nat;
  m_caps : list (nat * str)
}.

Definition advance (c : ascii) (t : str) (st : mstate) : mstate :=
  {| m_prev := Some c; m_rest := t; m_pos := S (m_pos st);
     m_caps := m_caps st |}.

Definition set_group (n : nat) (s : str) (st : mstate) : mstate :=
  {| m_prev := m_prev st; m_rest := m_rest st; m_pos := m_pos st;
     m_caps := (n, s) :: m_caps st |}.

(** The text between two states of one match. *)
Definition span (st st' : mstate) : str :=
  firstn (m_pos st' - m_pos st) (m_rest st).

Definition at_boundary (st : mstate) : bool :=
  xorb (match m_prev st with Some c => is_word c | None => false end)
       (match m_rest st with c :: _ => is_word c | [] => false end).

Definition cont : Type := mstate -> option mstate.

Definition step_char (ok : ascii -> bool) (st : mstate) (k : cont)
  : option mstate :=
  match m_rest st with
  | c :: t => if ok c then k (advance c t st) else None
  | [] => None
  end.

Definition allows_more (hi : option nat) : bool :=
  match hi with
  | Some 0 => false
  | _ => true
  end.

Definition one_less (hi : option nat) : option nat :=
  match hi with
  | Some n => Some (pred n)
  | None => None
  end.

(** A repetition.  Every round of the patterns of the script consumes at
    least one character, and a round that consumes none is not taken, so
    [S (length rest)] rounds of [fuel] are never used up ([rep_loop_fuel]
    below). *)
Fixpoint rep_loop (body : mstate -> cont -> option mstate) (greedy : bool)
    (k : cont) (fuel lo : nat) (hi : option nat) (st : mstate) {struct fuel}
  : option mstate :=
  match fuel with
  | 0 => None
  | S fuel' =>
      let more (_ : unit) :=
        if allows_more hi then
          body st (fun st' =>
            if m_pos st <? m_pos st'
            then rep_loop body greedy k fuel' (pred lo) (one_less hi) st'
            else None)
        else None in
      let stop (_ : unit) := if lo =? 0 then k st else None in
      if greedy then
        match more tt with
        | Some m => Some m
        | None => stop tt
        end
      else
        match stop tt with
        | Some m => Some m
        | None => more tt
        end
  end.

Fixpoint run (fl : flags) (r : regex) (st : mstate) (k : cont) {struct r}
  : option mstate :=
  match r with
  | Eps => k st
  | Lit c => step_char (lit_ok fl c) st k
  | Any => step_char (any_ok fl) st k
  | Cls neg items => step_char (cls_ok fl neg items) st k
  | WordB => if at_boundary st then k st else None
  | Seq a b => run fl a st (fun st' => run fl b st' k)
  | Alt a b =>
      match run fl a st k with
      | Some m => Some m
      | None => run fl b st k
      end
  | Rep a lo hi greedy =>
      rep_loop (run fl a) greedy k (S (length (m_rest st))) lo hi st
  | Grp n a => run fl a st (fun st' => k (set_group n (span st st') st'))
  end.

(** A match object: [start] is [m.start()], the final state gives
    [m.end()] and the groups. *)
Record rmatch : Type := { start : nat; final : mstate }.

Definition m_end (m : rmatch) : nat := m_pos (final m).

Fixpoint assoc (n : nat) (l : list (nat * str)) : option str :=
  match l with
  | [] => None
  | (k, v) :: t => if k =? n then Some v else assoc n t
  end.

(** [m.group(n)]; every group of the patterns of the script lies on the
    only path through its pattern, so it is set in every match. *)
Definition group (m : rmatch) (n : nat) : str :=
  match assoc n (m_caps (final m)) with
  | Some s => s
  | None => []
  end.

Definition init (prev : option ascii) (rest : str) (pos : nat) : mstate :=
  {| m_prev := prev; m_rest := rest; m_pos := pos; m_caps := [] |}.

Definition match_here (fl : flags) (r : regex) (prev : option ascii)
    (rest : str) (pos : nat) : option rmatch :=
  match run fl r (init prev rest pos) Some with
  | Some st => Some {| start := pos; final := st |}
  | None => None
  end.

(** The leftmost match at or after a position. *)
Fixpoint search_at (fl : flags) (r : regex) (prev : option ascii) (rest : str)
    (pos : nat) {struct rest} : option rmatch :=
  match match_here fl r prev rest pos with
  | Some m => Some m
  | None =>
      match rest with
      | [] => None
      | c :: t => search_at fl r (Some c) t (S pos)
      end
  end.

(** [re.search(pattern, text, flags)] *)
Definition search (fl : flags) (src : str) (text : str) : option rmatch :=
  search_at fl (compile src) None text 0.

(** The successive non-overlapping matches, left to right.  After an empty
    match the scan moves on by one character (no pattern of the script
    matches the empty string). *)
Fixpoint finditer_at (fuel : nat) (fl : flags) (r : regex)
    (prev : option ascii) (rest : str) (pos : nat) {struct fuel}
  : list rmatch :=
  match fuel with
  | 0 => []
  | S f =>
      match search_at fl r prev rest pos with
      | None => []
      | Some m =>
          let e := final m in
          m :: (if m_pos e =? start m then
                  match m_rest e with
                  | [] => []
                  | c :: t => finditer_at f fl r (Some c) t (S (m_pos e))
                  end
                else finditer_at f fl r (m_prev e) (m_rest e) (m_pos e))
      end
  end.

(** [re.finditer(pattern, text, flags)] *)
Definition finditer (fl : flags) (src : str) (text : str) : list rmatch :=
  finditer_at (S (length text)) fl (compile src) None text 0.

(** *** What a match says about the text

    [den fl r st st'] reads a pattern as a relation between the state
    before and the state after one way of matching it.  The matcher only
    follows such ways ([run_sound] below). *)

Definition steps (ok : ascii -> bool) (st st' : mstate) : Prop :=
  exists c t, m_rest st = c :: t /\ ok c = true /\ st' = advance c t st.

Fixpoint iter (R : mstate -> mstate -> Prop) (n : nat) (st st' : mstate)
  : Prop :=
  match n with
  | 0 => st' = st
  | S n' => exists mid, R st mid /\ iter R n' mid st'
  end.

Definition within (n : nat) (hi : option nat) : Prop :=
  match hi with
  | Some h => n <= h
  | None => True
  end.

Fixpoint den (fl : flags) (r : regex) (st st' : mstate) : Prop :=
  match r with
  | Eps => st' = st
  | Lit c => steps (lit_ok fl c) st st'
  | Any => steps (any_ok fl) st st'
  | Cls neg items => steps (cls_ok fl neg items) st st'
  | WordB => at_boundary st = true /\ st' = st
  | Seq a b => exists mid, den fl a st mid /\ den fl b mid st'
  | Alt a b => den fl a st st' \/ den fl b st st'
  | Rep a lo hi _ =>
      exists n, lo <= n /\ within n hi /\ iter (den fl a) n st st'
  | Grp n a => exists mid, den fl a st mid /\ st' = set_group n (span st mid) mid
  end.

(** A way of matching reads a piece of the text and moves the position
    by its length. *)
Definition reads (w : str) (st st' : mstate) : Prop :=
  m_rest st = w ++ m_rest st' /\ m_pos st' = m_pos st + length w.

(** A pattern without groups. *)
Fixpoint groupless (r : regex) : bool :=
  match r with
  | Seq a b | Alt a b => (groupless a && groupless b)%bool
  | Rep a _ _ _ => groupless a
  | Grp _ _ => false
  | _ => true
  end.

(** The pattern of a literal text followed by [tail]. *)
Definition lits (s : str) (tail : regex) : regex :=
  fold_right (fun c r => Seq (Lit c) r) tail s.

(** The state reached from [st] by reading the characters [w]. *)
Definition advance_by (w rest : str) (st : mstate) : mstate :=
  {| m_prev := last (map Some w) (m_prev st); m_rest := rest;
     m_pos := m_pos st + length w; m_caps := m_caps st |}.

(** [st'] is where the matcher gets first when it runs [r] from [st]:
    whenever the rest of the pattern succeeds from [st'], that is the
    result. *)
Definition leads (fl : flags) (r : regex) (st st' : mstate) : Prop :=
  forall (k : cont) (res : mstate),
    k st' = Some res -> run fl r st k = Some res.

(** The result of [body] depends on its continuation only at the states
    that can follow the state it starts from. *)
Definition respects (body : mstate -> cont -> option mstate) : Prop :=
  forall st (k k' : cont),
    (forall st' w, reads w st st' -> k st' = k' st') ->
    body st k = body st k'.

(** Nothing, or a character that [ok] refuses, comes next. *)
Definition stops_at (ok : ascii -> bool) (rest : str) : Prop :=
  match rest with
  | [] => True
  | c :: _ => ok c = false
  end.

(** The groups of a pattern, each with its body. *)
Fixpoint groups_of (r : regex) : list (nat * regex) :=
  match r with
  | Seq a b | Alt a b => groups_of a ++ groups_of b
  | Rep a _ _ _ => groups_of a
  | Grp n a => (n, a) :: groups_of a
  | _ => []
  end.

(** No part of the pattern that reads a character accepts one that [bad]
    holds of. *)
Definition all_chars : list ascii := map ascii_of_nat (seq 0 256).

Definition refuses (ok bad : ascii -> bool) : bool :=
  forallb (fun c => negb (ok c && bad c)) all_chars.

Fixpoint avoids (fl : flags) (bad : ascii -> bool) (r : regex) : bool :=
  match r with
  | Eps | WordB => true
  | Lit c => refuses (lit_ok fl c) bad
  | Any => refuses (any_ok fl) bad
  | Cls neg items => refuses (cls_ok fl neg items) bad
  | Seq a b | Alt a b => (avoids fl bad a && avoids fl bad b)%bool
  | Rep a _ _ _ => avoids fl bad a
  | Grp _ a => avoids fl bad a
  end.

(** [s] is a contiguous piece of [t]. *)
Definition infix (s t : str) : Prop := exists a b, t = a ++ s ++ b.

(** [re.sub(pattern, repl, text)] for a replacement without group
    references: the pieces of the text between the matches of [finditer],
    with [repl] in the place of each match. *)
Fixpoint sub_matches (repl : str) (ms : list rmatch) (text : str) (pos : nat)
  : str :=
  match ms with
  | [] => skipn pos text
  | m :: rest =>
      slice pos (start m) text ++ repl ++ sub_matches repl rest text (m_end m)
  end.

Definition sub (fl : flags) (src repl text : str) : str :=
  sub_matches repl (finditer fl src text) text 0.

(** The group [n] holds [s], a string that the body of one of the groups
    numbered [n] of the pattern read somewhere in the text left at [st]. *)
Definition captured_by (fl : flags) (r : regex) (st : mstate) (n : nat)
    (s : str) : Prop :=
  exists a x y pre,
    In (n, a) (groups_of r) /\ den fl a x y /\ reads s x y
    /\ m_rest st = pre ++ m_rest x.

(** The pattern is a repetition of a character class with the bounds [lo]
    and [hi]. *)
Definition is_rep_bounded (lo : nat) (hi : option nat) (a : regex) : bool :=
  match a with
  | Rep (Cls _ _) lo' hi' _ =>
      ((lo' =? lo)
       && match hi, hi' with
          | Some h, Some h' => h' =? h
          | None, None => true
          | _, _ => false
          end)%bool
  | _ => false
  end.

End Re.

(** ** The extractor: class [ConvenioExtractor] *)

Module Extractor.
Import Py.

(** A Python [dict] literal is iterated in the order of its entries: the
    tables are association lists in the order of the source. *)
Definition table : Type := list (str * str).

Definition entry (k v : string) : str * str := (txt k, txt v).

Definition tipos_convenio : table :=
  [ entry "acta acuerdo" "Acta Acuerdo";
    entry "acta complemento" "Acta Complemento";
    entry "acta compromiso" "Acta Compromiso";
    entry "acta especifica" "Acta Especifica";
    entry "acuerdo" "Acuerdo";
    entry "acuerdo complementario" "Acuerdo Complementario";
    entry "acuerdo cooperacion" "Acuerdo Cooperacion";
    entry "acuerdo especifico" "Acuerdo Especifico";
    entry "acuerdo investigacion" "Acuerdo Investigacion";
    entry "adenda" "Adenda";
    entry "adhesion" "Adhesion";
    entry "anexo" "Anexo";
    entry "comision de estudio" "Comision de Estudio";
    entry "carta intencion" "Carta Intencion";
    entry "especifico" "Especifico";
    entry "general" "General";
    entry "marco" "Marco";
    entry "marco de colaboracion" "Marco de Colaboracion";
    entry "marco de cooperacion" "Marco de Cooperacion";
    entry "marco de investigacion" "Marco de Investigacion";
    entry "marco de intercambio" "Marco de Intercambio";
    entry "marco de intercambio de alumnos" "Marco de Intercambio de Alumnos";
    entry "marco de pasantias" "Marco de Pasantias";
    entry "memorandum" "Memorandum";
    entry "memorandum de entendimiento" "Memorandum de Entendimiento";
    entry "pps" "PPS";
    entry "protocolo" "Protocolo";
    entry "protocolo adicional" "Protocolo Adicional";
    entry "protocolo de colaboracion" "Protocolo de Colaboracion";
    entry "protocolo especifico" "Protocolo Especifico";
    entry "protocolo de investigacion" "Protocolo de Investigacion";
    entry "proyecto" "Proyecto";
    entry "subvencion" "Subvencion";
    entry "transferencia tecnologica" "Transferencia Tecnologica" ].

Definition tipos_institucion : table :=
  [ entry "agencia" "Agencia";
    entry "agremiacion" "Agremiacion";
    entry "asociacion" "Asociacion";
    entry "club" "Club";
    entry "educativa" "Educativa";
    entry "empresa" "Empresa";
    entry "ente" "Ente";
    entry "fundacion" "Fundacion";
    entry "gobierno" "Gobierno";
    entry "gubernamental" "Gubernamental";
    entry "investigadora" "Investigadora";
    entry "instituto" "Instituto";
    entry "nacional" "Nacional";
    entry "municipal" "Municipal";
    entry "salud" "Salud";
    entry "sindical" "Sindical";
    entry "social" "Social";
    entry "ong" "ONG";
    entry "universitaria" "Universitaria";
    entry "universidad" "Universitaria";
    entry "provincia" "Gubernamental";
    entry "ministerio" "Gubernamental";
    entry "direccion" "Gubernamental" ].

Definition tipos_renovacion : table :=
  [ entry "partes iguales" "Partes Iguales";
    entry "escalera" "Escalera";
    entry "unica" "Unica";
    entry "sin renovacion" "Sin Renovacion";
    entry "renovable" "Renovable de Comun Acuerdo";
    entry "renovable de comun acuerdo" "Renovable de Comun Acuerdo" ].

Definition cargos : table :=
  [ entry "rector" "Rector/a";
    entry "rectora" "Rector/a";
    entry "vicerrector" "Vicerrector/a";
    entry "vicerrectora" "Vicerrector/a";
    entry "secretario" "Secretario/a";
    entry "secretaria" "Secretario/a";
    entry "coordinador" "Coordinador/a";
    entry "coordinadora" "Coordinador/a";
    entry "decano" "Decano/a";
    entry "decana" "Decano/a";
    entry "vicedecano" "Vicedecano/a";
    entry "vicedecana" "Vicedecano/a";
    entry "director" "Director/a";
    entry "directora" "Director/a";
    entry "investigador" "Investigador/a";
    entry "investigadora" "Investigador/a";
    entry "ministro" "Director/a";
    entry "ministra" "Director/a";
    entry "interventor" "Director/a";
    entry "interventora" "Director/a" ].

Definition month_map : table :=
  [ entry "enero" "01"; entry "febrero" "02"; entry "marzo" "03";
    entry "abril" "04"; entry "mayo" "05"; entry "junio" "06";
    entry "julio" "07"; entry "agosto" "08"; entry "septiembre" "09";
    entry "octubre" "10"; entry "noviembre" "11"; entry "diciembre" "12" ].

(** [d.get(key, default)] *)
Fixpoint get (d : table) (key default : str) : str :=
  match d with
  | [] => default
  | (k, v) :: t => if eqb_str k key then v else get t key default
  end.

(** [for pattern in patterns: match = re.search(pattern, text, flags);
    if match: ...; break]: the first pattern of the list that matches, with
    its match. *)
Fixpoint first_match (fl : Re.flags) (patterns : list str) (text : str)
  : option (str * Re.rmatch) :=
  match patterns with
  | [] => None
  | p :: ps =>
      match Re.search fl p text with
      | Some m => Some (p, m)
      | None => first_match fl ps text
      end
  end.

(** [for key, value in table.items(): if re.search(r'\b' + re.escape(key)
    + r'\b', text, re.IGNORECASE): ... = value; break] *)
Fixpoint lookup_word (d : table) (text : str) : option str :=
  match d with
  | [] => None
  | (k, v) :: t =>
      match Re.search Re.IGNORECASE (txt "\b" ++ Re.escape k ++ txt "\b") text with
      | Some _ => Some v
      | None => lookup_word t text
      end
  end.

(** [for key, value in table.items(): if key in s: ... = value; break],
    starting from [default] *)
Fixpoint lookup_substring (d : table) (s default : str) : str :=
  match d with
  | [] => default
  | (k, v) :: t => if contains k s then v else lookup_substring t s default
  end.

(** The expansion of a year of two digits, written out twice in the
    script (for [exp_year] and for the year of [firmado el]):
    [if len(year) == 2: year = "19" + year if int(year) > 50 else "20" + year] *)
Definition pivot_year (year : str) : str :=
  if length year =? 2 then
    if 50 <? int year then txt "19" ++ year else txt "20" ++ year
  else year.

(** [len(match.groups())]: the number of groups of the pattern *)
Fixpoint ngroups (r : Re.regex) : nat :=
  match r with
  | Re.Seq a b | Re.Alt a b => ngroups a + ngroups b
  | Re.Rep a _ _ _ => ngroups a
  | Re.Grp _ a => S (ngroups a)
  | _ => 0
  end.

Definition dash : str := txt "-".

(** *** [extract_resolution_data] *)

Record resolution_data : Type := {
  res_numero : str;
  res_fecha : str;
  res_tipo : str;
  res_expediente_numero : str;
  res_expediente_anio : str;
  res_dependencia_id : str;
  res_link : str
}.

Definition url_pattern : str := txt "R-DR-(\d{4})-(\d{3,4})\.pdf".

Definition date_patterns : list str :=
  [ txt "(\d{1,2})\s+de\s+(\w+)\s+de\s+(\d{4})";
    txt "(\d{1,2})/(\d{1,2})/(\d{4})";
    txt "(\d{4})-(\d{1,2})-(\d{1,2})" ].

Definition expediente_pattern : str :=
  txt "expediente\s*n[°º]?\s*(\d+)[/\-](\d{2,4})".

(** The date written for a match of a pattern that spells the month:
    [f"{year}-{month.zfill(2)}-{day.zfill(2)}"] *)
Definition spelled_date (m : Re.rmatch) : str :=
  let day := Re.group m 1 in
  let month_name := Re.group m 2 in
  let year := Re.group m 3 in
  let month := get month_map (lower month_name) (txt "01") in
  year ++ dash ++ zfill 2 month ++ dash ++ zfill 2 day.

Definition resolution_fecha (text : str) : str :=
  match first_match Re.IGNORECASE date_patterns text with
  | Some (pattern, m) =>
      if contains (txt "de") pattern then spelled_date m
      else if ((ngroups (Re.compile pattern) =? 3)
               && (length (Re.group m 1) =? 4))%bool
      then Re.group m 1 ++ dash ++ zfill 2 (Re.group m 2)
           ++ dash ++ zfill 2 (Re.group m 3)
      else Re.group m 3 ++ dash ++ zfill 2 (Re.group m 2)
           ++ dash ++ zfill 2 (Re.group m 1)
  | None => []
  end.

Definition extract_resolution_data (text url : str) : resolution_data :=
  let url_match := Re.search Re.no_flags url_pattern url in
  let exp_match := Re.search Re.IGNORECASE expediente_pattern text in
  {| res_numero :=
       match url_match with Some m => Re.group m 2 | None => [] end;
     res_fecha := resolution_fecha text;
     res_tipo := txt "DR";
     res_expediente_numero :=
       match exp_match with Some m => Re.group m 1 | None => [] end;
     res_expediente_anio :=
       match exp_match with
       | Some m => pivot_year (Re.group m 2)
       | None =>
           match url_match with Some m => Re.group m 1 | None => [] end
       end;
     res_dependencia_id := [];
     res_link := url |}.

(** *** [extract_convenio_data] *)

Record convenio_data : Type := {
  tipo_convenio : str;
  titulo : str;
  duracion : str;
  fecha_firma : str;
  tipo_renovacion : str;
  internacional : str;
  objeto : str;
  observaciones : str
}.

Definition title_pattern : str := txt "convenio\s+(.+?)(?:\n|\.)".

Definition duracion_patterns : list str :=
  [ txt "duraci[oó]n\s*:?\s*(\d+)\s*a[ñn]os?";
    txt "vigencia\s*:?\s*(\d+)\s*a[ñn]os?";
    txt "plazo\s*:?\s*(\d+)\s*a[ñn]os?" ].

(** The two entries of [firma_patterns], named for later reference. *)
Definition numeric_firma_pattern : str :=
  txt "firmado\s+el\s+(\d{1,2})[/\-](\d{1,2})[/\-](\d{2,4})".

Definition spelled_firma_pattern : str :=
  txt "suscr[i|í]pto?\s+el\s+(\d{1,2})\s+de\s+(\w+)\s+de\s+(\d{4})".

Definition firma_patterns : list str :=
  [ numeric_firma_pattern; spelled_firma_pattern ].

Definition internacional_pattern : str :=
  txt "\b(internacional|extranjero|exterior)\b".

Definition objeto_patterns : list str :=
  [ txt "objeto\s*:?\s*(.+?)(?:\n\n|\.\s*[A-Z])";
    txt "prop[oó]sito\s*:?\s*(.+?)(?:\n\n|\.\s*[A-Z])";
    txt "finalidad\s*:?\s*(.+?)(?:\n\n|\.\s*[A-Z])" ].

Definition convenio_titulo (text : str) : str :=
  match Re.search Re.IGNORECASE title_pattern text with
  | Some m => upto 255 (strip (Re.group m 1))
  | None => []
  end.

Definition convenio_fecha_firma (text : str) : str :=
  match first_match Re.IGNORECASE firma_patterns text with
  | Some (pattern, m) =>
      if contains (txt "de") pattern then spelled_date m
      else
        let year := pivot_year (Re.group m 3) in
        year ++ dash ++ zfill 2 (Re.group m 2) ++ dash ++ zfill 2 (Re.group m 1)
  | None => []
  end.

Definition convenio_objeto (text : str) : str :=
  match first_match Re.IGNORECASE_DOTALL objeto_patterns text with
  | Some (_, m) => upto 500 (strip (Re.group m 1))
  | None => []
  end.

Definition extract_convenio_data (text : str) : convenio_data :=
  {| tipo_convenio :=
       match lookup_word tipos_convenio text with
       | Some v => v
       | None => txt "Marco"
       end;
     titulo := convenio_titulo text;
     duracion :=
       match first_match Re.IGNORECASE duracion_patterns text with
       | Some (_, m) => Re.group m 1
       | None => []
       end;
     fecha_firma := convenio_fecha_firma text;
     tipo_renovacion :=
       match lookup_word tipos_renovacion text with
       | Some v => v
       | None => []
       end;
     internacional :=
       match Re.search Re.IGNORECASE internacional_pattern text with
       | Some _ => txt "true"
       | None => txt "false"
       end;
     objeto := convenio_objeto text;
     observaciones := [] |}.

(** *** [extract_institutions] *)

Record institution : Type := {
  inst_nombre : str;
  inst_tipo : str;
  inst_pais : str;
  inst_provincia : str;
  inst_localidad : str
}.

Definition institution_patterns : list str :=
  [ txt "(Universidad\s+[^,\n]+)";
    txt "(Instituto\s+[^,\n]+)";
    txt "(Ministerio\s+[^,\n]+)";
    txt "(Gobierno\s+[^,\n]+)";
    txt "(Provincia\s+de\s+\w+)";
    txt "(Municipalidad\s+[^,\n]+)";
    txt "(Fundaci[oó]n\s+[^,\n]+)";
    txt "(Empresa\s+[^,\n]+)";
    txt "(Asociaci[oó]n\s+[^,\n]+)" ].

(** The Python [set] of the keys seen so far is only extended and asked
    for membership: a list of keys. *)
Definition mem (x : str) (found : list str) : bool := existsb (eqb_str x) found.

(** The matches in the order in which the two nested loops visit them:
    pattern after pattern, and left to right for one pattern. *)
Definition matches_in_order (fl : Re.flags) (patterns : list str) (text : str)
  : list Re.rmatch :=
  flat_map (fun pattern => Re.finditer fl pattern text) patterns.

Definition inst_name_of (m : Re.rmatch) : str := strip (Re.group m 1).

Definition make_institution (inst_name : str) : institution :=
  {| inst_nombre := inst_name;
     inst_tipo := lookup_substring tipos_institucion (lower inst_name)
                    (txt "Universitaria");
     inst_pais := txt "Argentina";
     inst_provincia := txt "Salta";
     inst_localidad := txt "Salta" |}.

(** The body of the inner loop, on the pair of [found_institutions] and
    [institutions]. *)
Definition institution_step (acc : list str * list institution)
    (m : Re.rmatch) : list str * list institution :=
  let inst_name := inst_name_of m in
  if ((5 <? length inst_name) && negb (mem (lower inst_name) (fst acc)))%bool
  then (lower inst_name :: fst acc, snd acc ++ [make_institution inst_name])
  else acc.

Definition extract_institutions (text : str) : list institution :=
  let ms := matches_in_order Re.IGNORECASE institution_patterns text in
  firstn 5 (snd (fold_left institution_step ms ([], []))).

(** *** [extract_signers] *)

Record signer : Type := {
  sig_dni : str;
  sig_nombre : str;
  sig_apellido : str;
  sig_cargo : str
}.

Definition name_patterns : list str :=
  [ txt "([A-ZÁÉÍÓÚ][a-záéíóú]+)\s+([A-ZÁÉÍÓÚ][a-záéíóú]+(?:\s+[A-ZÁÉÍÓÚ][a-záéíóú]+)*)";
    txt "Dr\.\s+([A-ZÁÉÍÓÚ][a-záéíóú]+)\s+([A-ZÁÉÍÓÚ][a-záéíóú]+)";
    txt "Ing\.\s+([A-ZÁÉÍÓÚ][a-záéíóú]+)\s+([A-ZÁÉÍÓÚ][a-záéíóú]+)";
    txt "Lic\.\s+([A-ZÁÉÍÓÚ][a-záéíóú]+)\s+([A-ZÁÉÍÓÚ][a-záéíóú]+)" ].

(** [f"{nombre} {apellido}".lower()] *)
Definition full_name_of (m : Re.rmatch) : str :=
  lower (Re.group m 1 ++ txt " " ++ Re.group m 2).

(** [text[max(0, match.start()-100):match.end()+100]] *)
Definition context_of (text : str) (m : Re.rmatch) : str :=
  slice (Re.start m - 100) (Re.m_end m + 100) text.

(** The title found near a name: the first entry of [cargos] whose key
    occurs in the lowered context. *)
Definition cargo_of (context : str) : str :=
  lookup_substring cargos (lower context) (txt "Rector/a").

Definition make_signer (text : str) (m : Re.rmatch) : signer :=
  {| sig_dni := [];
     sig_nombre := Re.group m 1;
     sig_apellido := Re.group m 2;
     sig_cargo := cargo_of (context_of text m) |}.

Definition signer_step (text : str) (acc : list str * list signer)
    (m : Re.rmatch) : list str * list signer :=
  let nombre := Re.group m 1 in
  let apellido := Re.group m 2 in
  let full_name := full_name_of m in
  if (negb (mem full_name (fst acc)) && (2 <? length nombre)
      && (2 <? length apellido))%bool
  then (full_name :: fst acc, snd acc ++ [make_signer text m])
  else acc.

Definition extract_signers (text : str) : list signer :=
  let ms := matches_in_order Re.no_flags name_patterns text in
  firstn 5 (snd (fold_left (signer_step text) ms ([], []))).

(** *** [process_single_pdf]

    The download and the conversion of the file to text are input and
    output: the model takes their outcome, [downloaded] for the value of
    the download call (which the script spells [self.download_pdf], a
    method the class does not define; the class has [download_file]) and
    [text] for the text of the document.  The result is what the method
    logs itself and what it returns, [None] for Python's [None]. *)


Record csv_row : Type := {
  row_resolucion : str;
  row_tipo_convenio : str;
  row_titulo : str;
  row_duracion : str;
  row_fecha_firma : str;
  row_tipo_renovacion : str;
  row_internacional : str;
  row_objeto : str;
  row_observaciones : str;
  row_instituciones : str;
  row_dependencias : str;
  row_firmantes : str
}.

Definition bar : str := txt "|".

Definition institution_cell (inst : institution) : str :=
  join bar [inst_nombre inst; inst_tipo inst; []; []; inst_pais inst;
            inst_provincia inst; inst_localidad inst].

Definition signer_cell (s : signer) : str :=
  join bar [sig_dni s; sig_nombre s; sig_apellido s; []; txt "Argentina";
            txt "Salta"; txt "Salta"; []; []; sig_cargo s; txt "true"].

Definition make_row (text url : str) : csv_row :=
  let resolution_data := extract_resolution_data text url in
  let convenio_data := extract_convenio_data text in
  let institutions := extract_institutions text in
  let signers := extract_signers text in
  {| row_resolucion :=
       join bar [res_numero resolution_data; res_fecha resolution_data;
                 res_tipo resolution_data;
                 res_expediente_numero resolution_data;
                 res_expediente_anio resolution_data;
                 res_dependencia_id resolution_data;
                 res_link resolution_data];
     row_tipo_convenio := tipo_convenio convenio_data;
     row_titulo := titulo convenio_data;
     row_duracion := duracion convenio_data;
     row_fecha_firma := fecha_firma convenio_data;
     row_tipo_renovacion := tipo_renovacion convenio_data;
     row_internacional := internacional convenio_data;
     row_objeto := objeto convenio_data;
     row_observaciones := observaciones convenio_data;
     row_instituciones := join (txt ";") (map institution_cell institutions);
     row_dependencias :=
       txt "Rectorado|UNSa|rectorado|Argentina|Salta|Salta|true";
     row_firmantes := join (txt ";") (map signer_cell signers) |}.


(** *** [ocr_pdf]

    The conversion of the file to images and the recognition of an image
    are input: [images] is [None] when [pdf2image.convert_from_path]
    raises, and else the pages, each one [None] when
    [pytesseract.image_to_string] raises on it and else the text that was
    recognised.  Any exception makes the method return the empty string;
    the model gives the value returned, without the log. *)

Definition page_block (i : nat) (page_text : str) : str :=
  Re.newline :: txt "--- PÁGINA " ++ str_of_nat (i + 1) ++ txt " ---"
    ++ Re.newline :: page_text ++ [Re.newline].

Fixpoint ocr_pages (i : nat) (images : list (option str)) (text : str)
  : option str :=
  match images with
  | [] => Some text
  | image :: rest =>
      match image with
      | None => None
      | Some page_text =>
          let text := text ++ page_block i page_text in
          if 10 <=? i then Some text else ocr_pages (S i) rest text
      end
  end.

Definition ocr_pdf (images : option (list (option str))) : str :=
  match images with
  | None => []
  | Some images =>
      match ocr_pages 0 images [] with
      | Some text => text
      | None => []
      end
  end.

(** *** [extract_text_from_pdf]

    [pages] is [None] when the file cannot be opened or read as a PDF, and
    else its pages, each one [None] when [extract_text] raises on it and
    else its text.  An exception ends the loop over the pages and leaves
    [text] as it was built so far. *)

Fixpoint direct_pages (pages : list (option str)) (text : str) : str :=
  match pages with
  | [] => text
  | page :: rest =>
      match page with
      | None => text
      | Some page_text =>
          direct_pages rest
            (match strip page_text with
             | [] => text
             | _ :: _ => text ++ page_text ++ [Re.newline]
             end)
      end
  end.

Definition direct_text (pages : option (list (option str))) : str :=
  match pages with
  | None => []
  | Some pages => direct_pages pages []
  end.

Definition extract_text_from_pdf (pages : option (list (option str)))
    (images : option (list (option str))) : str :=
  let text := direct_text pages in
  if length (strip text) <? 100 then ocr_pdf images else text.

(** *** [extract_text_from_html]

    [content] is the text of the file, [None] when it cannot be read;
    [bs4] is [None] when BeautifulSoup cannot be imported, and else the
    text that [get_text] returns for a document once its scripts and
    styles are removed. *)

Definition html_chunks (text : str) : list str :=
  let lines := map strip (splitlines text) in
  let chunks :=
    flat_map (fun line => map strip (split (txt "  ") line)) lines in
  filter (fun chunk => negb (eqb_str chunk [])) chunks.

Definition tag_pattern : str := txt "<[^>]+>".

Definition spaces_pattern : str := txt "\s+".

Definition extract_text_from_html (content : option str)
    (bs4 : option (str -> str)) : str :=
  match content with
  | None => []
  | Some content =>
      match bs4 with
      | Some get_text => join [Re.newline] (html_chunks (get_text content))
      | None =>
          let text := Re.sub Re.no_flags tag_pattern [] content in
          let text := Re.sub Re.no_flags spaces_pattern (txt " ") text in
          strip text
      end
  end.

(** *** [process_urls_file]

    [lines] is [None] when the file of URLs cannot be read, and else its
    lines; [fetch i url] is what the [i]-th document gives, the outcome of
    its download and its text.  The result is the log of the method, one
    constructor for each of its messages, and the rows written to the CSV
    file after the header, [None] when the file is not opened. *)






End Extractor.

(** ** Notions used to state the properties *)

Module Props.
Import Py Extractor.

(** The two decimal digits of a number below 100. *)
Definition two_digits (n : nat) : str :=
  [chr (N.of_nat (48 + n / 10)); chr (N.of_nat (48 + n mod 10))].

(** A calendar date written [YYYY-MM-DD]. *)
Definition is_leap (y : nat) : bool :=
  (((y mod 4 =? 0) && negb (y mod 100 =? 0)) || (y mod 400 =? 0))%bool.

Definition days_in_month (y m : nat) : nat :=
  match m with
  | 1 | 3 | 5 | 7 | 8 | 10 | 12 => 31
  | 4 | 6 | 9 | 11 => 30
  | 2 => if is_leap y then 29 else 28
  | _ => 0
  end.

Definition valid_iso_date (s : str) : bool :=
  match s with
  | [y1; y2; y3; y4; s1; m1; m2; s2; d1; d2] =>
      (forallb is_digit [y1; y2; y3; y4; m1; m2; d1; d2]
       && Ascii.eqb s1 "-" && Ascii.eqb s2 "-"
       && (1 <=? int [m1; m2]) && (int [m1; m2] <=? 12)
       && (1 <=? int [d1; d2])
       && (int [d1; d2]
           <=? days_in_month (int [y1; y2; y3; y4]) (int [m1; m2])))%bool
  | _ => false
  end.

(** A string of [n] decimal digits. *)
Definition digits (n : nat) (s : str) : Prop :=
  Forall (fun c => is_digit c = true) s /\ length s = n.

(** A string of the form [Y-MM-DD]: decimal digits, two for the month and
    for the day, between [ymin] and [ymax] for the year; no range is
    asked of the numbers. *)
Definition iso_shaped (ymin ymax : nat) (s : str) : Prop :=
  exists y mo d,
    s = y ++ dash ++ mo ++ dash ++ d
    /\ Forall (fun c => is_digit c = true) y
    /\ ymin <= length y <= ymax
    /\ digits 2 mo /\ digits 2 d.

(** The deduplication keys of the two lists. *)
Definition inst_key (i : institution) : str := lower (inst_nombre i).

Definition sig_key (s : signer) : str :=
  lower (sig_nombre s ++ txt " " ++ sig_apellido s).

(** [out] lists candidates of [cands] in the order of their discovery:
    the entries of [out] are built from candidates at increasing
    positions of [cands], each of them accepted and the first accepted
    candidate that has its key. *)
Definition in_discovery_order {M E : Type} (key : M -> str) (ok : M -> bool)
    (build : M -> E) (cands : list M) (out : list E) : Prop :=
  exists idx : list nat,
    length idx = length out
    /\ StronglySorted lt idx
    /\ forall j i, nth_error idx j = Some i ->
         exists m, nth_error cands i = Some m
           /\ ok m = true
           /\ nth_error out j = Some (build m)
           /\ forall i' m', i' < i -> nth_error cands i' = Some m' ->
                ok m' = true -> key m' <> key m.

(** The loop body the two extraction loops share: a candidate is kept
    when it is accepted and its key has not been seen. *)
Definition dedupe_step {M E : Type} (key : M -> str) (ok : M -> bool)
    (build : M -> E) (acc : list str * list E) (m : M) : list str * list E :=
  if (ok m && negb (mem (key m) (fst acc)))%bool
  then (key m :: fst acc, snd acc ++ [build m])
  else acc.

(** What holds of [found] and [out] once the loop has seen [ms]; [idx]
    lists the positions of the candidates that were kept. *)
Definition seen {M E : Type} (key : M -> str) (ok : M -> bool)
    (build : M -> E) (ms : list M) (acc : list str * list E)
    (idx : list nat) : Prop :=
  length idx = length (snd acc)
  /\ StronglySorted lt idx
  /\ Forall (fun i => i < length ms) idx
  /\ (forall j i, nth_error idx j = Some i ->
        exists m, nth_error ms i = Some m
          /\ ok m = true
          /\ nth_error (snd acc) j = Some (build m)
          /\ forall i' m', i' < i -> nth_error ms i' = Some m' ->
               ok m' = true -> key m' <> key m)
  /\ (forall m, In m ms -> ok m = true -> In (key m) (fst acc)).

(** The candidates of the two loops: when one is accepted, its key, and
    the entry built from it. *)
Definition institution_ok (m : Re.rmatch) : bool :=
  5 <? length (inst_name_of m).

Definition institution_key (m : Re.rmatch) : str := lower (inst_name_of m).

Definition institution_of (m : Re.rmatch) : institution :=
  make_institution (inst_name_of m).

Definition signer_ok (m : Re.rmatch) : bool :=
  ((2 <? length (Re.group m 1)) && (2 <? length (Re.group m 2)))%bool.

(** A newline or a period, the two ends of a title. *)
Definition is_terminator (c : ascii) : bool :=
  (Ascii.eqb c Re.newline || Ascii.eqb c ".")%bool.

(** Every occurrence of [convenio], in any case and at any place of the
    text (the title pattern asks for no word boundary), is followed by
    text without a newline or a period up to the end of the input. *)
Definition convenio_runs_to_end (text : str) : Prop :=
  forall pre w post,
    text = pre ++ w ++ post -> lower w = txt "convenio" ->
    forall c, In c post -> is_terminator c = false.

(** The same, as a function that decides it. *)
Fixpoint convenio_runs_to_endb (s : str) : bool :=
  ((negb (eqb_str (lower (firstn 8 s)) (txt "convenio"))
    || forallb (fun c => negb (is_terminator c)) (skipn 8 s))
   && match s with
      | [] => true
      | _ :: t => convenio_runs_to_endb t
      end)%bool.

(** The first candidate name of a text, in the order of [extract_signers]. *)
Definition first_name_match (text : str) : option Re.rmatch :=
  hd_error (matches_in_order Re.no_flags name_patterns text).


Definition scenario_url : str :=
  txt "http://bo.unsa.edu.ar/dr/R2020/R-DR-2020-0123.pdf".

(** The pattern of a whole-word lookup, and its syntax tree. *)
Definition word_pattern (key : str) : str :=
  txt "\b" ++ Re.escape key ++ txt "\b".

Definition word_re (key : str) : Re.regex :=
  Re.Seq Re.WordB (Re.lits key Re.WordB).

(** The syntax tree of the spelled signing pattern. *)
Definition ws1 : Re.regex := Re.Rep (Re.Cls false [Re.CSpace]) 1 None true.

Definition spelled_date_re : Re.regex :=
  Re.Seq (Re.Grp 1 (Re.Rep (Re.Cls false [Re.CDigit]) 1 (Some 2) true))
    (Re.Seq ws1
       (Re.lits (txt "de")
          (Re.Seq ws1
             (Re.Seq (Re.Grp 2 (Re.Rep (Re.Cls false [Re.CWord]) 1 None true))
                (Re.Seq ws1
                   (Re.lits (txt "de")
                      (Re.Seq ws1
                         (Re.Grp 3
                            (Re.Rep (Re.Cls false [Re.CDigit]) 4 (Some 4)
                               true))))))))).

Definition spelled_firma_re : Re.regex :=
  Re.lits (txt "suscr")
    (Re.Seq (Re.Cls false [Re.CLit "i"; Re.CLit "|"; Re.CLit (chr 237)])
      (Re.lits (txt "pt")
        (Re.Seq (Re.Rep (Re.Lit "o") 0 (Some 1) true)
          (Re.Seq ws1 (Re.lits (txt "el") (Re.Seq ws1 spelled_date_re)))))).

(** A signing clause in the spelled form. *)
Definition spelled_signing (day month_name year : str) : str :=
  txt "suscripto el " ++ day ++ txt " de " ++ month_name ++ txt " de " ++ year.


(** Sets of characters, as tests. *)
Definition not_digit (c : ascii) : bool := negb (is_digit c).

Definition is_newline (c : ascii) : bool := Ascii.eqb c Re.newline.

Definition is_comma (c : ascii) : bool := Ascii.eqb c ",".

Definition not_word (c : ascii) : bool := negb (is_word c).

Definition not_word_or_space (c : ascii) : bool :=
  negb (is_word c || is_space c).

(** The letters of [[A-ZÁÉÍÓÚ]] and of [[a-záéíóú]], the two classes of
    the name patterns, and the pattern of a capitalised word. *)
Definition is_capital (c : ascii) : bool :=
  let n := code c in
  (between 65 90 n || N.eqb n 193 || N.eqb n 201 || N.eqb n 205
   || N.eqb n 211 || N.eqb n 218)%bool.

Definition is_small (c : ascii) : bool :=
  let n := code c in
  (between 97 122 n || N.eqb n 225 || N.eqb n 233 || N.eqb n 237
   || N.eqb n 243 || N.eqb n 250)%bool.

Definition capitals : list Re.citem :=
  [Re.CRange "A" "Z"; Re.CLit (chr 193); Re.CLit (chr 201);
   Re.CLit (chr 205); Re.CLit (chr 211); Re.CLit (chr 218)].

Definition smalls : list Re.citem :=
  [Re.CRange "a" "z"; Re.CLit (chr 225); Re.CLit (chr 233);
   Re.CLit (chr 237); Re.CLit (chr 243); Re.CLit (chr 250)].

Definition capitalised_word : Re.regex :=
  Re.Seq (Re.Cls false capitals)
    (Re.Rep (Re.Cls false smalls) 1 None true).

(** The two separators of a list column. *)
Definition is_separator (c : ascii) : bool :=
  (Ascii.eqb c "|" || Ascii.eqb c ";")%bool.

(** The values of [cargos] and of [tipos_convenio] whose key is not hidden
    by an earlier key of the table. *)
Definition reachable_cargos : list str :=
  [ txt "Rector/a"; txt "Secretario/a"; txt "Coordinador/a"; txt "Decano/a";
    txt "Director/a"; txt "Investigador/a" ].

Definition reachable_tipos : list str :=
  [ txt "Acta Acuerdo"; txt "Acta Complemento"; txt "Acta Compromiso";
    txt "Acta Especifica"; txt "Acuerdo"; txt "Adenda"; txt "Adhesion";
    txt "Anexo"; txt "Comision de Estudio"; txt "Carta Intencion";
    txt "Especifico"; txt "General"; txt "Marco"; txt "Memorandum";
    txt "PPS"; txt "Protocolo"; txt "Proyecto"; txt "Subvencion";
    txt "Transferencia Tecnologica" ].

(** The words an institution pattern starts with, in lower case. *)
Definition institution_keywords : list str :=
  [ txt "universidad"; txt "instituto"; txt "ministerio"; txt "gobierno";
    txt "provincia"; txt "municipalidad"; txt "fundaci"; txt "empresa";
    txt "asociaci" ].


(** The blocks of the pages of an OCR text, numbered from [i]. *)
Fixpoint page_blocks (i : nat) (pages : list str) : str :=
  match pages with
  | [] => []
  | p :: rest => page_block i p ++ page_blocks (S i) rest
  end.

(** A page without text. *)
Definition is_blank (s : str) : bool :=
  match strip s with [] => true | _ :: _ => false end.



(** A line of a cleaned HTML text. *)
Definition sp : ascii := " "%char.

Definition no_linebreak (s : str) : Prop :=
  Forall (fun x => is_linebreak x = false) s.

Definition clean_chunk (c : str) : Prop :=
  c <> [] /\ strip c = c /\ no_linebreak c
  /\ contains (txt "  ") c = false.

(** A text with every run of white space replaced by one space, and the
    pattern of such a run. *)
Fixpoint collapse (s : str) (in_run : bool) : str :=
  match s with
  | [] => []
  | c :: t =>
      if is_space c
      then if in_run then collapse t true else sp :: collapse t true
      else c :: collapse t false
  end.

Definition space_run : Re.regex :=
  Re.Rep (Re.Cls false [Re.CSpace]) 1 None true.

End Props.

(** ** Properties of the [str] operations *)

Module PyFacts.
Import Py.

Lemma lower_length (s : str) : length (lower s) = length s.
Proof. apply length_map. Qed.



Lemma eqb_str_true (a b : str) : eqb_str a b = true <-> a = b.
Proof.
  unfold eqb_str. destruct (list_eq_dec ascii_dec a b); split; congruence.
Qed.

Lemma eqb_str_false (a b : str) : eqb_str a b = false <-> a <> b.
Proof.
  unfold eqb_str. destruct (list_eq_dec ascii_dec a b); split; congruence.
Qed.

Lemma starts_with_spec (p s : str) :
  starts_with p s = true <-> exists b, s = p ++ b.
Proof.
  revert s. induction p as [|a p IH]; intros s; simpl.
  - split; [intros _; now exists s | reflexivity].
  - destruct s as [|c s].
    + split; [discriminate | intros [b H]; discriminate].
    + rewrite andb_true_iff, Ascii.eqb_eq, IH. split.
      * intros [-> [b ->]]. now exists b.
      * intros [b H]. injection H as -> ->. split; [reflexivity | now exists b].
Qed.

Lemma contains_spec (p s : str) :
  contains p s = true <-> exists a b, s = a ++ p ++ b.
Proof.
  induction s as [|c s IH].
  - simpl. rewrite orb_false_r, starts_with_spec. split.
    + intros [b H]. now exists [], b.
    + intros (a & b & H). destruct a; [now exists b|discriminate].
  - simpl. rewrite orb_true_iff, starts_with_spec, IH. split.
    + intros [[b H] | (a & b & H)].
      * now exists [], b.
      * exists (c :: a), b. now rewrite H.
    + intros (a & b & H). destruct a as [|x a].
      * left. now exists b.
      * right. injection H as _ H. now exists a, b.
Qed.

Lemma contains_trans (p q s : str) :
  contains p q = true -> contains q s = true -> contains p s = true.
Proof.
  rewrite !contains_spec. intros (a & b & ->) (a' & b' & ->).
  exists (a' ++ a), (b ++ b'). now rewrite <- !app_assoc.
Qed.

End PyFacts.

(** ** Properties of the matcher *)

Module ReFacts.
Import Py Re.

Section Soundness.
Variable fl : flags.

Lemma rep_loop_sound (body : mstate -> cont -> option mstate)
    (D : mstate -> mstate -> Prop) (greedy : bool) (k : cont) :
  (forall st k' res, body st k' = Some res ->
     exists st', D st st' /\ k' st' = Some res) ->
  forall fuel lo hi st res,
    rep_loop body greedy k fuel lo hi st = Some res ->
    exists n st', lo <= n /\ within n hi /\ iter D n st st' /\ k st' = Some res.
Proof.
  intros Hbody. induction fuel as [|fuel IH]; intros lo hi st res H.
  - discriminate.
  - assert (Hstop : (if lo =? 0 then k st else None) = Some res ->
      exists n st', lo <= n /\ within n hi /\ iter D n st st' /\ k st' = Some res).
    { destruct (Nat.eqb_spec lo 0) as [->|]; [|discriminate].
      intros Hk. exists 0, st. repeat split; auto.
      destruct hi; simpl; lia. }
    assert (Hmore : (if allows_more hi then
              body st (fun st' =>
                if m_pos st <? m_pos st'
                then rep_loop body greedy k fuel (pred lo) (one_less hi) st'
                else None)
            else None) = Some res ->
      exists n st', lo <= n /\ within n hi /\ iter D n st st' /\ k st' = Some res).
    { destruct (allows_more hi) eqn:Hhi; [|discriminate].
      intros Hb. apply Hbody in Hb. destruct Hb as (mid & HD & Hb).
      destruct (m_pos st <? m_pos mid); [|discriminate].
      apply IH in Hb. destruct Hb as (n & st' & Hlo & Hw & Hit & Hk).
      exists (S n), st'. repeat split; auto.
      - lia.
      - destruct hi as [[|h]|]; simpl in *; try discriminate; lia.
      - simpl. exists mid. auto. }
    simpl in H. destruct greedy.
    + destruct (if allows_more hi then _ else None) eqn:E.
      * injection H as ->. apply Hmore. reflexivity.
      * apply Hstop. exact H.
    + destruct (if lo =? 0 then k st else None) eqn:E.
      * injection H as ->. apply Hstop. reflexivity.
      * apply Hmore. exact H.
Qed.

Lemma step_char_sound (ok : ascii -> bool) (st : mstate) (k : cont) res :
  step_char ok st k = Some res ->
  exists st', steps ok st st' /\ k st' = Some res.
Proof.
  unfold step_char, steps. destruct (m_rest st) as [|c t]; [discriminate|].
  destruct (ok c) eqn:E; [|discriminate].
  intros H. exists (advance c t st). split; [|exact H].
  exists c, t. auto.
Qed.

(** Whatever the matcher returns was reached along a way of matching the
    pattern. *)
Lemma run_sound (r : regex) :
  forall st k res, run fl r st k = Some res ->
    exists st', den fl r st st' /\ k st' = Some res.
Proof.
  induction r as [| c | | neg items | | a IHa b IHb | a IHa b IHb
                 | a IHa lo hi g | n a IHa]; intros st k res H.
  - simpl in *. exists st. auto.
  - now apply step_char_sound.
  - now apply step_char_sound.
  - now apply step_char_sound.
  - simpl in *. destruct (at_boundary st) eqn:E; [|discriminate]. exists st. auto.
  - simpl in *. apply IHa in H. destruct H as (mid & Ha & H).
    apply IHb in H. destruct H as (st' & Hb & H).
    exists st'. split; [exists mid; auto | exact H].
  - simpl in *. destruct (run fl a st k) eqn:E.
    + injection H as ->. apply IHa in E. destruct E as (st' & Ha & E).
      exists st'. auto.
    + apply IHb in H. destruct H as (st' & Hb & H). exists st'. auto.
  - change (rep_loop (run fl a) g k (S (length (m_rest st))) lo hi st = Some res)
      in H.
    apply (@rep_loop_sound (run fl a) (den fl a) g k IHa) in H.
    destruct H as (n & st' & Hlo & Hw & Hit & Hk).
    exists st'. split; [exists n; auto | exact Hk].
  - simpl in *. apply IHa in H. destruct H as (mid & Ha & H).
    exists (set_group n (span st mid) mid). split; [exists mid; auto | exact H].
Qed.

Lemma reads_refl (st : mstate) : reads [] st st.
Proof. split; simpl; auto. Qed.

Lemma reads_trans (w1 w2 : str) (a b c : mstate) :
  reads w1 a b -> reads w2 b c -> reads (w1 ++ w2) a c.
Proof.
  intros [H1 H2] [H3 H4]. split.
  - rewrite H1, H3, app_assoc. reflexivity.
  - rewrite H4, H2, length_app. lia.
Qed.

Lemma steps_reads (ok : ascii -> bool) (st st' : mstate) :
  steps ok st st' ->
  exists c, ok c = true /\ reads [c] st st' /\ m_caps st' = m_caps st.
Proof.
  intros (c & t & Hr & Hok & ->). exists c. repeat split; simpl; auto. lia.
Qed.

Lemma iter_reads (R : mstate -> mstate -> Prop) :
  (forall st st', R st st' -> exists w, reads w st st') ->
  forall n st st', iter R n st st' -> exists w, reads w st st'.
Proof.
  intros HR. induction n as [|n IH]; intros st st' H; simpl in H.
  - subst. exists []. apply reads_refl.
  - destruct H as (mid & H1 & H2). apply HR in H1. apply IH in H2.
    destruct H1 as [w1 H1], H2 as [w2 H2]. exists (w1 ++ w2).
    eapply reads_trans; eauto.
Qed.

Lemma den_reads (r : regex) :
  forall st st', den fl r st st' -> exists w, reads w st st'.
Proof.
  induction r as [| c | | neg items | | a IHa b IHb | a IHa b IHb
                 | a IHa lo hi g | n a IHa]; intros st st' H; simpl in H.
  - subst. exists []. apply reads_refl.
  - apply steps_reads in H. destruct H as (c' & _ & H & _). eauto.
  - apply steps_reads in H. destruct H as (c' & _ & H & _). eauto.
  - apply steps_reads in H. destruct H as (c' & _ & H & _). eauto.
  - destruct H as [_ ->]. exists []. apply reads_refl.
  - destruct H as (mid & H1 & H2). apply IHa in H1. apply IHb in H2.
    destruct H1 as [w1 H1], H2 as [w2 H2]. exists (w1 ++ w2).
    eapply reads_trans; eauto.
  - destruct H as [H|H]; eauto.
  - destruct H as (n & _ & _ & H). eapply iter_reads; eauto.
  - destruct H as (mid & H & ->). apply IHa in H. destruct H as [w [H1 H2]].
    exists w. split; simpl; auto.
Qed.

Lemma span_reads (w : str) (st st' : mstate) : reads w st st' -> span st st' = w.
Proof.
  intros [H1 H2]. unfold span. rewrite H1, H2.
  replace (m_pos st + length w - m_pos st) with (length w + 0) by lia.
  rewrite firstn_app_2. simpl. apply app_nil_r.
Qed.

(** A repetition of one character class reads characters of the class,
    as many as its bounds allow, and leaves the groups as they are. *)
Lemma iter_steps (ok : ascii -> bool) :
  forall n st st', iter (steps ok) n st st' ->
    exists w, reads w st st' /\ m_caps st' = m_caps st
              /\ Forall (fun c => ok c = true) w /\ length w = n.
Proof.
  induction n as [|n IH]; intros st st' H; simpl in H.
  - subst. exists []. split; [apply reads_refl | auto].
  - destruct H as (mid & H1 & H2).
    apply steps_reads in H1. destruct H1 as (c & Hc & Hr & Hcaps).
    apply IH in H2. destruct H2 as (w & Hr' & Hcaps' & Hall & Hlen).
    exists (c :: w). split; [apply (reads_trans Hr Hr')|].
    split; [congruence|]. split; [constructor; auto | simpl; lia].
Qed.

Lemma den_rep_cls (neg : bool) (items : list citem) (lo : nat)
    (hi : option nat) (g : bool) (st st' : mstate) :
  den fl (Rep (Cls neg items) lo hi g) st st' ->
  exists w, reads w st st' /\ m_caps st' = m_caps st
            /\ Forall (fun c => cls_ok fl neg items c = true) w
            /\ lo <= length w /\ within (length w) hi.
Proof.
  intros (n & Hlo & Hhi & H). apply iter_steps in H.
  destruct H as (w & Hr & Hc & Hall & <-). exists w. auto.
Qed.

Lemma den_grp_rep_cls (k : nat) (neg : bool) (items : list citem) (lo : nat)
    (hi : option nat) (g : bool) (st st' : mstate) :
  den fl (Grp k (Rep (Cls neg items) lo hi g)) st st' ->
  exists w, reads w st st' /\ m_caps st' = (k, w) :: m_caps st
            /\ Forall (fun c => cls_ok fl neg items c = true) w
            /\ lo <= length w /\ within (length w) hi.
Proof.
  intros (mid & H & ->). apply den_rep_cls in H.
  destruct H as (w & Hr & Hc & Hall & Hlo & Hhi). exists w.
  rewrite (span_reads Hr). destruct Hr as [Hr1 Hr2].
  repeat split; simpl; auto. now rewrite Hc.
Qed.

(** A pattern without groups leaves the groups as they are. *)
Lemma iter_caps (R : mstate -> mstate -> Prop) :
  (forall st st', R st st' -> m_caps st' = m_caps st) ->
  forall n st st', iter R n st st' -> m_caps st' = m_caps st.
Proof.
  intros HR. induction n as [|n IH]; intros st st' H; simpl in H.
  - now subst.
  - destruct H as (mid & H1 & H2). apply HR in H1. apply IH in H2. congruence.
Qed.

Lemma den_caps (r : regex) :
  groupless r = true ->
  forall st st', den fl r st st' -> m_caps st' = m_caps st.
Proof.
  induction r as [| c | | neg items | | a IHa b IHb | a IHa b IHb
                 | a IHa lo hi g | n a IHa]; intros G st st' H; simpl in *.
  - now subst.
  - apply steps_reads in H. now destruct H as (c' & _ & _ & H).
  - apply steps_reads in H. now destruct H as (c' & _ & _ & H).
  - apply steps_reads in H. now destruct H as (c' & _ & _ & H).
  - now destruct H as [_ ->].
  - apply andb_true_iff in G. destruct G as [Ga Gb].
    destruct H as (mid & H1 & H2).
    rewrite (IHb Gb _ _ H2). now apply IHa.
  - apply andb_true_iff in G. destruct G as [Ga Gb].
    destruct H as [H|H]; auto.
  - destruct H as (n & _ & _ & H). eapply iter_caps; eauto.
  - discriminate.
Qed.

(** *** Searching *)

Lemma last_cons (A : Type) (l : list A) (x d : A) :
  last (x :: l) d = last l x.
Proof.
  revert x d. induction l as [|y l IH]; intros x d; [reflexivity|].
  change (last (x :: y :: l) d) with (last (y :: l) d).
  rewrite IH. symmetry. apply IH.
Qed.

Lemma match_here_start (r : regex) prev rest pos m :
  match_here fl r prev rest pos = Some m -> start m = pos.
Proof.
  unfold match_here. destruct run; [|discriminate]. now intros [= <-].
Qed.

Lemma match_here_den (r : regex) prev rest pos m :
  match_here fl r prev rest pos = Some m ->
  den fl r (init prev rest pos) (final m).
Proof.
  unfold match_here. destruct run eqn:E; [|discriminate]. intros [= <-].
  apply run_sound in E. destruct E as (st' & H & [= <-]). exact H.
Qed.

(** A match found by a search was found at some position: the text splits
    there, and the pattern matches from there on. *)
Lemma search_at_found (r : regex) :
  forall rest prev pos m,
    search_at fl r prev rest pos = Some m ->
    exists pre suf,
      rest = pre ++ suf /\ start m = pos + length pre
      /\ match_here fl r (last (map Some pre) prev) suf (start m) = Some m.
Proof.
  induction rest as [|c t IH]; intros prev pos m H; simpl in H.
  - destruct match_here eqn:E; [|discriminate]. injection H as ->.
    exists [], []. rewrite (match_here_start _ _ _ _ E) at 1.
    rewrite (match_here_start _ _ _ _ E). simpl. repeat split; auto.
  - destruct match_here eqn:E.
    + injection H as ->. exists [], (c :: t).
      rewrite (match_here_start _ _ _ _ E) at 1.
      rewrite (match_here_start _ _ _ _ E). simpl. repeat split; auto.
    + apply IH in H. destruct H as (pre & suf & -> & Hs & Hm).
      exists (c :: pre), suf. cbn [map]. rewrite last_cons.
      simpl. repeat split; auto. lia.
Qed.

(** Searching through a prefix: either a match starts inside the prefix,
    or the search goes on after it. *)
Lemma search_at_skip (r : regex) :
  forall pre suf prev pos,
    (exists m, search_at fl r prev (pre ++ suf) pos = Some m
               /\ start m < pos + length pre)
    \/ search_at fl r prev (pre ++ suf) pos
       = search_at fl r (last (map Some pre) prev) suf (pos + length pre).
Proof.
  induction pre as [|c pre IH]; intros suf prev pos.
  - right. simpl. now rewrite Nat.add_0_r.
  - simpl app. simpl search_at.
    destruct (match_here fl r prev (c :: pre ++ suf) pos) eqn:E.
    + left. exists r0. split; auto.
      rewrite (match_here_start _ _ _ _ E). simpl. lia.
    + destruct (IH suf (Some c) (S pos)) as [(m & Hm & Hlt) | Heq].
      * left. exists m. split; auto. simpl. lia.
      * right. rewrite Heq. simpl length.
        replace (S pos + length pre) with (pos + S (length pre)) by lia.
        f_equal. symmetry. apply last_cons.
Qed.

End Soundness.

(** *** The first way through a pattern *)

Lemma advance_by_nil (st : mstate) : advance_by [] (m_rest st) st = st.
Proof.
  destruct st. unfold advance_by. simpl. f_equal. lia.
Qed.

Lemma advance_by_cons (c : ascii) (w rest : str) (st : mstate) :
  advance_by w rest (advance c (w ++ rest) st) = advance_by (c :: w) rest st.
Proof.
  unfold advance_by, advance. cbn [m_prev m_rest m_pos m_caps]. f_equal.
  - cbn [map]. symmetry. apply last_cons.
  - simpl. lia.
Qed.

Lemma step_char_hit (ok : ascii -> bool) (c : ascii) (t : str) (st : mstate)
    (k : cont) :
  m_rest st = c :: t -> ok c = true -> step_char ok st k = k (advance c t st).
Proof. intros Hr Hc. unfold step_char. now rewrite Hr, Hc. Qed.

Lemma rep_loop_greedy (ok : ascii -> bool) (k : cont) (res : mstate) :
  forall w rest fuel lo hi st,
    m_rest st = w ++ rest ->
    Forall (fun c => ok c = true) w ->
    hi = Some (length w) \/ stops_at ok rest ->
    lo <= length w -> within (length w) hi -> length w < fuel ->
    k (advance_by w rest st) = Some res ->
    rep_loop (step_char ok) true k fuel lo hi st = Some res.
Proof.
  induction w as [|c w IH]; intros rest fuel lo hi st Hr Hall Hstop Hlo Hhi Hf Hk.
  - destruct fuel as [|fuel]; [simpl in Hf; lia|].
    simpl in Hr. subst rest. rewrite advance_by_nil in Hk.
    simpl in Hlo. assert (lo = 0) by lia. subst lo.
    cbn [rep_loop Nat.eqb]. rewrite Hk.
    destruct Hstop as [->|Hstop]; [reflexivity|].
    destruct (allows_more hi); [|reflexivity].
    unfold step_char. unfold stops_at in Hstop.
    destruct (m_rest st) as [|c t]; [reflexivity|]. now rewrite Hstop.
  - destruct fuel as [|fuel]; [simpl in Hf; lia|].
    inversion Hall as [|? ? Hc Hall']; subst.
    cbn [rep_loop].
    assert (Hmore : allows_more hi = true).
    { destruct hi as [[|h]|]; simpl in *; auto; lia. }
    rewrite Hmore, (@step_char_hit ok c (w ++ rest) st _ Hr Hc).
    cbn [advance m_pos]. rewrite (proj2 (Nat.ltb_lt _ _) (Nat.lt_succ_diag_r _)).
    rewrite (IH rest fuel (pred lo) (one_less hi)
               (advance c (w ++ rest) st)); auto.
    + destruct Hstop as [->|Hstop]; [left; reflexivity | now right].
    + simpl in Hlo. lia.
    + destruct hi as [h|]; simpl in *; lia.
    + simpl in Hf. lia.
    + now rewrite advance_by_cons.
Qed.

Section Leads.
Variable fl : flags.

Lemma leads_seq (a b : regex) (st mid st' : mstate) :
  leads fl a st mid -> leads fl b mid st' -> leads fl (Seq a b) st st'.
Proof.
  intros Ha Hb k res Hk. simpl. apply Ha. apply Hb. exact Hk.
Qed.

Lemma leads_lit (x c : ascii) (t : str) (st : mstate) :
  m_rest st = c :: t -> lit_ok fl x c = true ->
  leads fl (Lit x) st (advance c t st).
Proof.
  intros Hr Hc k res Hk. simpl.
  now rewrite (@step_char_hit (lit_ok fl x) c t st _ Hr Hc).
Qed.

Lemma leads_cls (neg : bool) (items : list citem) (c : ascii) (t : str)
    (st : mstate) :
  m_rest st = c :: t -> cls_ok fl neg items c = true ->
  leads fl (Cls neg items) st (advance c t st).
Proof.
  intros Hr Hc k res Hk. simpl.
  now rewrite (@step_char_hit (cls_ok fl neg items) c t st _ Hr Hc).
Qed.

Lemma leads_grp (n : nat) (a : regex) (st mid : mstate) :
  leads fl a st mid ->
  leads fl (Grp n a) st (set_group n (span st mid) mid).
Proof.
  intros Ha k res Hk. simpl. apply Ha. exact Hk.
Qed.

Lemma leads_rep_cls (neg : bool) (items : list citem) (lo : nat)
    (hi : option nat) (w rest : str) (st : mstate) :
  m_rest st = w ++ rest ->
  Forall (fun c => cls_ok fl neg items c = true) w ->
  hi = Some (length w) \/ stops_at (cls_ok fl neg items) rest ->
  lo <= length w -> within (length w) hi ->
  leads fl (Rep (Cls neg items) lo hi true) st (advance_by w rest st).
Proof.
  intros Hr Hall Hstop Hlo Hhi k res Hk.
  change (rep_loop (step_char (cls_ok fl neg items)) true k
            (S (length (m_rest st))) lo hi st = Some res).
  apply rep_loop_greedy with (w := w) (rest := rest); auto.
  rewrite Hr, length_app. lia.
Qed.

Lemma leads_rep_lit (x : ascii) (lo : nat) (hi : option nat) (w rest : str)
    (st : mstate) :
  m_rest st = w ++ rest ->
  Forall (fun c => lit_ok fl x c = true) w ->
  hi = Some (length w) \/ stops_at (lit_ok fl x) rest ->
  lo <= length w -> within (length w) hi ->
  leads fl (Rep (Lit x) lo hi true) st (advance_by w rest st).
Proof.
  intros Hr Hall Hstop Hlo Hhi k res Hk.
  change (rep_loop (step_char (lit_ok fl x)) true k
            (S (length (m_rest st))) lo hi st = Some res).
  apply rep_loop_greedy with (w := w) (rest := rest); auto.
  rewrite Hr, length_app. lia.
Qed.

Lemma leads_lits (s : str) (tail : regex) :
  forall w rest st st',
    m_rest st = w ++ rest ->
    Forall2 (fun x c => lit_ok fl x c = true) s w ->
    leads fl tail (advance_by w rest st) st' ->
    leads fl (lits s tail) st st'.
Proof.
  induction s as [|x s IH]; intros w rest st st' Hr Hall Ht.
  - inversion Hall; subst. simpl in Hr. subst rest.
    rewrite advance_by_nil in Ht. exact Ht.
  - inversion Hall as [|? c ? w' Hc Hall']; subst.
    change (lits (x :: s) tail) with (Seq (Lit x) (lits s tail)).
    eapply leads_seq; [apply (@leads_lit x c (w' ++ rest) st Hr Hc)|].
    apply (IH w' rest); auto. now rewrite advance_by_cons.
Qed.

Lemma span_advance_by (w rest : str) (st : mstate) :
  m_rest st = w ++ rest -> span st (advance_by w rest st) = w.
Proof.
  intros Hr. apply span_reads. split; [exact Hr | reflexivity].
Qed.

Lemma search_at_here (r : regex) prev rest pos m :
  match_here fl r prev rest pos = Some m ->
  search_at fl r prev rest pos = Some m.
Proof. intros H. destruct rest; simpl; now rewrite H. Qed.

End Leads.

(** *** The fuel of the loops *)

Section Fuel.
Variable fl : flags.

Lemma step_char_respects (ok : ascii -> bool) : respects (step_char ok).
Proof.
  intros st k k' H. unfold step_char.
  destruct (m_rest st) as [|c t] eqn:E; [reflexivity|].
  destruct (ok c); [|reflexivity].
  apply (H _ [c]). split; simpl; [exact E | lia].
Qed.

Lemma rep_loop_respects (body : mstate -> cont -> option mstate)
    (greedy : bool) :
  respects body ->
  forall fuel lo hi st (k k' : cont),
    (forall st' w, reads w st st' -> k st' = k' st') ->
    rep_loop body greedy k fuel lo hi st
    = rep_loop body greedy k' fuel lo hi st.
Proof.
  intros Hb. induction fuel as [|fuel IH]; intros lo hi st k k' H;
    [reflexivity|].
  cbn [rep_loop].
  rewrite (H st [] (reads_refl st)).
  replace (body st (fun st' => if m_pos st <? m_pos st'
             then rep_loop body greedy k fuel (pred lo) (one_less hi) st'
             else None))
    with (body st (fun st' => if m_pos st <? m_pos st'
             then rep_loop body greedy k' fuel (pred lo) (one_less hi) st'
             else None)); [reflexivity|].
  apply Hb. intros st' w Hr. destruct (m_pos st <? m_pos st'); [|reflexivity].
  symmetry. apply IH. intros st'' w' Hr'. apply (H st'' (w ++ w')).
  eapply reads_trans; eauto.
Qed.

Lemma run_respects (r : regex) : respects (run fl r).
Proof.
  induction r as [| c | | neg items | | a IHa b IHb | a IHa b IHb
                 | a IHa lo hi g | n a IHa]; intros st k k' H.
  - apply (H st [] (reads_refl st)).
  - now apply step_char_respects.
  - now apply step_char_respects.
  - now apply step_char_respects.
  - simpl. now rewrite (H st [] (reads_refl st)).
  - simpl. apply IHa. intros mid w Hr. apply IHb. intros st' w' Hr'.
    apply (H st' (w ++ w')). eapply reads_trans; eauto.
  - simpl. now rewrite (IHa st k k' H), (IHb st k k' H).
  - apply rep_loop_respects; assumption.
  - simpl. apply IHa. intros mid w [Hr1 Hr2].
    apply (H _ w). split; assumption.
Qed.

(** The fuel of a repetition is never used up: past the length of the
    text that is left, more fuel changes nothing. *)
Lemma rep_loop_fuel (body : mstate -> cont -> option mstate) (greedy : bool)
    (k : cont) :
  respects body ->
  forall fuel fuel' lo hi st,
    length (m_rest st) < fuel -> length (m_rest st) < fuel' ->
    rep_loop body greedy k fuel lo hi st
    = rep_loop body greedy k fuel' lo hi st.
Proof.
  intros Hb. induction fuel as [|fuel IH]; intros fuel' lo hi st Hf Hf';
    [lia|].
  destruct fuel' as [|fuel']; [lia|].
  cbn [rep_loop].
  replace (body st (fun st' => if m_pos st <? m_pos st'
             then rep_loop body greedy k fuel (pred lo) (one_less hi) st'
             else None))
    with (body st (fun st' => if m_pos st <? m_pos st'
             then rep_loop body greedy k fuel' (pred lo) (one_less hi) st'
             else None)); [reflexivity|].
  apply Hb. intros st' w [Hr1 Hr2].
  destruct (Nat.ltb_spec (m_pos st) (m_pos st')); [|reflexivity].
  assert (length (m_rest st') < length (m_rest st)).
  { rewrite Hr1, length_app. lia. }
  symmetry. apply IH; lia.
Qed.

Lemma run_rep_fuel (a : regex) (lo : nat) (hi : option nat) (g : bool)
    (st : mstate) (k : cont) (fuel : nat) :
  length (m_rest st) < fuel ->
  run fl (Rep a lo hi g) st k = rep_loop (run fl a) g k fuel lo hi st.
Proof.
  intros H. change (run fl (Rep a lo hi g) st k)
    with (rep_loop (run fl a) g k (S (length (m_rest st))) lo hi st).
  apply rep_loop_fuel; [apply run_respects | lia | exact H].
Qed.

(** A match found from a position ends in the text that was left there. *)
Lemma search_at_ends (r : regex) (prev : option ascii) (rest : str)
    (pos : nat) (m : rmatch) :
  search_at fl r prev rest pos = Some m ->
  exists w : str, length (m_rest (final m)) + length w <= length rest
            /\ m_pos (final m) = start m + length w.
Proof.
  intros H. apply search_at_found in H.
  destruct H as (pre & suf & -> & Hs & H).
  apply match_here_den in H. apply den_reads in H.
  destruct H as (w & Hr1 & Hr2). exists w. cbn [m_rest m_pos init] in *.
  split; [|exact Hr2]. rewrite Hr1, !length_app. lia.
Qed.

(** The fuel of [finditer] is never used up either. *)
Lemma finditer_at_fuel (r : regex) :
  forall fuel fuel' prev rest pos,
    length rest < fuel -> length rest < fuel' ->
    finditer_at fuel fl r prev rest pos = finditer_at fuel' fl r prev rest pos.
Proof.
  induction fuel as [|fuel IH]; intros fuel' prev rest pos Hf Hf'; [lia|].
  destruct fuel' as [|fuel']; [lia|].
  cbn [finditer_at].
  destruct (search_at fl r prev rest pos) as [m|] eqn:E; [|reflexivity].
  destruct (@search_at_ends r prev rest pos m E) as (w & Hlen & Hpos).
  f_equal. destruct (Nat.eqb_spec (m_pos (final m)) (start m)) as [He|He].
  - destruct (m_rest (final m)) as [|c t] eqn:Et; [reflexivity|].
    simpl in Hlen. apply IH; lia.
  - assert (length w <> 0) by lia. apply IH; lia.
Qed.

End Fuel.

(** *** Reading a match of a given pattern *)

Lemma den_seq_inv fl a b st st' :
  den fl (Seq a b) st st' -> exists mid, den fl a st mid /\ den fl b mid st'.
Proof. exact (fun H => H). Qed.

Lemma den_alt_inv fl a b st st' :
  den fl (Alt a b) st st' -> den fl a st st' \/ den fl b st st'.
Proof. exact (fun H => H). Qed.

Lemma den_lit_i (c : ascii) (st st' : mstate) :
  den IGNORECASE (Lit c) st st' ->
  exists x, lower_char x = lower_char c /\ reads [x] st st'
            /\ m_caps st' = m_caps st.
Proof.
  intros H. apply steps_reads in H. destruct H as (x & Hx & Hr & Hc).
  exists x. unfold lit_ok in Hx. simpl in Hx. apply Ascii.eqb_eq in Hx. auto.
Qed.

Lemma den_lits_i (s : str) (tail : regex) :
  forall st st', den IGNORECASE (lits s tail) st st' ->
    exists w mid, lower w = lower s /\ reads w st mid
                  /\ m_caps mid = m_caps st /\ den IGNORECASE tail mid st'.
Proof.
  induction s as [|c s IH]; intros st st' H.
  - exists [], st. repeat split; auto.
  - apply den_seq_inv in H. destruct H as (mid & H1 & H2).
    apply den_lit_i in H1. destruct H1 as (x & Hx & Hr & Hc).
    apply IH in H2. destruct H2 as (w & mid' & Hw & Hr' & Hc' & Ht).
    exists (x :: w), mid'. split; [simpl; congruence|].
    split; [apply (reads_trans Hr Hr')|]. split; [congruence | exact Ht].
Qed.

Lemma cls_digit_i (c : ascii) :
  cls_ok IGNORECASE false [CDigit] c = true -> is_digit c = true.
Proof.
  destruct c as [[] [] [] [] [] [] [] []]; vm_compute; intros H;
    solve [reflexivity | discriminate].
Qed.

Lemma all_digits_i (w : str) :
  Forall (fun c => cls_ok IGNORECASE false [CDigit] c = true) w ->
  Forall (fun c => is_digit c = true) w.
Proof. apply Forall_impl. exact cls_digit_i. Qed.

(** Walking along a match of a sequence: groups of one repeated class
    are recorded, the pieces without groups leave the groups alone. *)
Ltac den_walk :=
  repeat match goal with
  | H : den _ (Seq _ _) _ _ |- _ =>
      apply den_seq_inv in H; destruct H as (? & ? & ?)
  | H : den _ (Grp _ (Rep (Cls _ _) _ _ _)) _ _ |- _ =>
      apply den_grp_rep_cls in H; destruct H as (? & _ & ? & ? & ? & ?)
  | H : den _ _ _ _ |- _ => apply den_caps in H; [|reflexivity]
  end.

Lemma lower_char_terminator (x : ascii) :
  lower_char x = newline \/ lower_char x = "."%char ->
  (Ascii.eqb x newline || Ascii.eqb x ".")%bool = true.
Proof.
  destruct x as [[] [] [] [] [] [] [] []]; vm_compute;
    intros [H|H]; solve [reflexivity | discriminate].
Qed.

End ReFacts.

(** ** Properties of the extractor *)

Module ExtractorFacts.
Import Py Re Extractor Props PyFacts ReFacts.

Lemma lookup_substring_cases (d : table) (s default : str) :
  lookup_substring d s default = default
  \/ In (lookup_substring d s default) (map snd d).
Proof.
  induction d as [|[k v] d IH]; simpl; [now left|].
  destruct (contains k s); [right; now left|].
  destruct IH; [now left | right; now right].
Qed.

Lemma get_cases (d : table) (key default : str) :
  get d key default = default \/ In (get d key default) (map snd d).
Proof.
  induction d as [|[k v] d IH]; simpl; [now left|].
  destruct (eqb_str k key); [right; now left|].
  destruct IH; [now left | right; now right].
Qed.

(** The title read from a context: the key [rector] is the first of the
    table and occurs inside [vicerrector]. *)
Lemma cargo_of_rector (context : str) :
  contains (txt "rector") (lower context) = true ->
  cargo_of context = txt "Rector/a".
Proof.
  intros H. unfold cargo_of, cargos. unfold entry at 1.
  cbn [lookup_substring]. now rewrite H.
Qed.

Lemma lookup_substring_skip (d1 d2 : table) (s default : str) :
  forallb (fun kv => negb (contains (fst kv) s)) d1 = true ->
  lookup_substring (d1 ++ d2) s default = lookup_substring d2 s default.
Proof.
  induction d1 as [|[k v] d1 IH]; simpl; [reflexivity|].
  intros H. apply andb_true_iff in H. destruct H as [H1 H2].
  destruct (contains k s); [discriminate | now apply IH].
Qed.

Lemma cargo_of_never_vicerrector (context : str) :
  cargo_of context <> txt "Vicerrector/a".
Proof.
  destruct (contains (txt "rector") (lower context)) eqn:E.
  - rewrite (cargo_of_rector _ E). vm_compute. discriminate.
  - assert (Hno : forall w, contains (txt "rector") w = true ->
                    contains w (lower context) = false).
    { intros w Hw. destruct (contains w (lower context)) eqn:E1; auto.
      rewrite (contains_trans _ _ _ Hw E1) in E. discriminate. }
    unfold cargo_of.
    change cargos with (firstn 4 cargos ++ skipn 4 cargos).
    rewrite lookup_substring_skip.
    + match goal with
      | |- lookup_substring ?d ?s ?def <> _ =>
          destruct (lookup_substring_cases d s def) as [H|H]; revert H;
          generalize (lookup_substring d s def)
      end.
      * intros s ->. vm_compute. discriminate.
      * intros s H. vm_compute in H.
        repeat (destruct H as [<-|H]; [vm_compute; discriminate|]).
        destruct H.
    + unfold cargos, entry. cbn [firstn forallb fst].
      rewrite E, !Hno by reflexivity. reflexivity.
Qed.

(** *** The deduplicating loops *)

Lemma mem_true (x : str) (found : list str) : mem x found = true <-> In x found.
Proof.
  unfold mem. rewrite existsb_exists. split.
  - intros (y & Hy & E). apply eqb_str_true in E. now subst.
  - intros H. exists x. split; [exact H | now apply eqb_str_true].
Qed.

Lemma sorted_nth (l : list nat) :
  StronglySorted lt l ->
  forall j1 j2 a b, j1 < j2 -> nth_error l j1 = Some a ->
    nth_error l j2 = Some b -> a < b.
Proof.
  induction 1 as [|x l Hs IH Hall]; intros j1 j2 a b Hlt H1 H2.
  - destruct j1; discriminate.
  - destruct j2 as [|j2]; [lia|]. simpl in H2.
    destruct j1 as [|j1]; simpl in H1.
    + injection H1 as <-. rewrite Forall_forall in Hall.
      apply Hall. eapply nth_error_In; eauto.
    + apply (IH j1 j2); auto. lia.
Qed.

Lemma sorted_snoc (l : list nat) (n : nat) :
  StronglySorted lt l -> Forall (fun i => i < n) l ->
  StronglySorted lt (l ++ [n]).
Proof.
  induction 1 as [|x l Hs IH Hall]; intros Hn; simpl.
  - constructor; constructor.
  - inversion Hn; subst. constructor; auto.
    apply Forall_app. split; auto.
Qed.

Lemma sorted_firstn (n : nat) (l : list nat) :
  StronglySorted lt l -> StronglySorted lt (firstn n l).
Proof.
  intros H. revert n. induction H as [|x l Hs IH Hall]; intros [|n]; simpl;
    try constructor; auto.
  rewrite Forall_forall in *. intros y Hy. apply Hall.
  rewrite <- (firstn_skipn n l). apply in_or_app. now left.
Qed.

Lemma nth_error_firstn_some (A : Type) (n : nat) (l : list A) j x :
  nth_error (firstn n l) j = Some x -> nth_error l j = Some x /\ j < n.
Proof.
  revert l j. induction n as [|n IH]; intros l j H.
  - destruct j; discriminate.
  - destruct l as [|y l]; [destruct j; discriminate|].
    destruct j as [|j]; simpl in *; [split; [exact H | lia]|].
    apply IH in H. destruct H. split; [auto | lia].
Qed.

Lemma nth_error_firstn_lt (A : Type) (n : nat) (l : list A) j :
  j < n -> nth_error (firstn n l) j = nth_error l j.
Proof.
  revert l j. induction n as [|n IH]; intros l j H; [lia|].
  destruct l as [|y l]; [reflexivity|].
  destruct j as [|j]; simpl; [reflexivity | apply IH; lia].
Qed.

Lemma bound_app (A : Type) (ms : list A) (m : A) (idx : list nat) :
  Forall (fun i => i < length ms) idx ->
  Forall (fun i => i < length (ms ++ [m])) idx.
Proof.
  intros H. eapply Forall_impl; [|exact H].
  intros i Hi. simpl in *. rewrite length_app. simpl. lia.
Qed.

Section Dedupe.
Context {M E : Type}.
Variables (key : M -> str) (ok : M -> bool) (build : M -> E).
Variable ekey : E -> str.
Hypothesis ekey_build : forall m, ekey (build m) = key m.

Let step := dedupe_step key ok build.

Lemma seen_step (ms : list M) (acc : list str * list E) (idx : list nat)
    (m : M) :
  seen key ok build ms acc idx -> exists idx', seen key ok build (ms ++ [m]) (step acc m) idx'.
Proof.
  intros (Hlen & Hsort & Hbound & Hpick & Hfound).
  unfold step, dedupe_step.
  destruct (ok m) eqn:Hok; simpl andb.
  2: { exists idx. repeat split; auto.
       - now apply bound_app.
       - intros j i Hj. rewrite Forall_forall in Hbound.
         assert (Hi : i < length ms) by (apply Hbound; eapply nth_error_In; eauto).
         destruct (Hpick j i Hj) as (m0 & H1 & H2 & H3 & H4).
         exists m0. rewrite nth_error_app1 by exact Hi. repeat split; auto.
         intros i' m' Hlt H'. rewrite nth_error_app1 in H' by lia. eauto.
       - intros m0 Hin Hok0. apply in_app_or in Hin. destruct Hin as [Hin|[<-|[]]]; auto.
         congruence. }
  destruct (mem (key m) (fst acc)) eqn:Hmem; simpl negb; cbv iota.
  - exists idx. repeat split; auto.
    + now apply bound_app.
    + intros j i Hj. rewrite Forall_forall in Hbound.
      assert (Hi : i < length ms) by (apply Hbound; eapply nth_error_In; eauto).
      destruct (Hpick j i Hj) as (m0 & H1 & H2 & H3 & H4).
      exists m0. rewrite nth_error_app1 by exact Hi. repeat split; auto.
      intros i' m' Hlt H'. rewrite nth_error_app1 in H' by lia. eauto.
    + intros m0 Hin Hok0. apply in_app_or in Hin. destruct Hin as [Hin|[<-|[]]]; auto.
      now apply mem_true.
  - assert (Hnew : ~ In (key m) (fst acc)).
    { intros Hin. apply mem_true in Hin. congruence. }
    exists (idx ++ [length ms]). unfold seen. cbn [fst snd].
    split; [rewrite !length_app; simpl; lia|].
    split; [now apply sorted_snoc|].
    split.
    { apply Forall_app. split.
      - now apply bound_app.
      - constructor; [|constructor]. rewrite length_app. simpl. lia. }
    split.
    { intros j i Hj.
      destruct (Nat.lt_ge_cases j (length idx)) as [Hlt|Hge].
      - rewrite nth_error_app1 in Hj by exact Hlt.
        rewrite Forall_forall in Hbound.
        assert (Hi : i < length ms) by (apply Hbound; eapply nth_error_In; eauto).
        destruct (Hpick j i Hj) as (m0 & H1 & H2 & H3 & H4).
        exists m0. rewrite !nth_error_app1 by (try exact Hi; lia).
        repeat split; auto.
        intros i' m' Hlt' H'. rewrite nth_error_app1 in H' by lia. eauto.
      - rewrite nth_error_app2 in Hj by exact Hge.
        destruct (j - length idx) as [|d] eqn:Hd;
          [|destruct d; discriminate].
        injection Hj as <-. assert (j = length idx) by lia. subst j.
        exists m. rewrite nth_error_app2 by lia. rewrite Nat.sub_diag.
        rewrite Hlen, nth_error_app2 by lia. rewrite Nat.sub_diag.
        repeat split; auto.
        intros i' m' Hlt' H' Hok' Heq. rewrite nth_error_app1 in H' by exact Hlt'.
        apply Hnew. rewrite <- Heq. apply Hfound; auto.
        eapply nth_error_In; eauto. }
    intros m0 Hin Hok0. apply in_app_or in Hin.
    destruct Hin as [Hin|[<-|[]]]; [right; auto | now left].
Qed.

Lemma seen_fold (ms : list M) :
  exists idx, seen key ok build ms (fold_left step ms ([], [])) idx.
Proof.
  induction ms as [|m ms IH] using rev_ind.
  - exists []. repeat split; simpl; auto; try constructor;
      try (intros j i H; destruct j; discriminate); try (intros m []).
  - rewrite fold_left_app. simpl. destruct IH as [idx IH].
    eapply seen_step; eauto.
Qed.

Lemma seen_order (ms : list M) (acc : list str * list E) (idx : list nat)
    (n : nat) :
  seen key ok build ms acc idx ->
  in_discovery_order key ok build ms (firstn n (snd acc)).
Proof.
  intros (Hlen & Hsort & Hbound & Hpick & Hfound).
  exists (firstn n idx). split; [|split].
  - rewrite !length_firstn. lia.
  - now apply sorted_firstn.
  - intros j i Hj. apply nth_error_firstn_some in Hj. destruct Hj as [Hj Hjn].
    destruct (Hpick j i Hj) as (m0 & H1 & H2 & H3 & H4).
    exists m0. rewrite nth_error_firstn_lt by exact Hjn. auto.
Qed.

Lemma order_nodup (ms : list M) (out : list E) :
  in_discovery_order key ok build ms out -> NoDup (map ekey out).
Proof.
  intros (idx & Hlen & Hsort & Hpick).
  apply NoDup_nth_error. intros j1 j2 Hj1 Heq. rewrite length_map in Hj1.
  assert (Hcmp : forall a b, a < b -> b < length out ->
            nth_error (map ekey out) a <> nth_error (map ekey out) b).
  { intros a b Hab Hb Hsame.
    destruct (nth_error idx a) as [ia|] eqn:Ea;
      [|apply nth_error_None in Ea; lia].
    destruct (nth_error idx b) as [ib|] eqn:Eb;
      [|apply nth_error_None in Eb; lia].
    destruct (Hpick a ia Ea) as (ma & A1 & A2 & A3 & A4).
    destruct (Hpick b ib Eb) as (mb & B1 & B2 & B3 & B4).
    rewrite !nth_error_map, A3, B3 in Hsame. simpl in Hsame.
    injection Hsame as Hsame. rewrite !ekey_build in Hsame.
    apply (B4 ia ma (sorted_nth Hsort Hab Ea Eb) A1 A2 Hsame). }
  destruct (Nat.lt_trichotomy j1 j2) as [H|[H|H]]; auto.
  - destruct (Nat.lt_ge_cases j2 (length out)) as [H2|H2].
    + exfalso. apply (Hcmp j1 j2); auto.
    + exfalso. assert (E2 : nth_error (map ekey out) j2 = None)
        by (apply nth_error_None; rewrite length_map; lia).
      rewrite E2 in Heq. apply nth_error_None in Heq.
      rewrite length_map in Heq. lia.
  - exfalso. apply (Hcmp j2 j1); auto.
Qed.

Lemma order_built (ms : list M) (out : list E) (e : E) :
  in_discovery_order key ok build ms out -> In e out ->
  exists m, In m ms /\ ok m = true /\ e = build m.
Proof.
  intros (idx & Hlen & Hsort & Hpick) Hin.
  apply In_nth_error in Hin. destruct Hin as [j Hj].
  destruct (nth_error idx j) as [i|] eqn:Ei.
  - destruct (Hpick j i Ei) as (m & H1 & H2 & H3 & _).
    exists m. split; [eapply nth_error_In; eauto|]. split; [auto | congruence].
  - apply nth_error_None in Ei.
    assert (j < length out) by (apply nth_error_Some; congruence). lia.
Qed.

End Dedupe.

Lemma fold_left_ext (A B : Type) (f g : A -> B -> A) (l : list B) (a : A) :
  (forall x y, f x y = g x y) -> fold_left f l a = fold_left g l a.
Proof.
  intros H. revert a. induction l as [|b l IH]; intros a; simpl; [reflexivity|].
  rewrite H. apply IH.
Qed.

Lemma extract_institutions_dedupe (text : str) :
  extract_institutions text
  = firstn 5 (snd (fold_left
      (dedupe_step institution_key institution_ok institution_of)
      (matches_in_order IGNORECASE institution_patterns text) ([], []))).
Proof.
  reflexivity.
Qed.

Lemma extract_signers_dedupe (text : str) :
  extract_signers text
  = firstn 5 (snd (fold_left
      (dedupe_step full_name_of signer_ok (make_signer text))
      (matches_in_order no_flags name_patterns text) ([], []))).
Proof.
  unfold extract_signers. cbv zeta. apply f_equal. apply f_equal.
  apply fold_left_ext.
  intros acc m. unfold signer_step, dedupe_step, signer_ok.
  destruct (mem (full_name_of m) (fst acc)), (2 <? length (group m 1)),
    (2 <? length (group m 2)); reflexivity.
Qed.

Lemma institutions_in_order (text : str) :
  in_discovery_order institution_key institution_ok institution_of
    (matches_in_order IGNORECASE institution_patterns text)
    (extract_institutions text).
Proof.
  rewrite extract_institutions_dedupe.
  destruct (seen_fold institution_key institution_ok institution_of
              (matches_in_order IGNORECASE institution_patterns text)) as [idx H].
  eapply seen_order; eauto.
Qed.

Lemma signers_in_order (text : str) :
  in_discovery_order full_name_of signer_ok (make_signer text)
    (matches_in_order no_flags name_patterns text)
    (extract_signers text).
Proof.
  rewrite extract_signers_dedupe.
  destruct (seen_fold full_name_of signer_ok (make_signer text)
              (matches_in_order no_flags name_patterns text)) as [idx H].
  eapply seen_order; eauto.
Qed.

(** *** The patterns of the script *)

Lemma patterns_parse :
  forallb (fun p => match parse p with Some _ => true | None => false end)
    (url_pattern :: expediente_pattern :: title_pattern
     :: internacional_pattern
     :: date_patterns ++ duracion_patterns ++ firma_patterns
     ++ objeto_patterns ++ institution_patterns ++ name_patterns
     ++ map (fun kv => txt "\b" ++ escape (fst kv) ++ txt "\b")
          (tipos_convenio ++ tipos_renovacion))
  = true.
Proof. vm_compute. reflexivity. Qed.

(** *** Dates *)

Lemma first_match_found fl (ps : list str) (text p : str) (m : rmatch) :
  first_match fl ps text = Some (p, m) ->
  In p ps /\ search fl p text = Some m.
Proof.
  induction ps as [|q ps IH]; simpl; [discriminate|].
  destruct (search fl q text) eqn:E.
  - intros [= <- <-]. auto.
  - intros H. apply IH in H. destruct H. auto.
Qed.

Lemma digit_not_sign (c : ascii) :
  is_digit c = true -> (Ascii.eqb c "+" || Ascii.eqb c "-")%bool = false.
Proof.
  destruct c as [[] [] [] [] [] [] [] []]; vm_compute; intros H;
    solve [reflexivity | discriminate].
Qed.

Lemma zfill2_digits (w : str) :
  Forall (fun c => is_digit c = true) w -> 1 <= length w <= 2 ->
  digits 2 (zfill 2 w).
Proof.
  intros Hall Hlen. destruct w as [|a [|b [|c w]]]; simpl in Hlen; try lia.
  - inversion Hall; subst. unfold zfill. rewrite digit_not_sign by assumption.
    split; [|reflexivity]. constructor; [reflexivity | assumption].
  - inversion Hall; subst. unfold zfill. rewrite digit_not_sign by assumption.
    split; [assumption | reflexivity].
Qed.

Lemma month_digits (key : str) :
  digits 2 (zfill 2 (get month_map key (txt "01"))).
Proof.
  destruct (get_cases month_map key (txt "01")) as [H|H]; revert H;
    generalize (get month_map key (txt "01")); intros s H.
  - subst. vm_compute. repeat constructor.
  - vm_compute in H.
    repeat (destruct H as [<-|H]; [vm_compute; repeat constructor|]).
    destruct H.
Qed.

Lemma pivot_year_digits (y : str) :
  Forall (fun c => is_digit c = true) y -> 2 <= length y <= 4 ->
  Forall (fun c => is_digit c = true) (pivot_year y)
  /\ 3 <= length (pivot_year y) <= 4.
Proof.
  intros Hall Hlen. unfold pivot_year.
  destruct (Nat.eqb_spec (length y) 2) as [E|E].
  - destruct (50 <? int y); (split; [|rewrite length_app, E; simpl; lia]);
      apply Forall_app; (split; [vm_compute; repeat constructor | exact Hall]).
  - split; [exact Hall | lia].
Qed.

Lemma iso_shaped_intro (ymin ymax : nat) (y mo d : str) :
  Forall (fun c => is_digit c = true) y -> ymin <= length y <= ymax ->
  digits 2 mo -> digits 2 d ->
  iso_shaped ymin ymax (y ++ dash ++ mo ++ dash ++ d).
Proof. intros. exists y, mo, d. auto. Qed.

(** The groups of a match of each date pattern. *)
Ltac open_search H :=
  unfold search in H;
  match type of H with
  | context [compile ?p] =>
      let r := eval vm_compute in (compile p) in
      change (compile p) with r in H
  end;
  apply search_at_found in H;
  destruct H as (? & ? & _ & _ & H);
  apply match_here_den in H.

Ltac read_groups :=
  den_walk; cbn [m_caps init] in *;
  unfold group;
  repeat match goal with
  | H : m_caps ?s = _ |- context [m_caps ?s] => rewrite H
  end;
  cbn [assoc Nat.eqb];
  repeat match goal with
  | H : Forall (fun c => cls_ok IGNORECASE false [CDigit] c = true) _ |- _ =>
      apply all_digits_i in H
  end;
  cbn [within] in *.

Lemma spelled_date_shaped (m : rmatch) :
  Forall (fun c => is_digit c = true) (group m 1) ->
  1 <= length (group m 1) <= 2 ->
  digits 4 (group m 3) ->
  iso_shaped 4 4 (spelled_date m).
Proof.
  intros H1 L1 [H3 L3]. unfold spelled_date. apply iso_shaped_intro; auto.
  - lia.
  - apply month_digits.
  - now apply zfill2_digits.
Qed.

Lemma resolution_fecha_shaped (text : str) :
  resolution_fecha text = [] \/ iso_shaped 4 4 (resolution_fecha text).
Proof.
  unfold resolution_fecha.
  destruct (first_match IGNORECASE date_patterns text) as [[p m]|] eqn:E;
    [right | now left].
  apply first_match_found in E. destruct E as [Hin H].
  destruct Hin as [<-|[<-|[<-|[]]]].
  - change (iso_shaped 4 4 (spelled_date m)).
    open_search H.
    apply spelled_date_shaped; read_groups; try split; auto; lia.
  - match goal with
    | |- context [contains ?a ?b] =>
        let v := eval vm_compute in (contains a b) in
        change (contains a b) with v
    end.
    match goal with
    | |- context [ngroups ?a] =>
        let v := eval vm_compute in (ngroups a) in
        change (ngroups a) with v
    end.
    cbv iota. cbn [Nat.eqb andb].
    open_search H.
    assert (G : (Forall (fun c => is_digit c = true) (group m 1)
                 /\ 1 <= length (group m 1) <= 2)
                /\ (Forall (fun c => is_digit c = true) (group m 2)
                    /\ 1 <= length (group m 2) <= 2)
                /\ digits 4 (group m 3)).
    { read_groups. repeat split; auto; lia. }
    destruct G as ((H1 & L1) & (H2 & L2) & (H3 & L3)).
    destruct (Nat.eqb_spec (length (group m 1)) 4); [lia|].
    apply iso_shaped_intro; auto; try lia; now apply zfill2_digits.
  - match goal with
    | |- context [contains ?a ?b] =>
        let v := eval vm_compute in (contains a b) in
        change (contains a b) with v
    end.
    match goal with
    | |- context [ngroups ?a] =>
        let v := eval vm_compute in (ngroups a) in
        change (ngroups a) with v
    end.
    cbv iota. cbn [Nat.eqb andb].
    open_search H.
    assert (G : digits 4 (group m 1)
                /\ (Forall (fun c => is_digit c = true) (group m 2)
                    /\ 1 <= length (group m 2) <= 2)
                /\ (Forall (fun c => is_digit c = true) (group m 3)
                    /\ 1 <= length (group m 3) <= 2)).
    { read_groups. repeat split; auto; lia. }
    destruct G as ((H1 & L1) & (H2 & L2) & (H3 & L3)).
    rewrite L1. cbn [Nat.eqb].
    apply iso_shaped_intro; auto; try lia; now apply zfill2_digits.
Qed.

Lemma fecha_firma_shaped (text : str) :
  convenio_fecha_firma text = []
  \/ iso_shaped 3 4 (convenio_fecha_firma text).
Proof.
  unfold convenio_fecha_firma.
  destruct (first_match IGNORECASE firma_patterns text) as [[p m]|] eqn:E;
    [right | now left].
  apply first_match_found in E. destruct E as [Hin H].
  destruct Hin as [<-|[<-|[]]].
  - match goal with
    | |- context [contains ?a ?b] =>
        let v := eval vm_compute in (contains a b) in
        change (contains a b) with v
    end.
    cbv iota zeta.
    open_search H.
    assert (G : (Forall (fun c => is_digit c = true) (group m 1)
                 /\ 1 <= length (group m 1) <= 2)
                /\ (Forall (fun c => is_digit c = true) (group m 2)
                    /\ 1 <= length (group m 2) <= 2)
                /\ (Forall (fun c => is_digit c = true) (group m 3)
                    /\ 2 <= length (group m 3) <= 4)).
    { read_groups. repeat split; auto; lia. }
    destruct G as ((H1 & L1) & (H2 & L2) & (H3 & L3)).
    destruct (pivot_year_digits H3 L3) as [Hy Ly].
    apply iso_shaped_intro; auto; now apply zfill2_digits.
  - assert (Hs : iso_shaped 4 4 (spelled_date m)).
    { open_search H.
      apply spelled_date_shaped; read_groups; try split; auto; lia. }
    destruct Hs as (y & mo & d & Heq & Hy & Ly & Hmo & Hd).
    match goal with
    | |- context [contains ?a ?b] =>
        let v := eval vm_compute in (contains a b) in
        change (contains a b) with v
    end.
    cbv iota. exists y, mo, d. repeat split; auto; try lia;
      try apply Hmo; apply Hd.
Qed.

(** *** The spelled signing date *)

Lemma spelled_firma_shape : compile spelled_firma_pattern = spelled_firma_re.
Proof. vm_compute. reflexivity. Qed.

Lemma digit_cls_i (c : ascii) :
  is_digit c = true -> cls_ok IGNORECASE false [CDigit] c = true.
Proof.
  destruct c as [[] [] [] [] [] [] [] []]; vm_compute; intros H;
    solve [reflexivity | discriminate].
Qed.

Lemma digit_not_space_i (c : ascii) :
  is_digit c = true -> cls_ok IGNORECASE false [CSpace] c = false.
Proof.
  destruct c as [[] [] [] [] [] [] [] []]; vm_compute; intros H;
    solve [reflexivity | discriminate].
Qed.

Lemma word_not_space_i (c : ascii) :
  cls_ok IGNORECASE false [CWord] c = true ->
  cls_ok IGNORECASE false [CSpace] c = false.
Proof.
  destruct c as [[] [] [] [] [] [] [] []]; vm_compute; intros H;
    solve [reflexivity | discriminate].
Qed.

Ltac lits_step w0 :=
  eapply leads_lits with (w := w0);
  [reflexivity | repeat (constructor; [reflexivity|]); constructor |].

Ltac ws_step :=
  eapply leads_seq;
  [eapply leads_rep_cls with (w := [" "%char]);
   [reflexivity | repeat constructor | right; try reflexivity
   | simpl; lia | exact I] |].

Lemma spelled_date_leads (prev : option ascii) (pos : nat)
    (D mes Y post : str) (caps : list (nat * str)) (pv : option ascii) :
  Forall (fun c => is_digit c = true) D -> 1 <= length D <= 2 ->
  Forall (fun c => cls_ok IGNORECASE false [CWord] c = true) mes -> mes <> [] ->
  digits 4 Y ->
  exists st',
    leads IGNORECASE spelled_date_re
      {| m_prev := pv;
         m_rest := D ++ txt " de " ++ mes ++ txt " de " ++ Y ++ post;
         m_pos := pos; m_caps := caps |} st'
    /\ m_caps st' = (3, Y) :: (2, mes) :: (1, D) :: caps.
Proof.
  intros HD LD Hmes Hne [HY LY].
  repeat match goal with
  | |- context [txt ?s] =>
      let v := eval vm_compute in (txt s) in change (txt s) with v
  end.
  cbn [app].
  destruct mes as [|c mes']; [congruence|].
  assert (Hc : cls_ok IGNORECASE false [CSpace] c = false).
  { inversion Hmes; subst. now apply word_not_space_i. }
  assert (Hy : stops_at (cls_ok IGNORECASE false [CSpace]) (Y ++ post)).
  { destruct Y as [|y Y']; [simpl in LY; lia|]. inversion HY; subst.
    simpl. now apply digit_not_space_i. }
  eexists. split.
  - unfold spelled_date_re.
    eapply leads_seq.
    { eapply leads_grp. eapply leads_rep_cls with (w := D).
      - reflexivity.
      - eapply Forall_impl; [|exact HD]. exact digit_cls_i.
      - right. reflexivity.
      - lia.
      - simpl. lia. }
    ws_step. lits_step ["d"%char; "e"%char]. ws_step.
    { cbn [app]. exact Hc. }
    eapply leads_seq.
    { eapply leads_grp. eapply leads_rep_cls with (w := c :: mes').
      - reflexivity.
      - exact Hmes.
      - right. reflexivity.
      - simpl. lia.
      - exact I. }
    ws_step. lits_step ["d"%char; "e"%char]. ws_step.
    { cbn [app]. exact Hy. }
    eapply leads_grp. eapply leads_rep_cls with (w := Y) (rest := post).
    + reflexivity.
    + eapply Forall_impl; [|exact HY]. exact digit_cls_i.
    + left. now rewrite LY.
    + lia.
    + simpl. lia.
  - cbn [m_caps set_group advance_by advance].
    rewrite !span_advance_by by reflexivity. reflexivity.
Qed.

Lemma spelled_firma_match (prev : option ascii) (pos : nat)
    (D mes Y post : str) :
  Forall (fun c => is_digit c = true) D -> 1 <= length D <= 2 ->
  Forall (fun c => cls_ok IGNORECASE false [CWord] c = true) mes -> mes <> [] ->
  digits 4 Y ->
  exists m,
    match_here IGNORECASE spelled_firma_re prev
      (spelled_signing D mes Y ++ post) pos = Some m
    /\ group m 1 = D /\ group m 2 = mes /\ group m 3 = Y.
Proof.
  intros HD LD Hmes Hne HY.
  assert (Hd : stops_at (cls_ok IGNORECASE false [CSpace])
                 (D ++ txt " de " ++ mes ++ txt " de " ++ Y ++ post)).
  { destruct D as [|d D']; [simpl in LD; lia|]. inversion HD; subst.
    simpl. now apply digit_not_space_i. }
  unfold match_here, spelled_signing. rewrite <- !app_assoc.
  match goal with
  | |- context [txt "suscripto el "] =>
      let v := eval vm_compute in (txt "suscripto el ") in
      change (txt "suscripto el ") with v
  end.
  cbn [app].
  match goal with
  | |- context [init ?a ?b ?c] => set (st0 := init a b c)
  end.
  destruct (@spelled_date_leads prev (pos + 13) D mes Y post [] (Some " "%char)
              HD LD Hmes Hne HY) as (st' & Hl & Hcaps).
  assert (H : leads IGNORECASE spelled_firma_re st0 st').
  { unfold spelled_firma_re, st0.
    lits_step (txt "suscr").
    eapply leads_seq; [eapply leads_cls; reflexivity|].
    lits_step (txt "pt").
    eapply leads_seq.
    { eapply leads_rep_lit with (w := ["o"%char]);
        [reflexivity | repeat constructor | left; reflexivity
        | simpl; lia | simpl; lia]. }
    ws_step. lits_step (txt "el"). ws_step.
    { cbn [app]. exact Hd. }
    match goal with
    | |- leads _ _ ?s _ =>
        replace s with {| m_prev := Some " "%char;
                          m_rest := D ++ txt " de " ++ mes ++ txt " de " ++ Y ++ post;
                          m_pos := pos + 13; m_caps := [] |}
    end; [exact Hl|].
    unfold advance_by, advance, init. cbn [m_prev m_rest m_pos m_caps map last length app].
    f_equal.
    change (length (txt "suscr")) with 5. change (length (txt "pt")) with 2.
    change (length (txt "el")) with 2. lia. }
  rewrite (H Some st' eq_refl).
  eexists. split; [reflexivity|].
  unfold group. cbn [final]. rewrite Hcaps. cbn [assoc Nat.eqb]. auto.
Qed.

Lemma month_entry (k v : str) :
  In (k, v) month_map ->
  zfill 2 (get month_map k (txt "01")) = v
  /\ Forall (fun c => is_word c = true) k /\ k <> [].
Proof.
  intros H. vm_compute in H.
  repeat (destruct H as [H|H];
          [injection H as <- <-;
           split; [vm_compute; reflexivity|];
           split; [repeat (constructor; [reflexivity|]); constructor
                  | discriminate] |]).
  destruct H.
Qed.

Lemma lower_word_i (w : str) :
  Forall (fun c => is_word c = true) (lower w) ->
  Forall (fun c => cls_ok IGNORECASE false [CWord] c = true) w.
Proof.
  unfold lower. rewrite Forall_map. apply Forall_impl.
  intros c H. unfold cls_ok. simpl. now rewrite H.
Qed.

Lemma spelled_firma_found (pre D mes Y post : str) :
  Forall (fun c => is_digit c = true) D -> 1 <= length D <= 2 ->
  Forall (fun c => cls_ok IGNORECASE false [CWord] c = true) mes -> mes <> [] ->
  digits 4 Y ->
  (forall m,
     search IGNORECASE spelled_firma_pattern
       (pre ++ spelled_signing D mes Y ++ post) = Some m ->
     length pre <= start m) ->
  exists m,
    search IGNORECASE spelled_firma_pattern
      (pre ++ spelled_signing D mes Y ++ post) = Some m
    /\ group m 1 = D /\ group m 2 = mes /\ group m 3 = Y.
Proof.
  intros HD LD Hmes Hne HY Hfirst. unfold search in *.
  rewrite spelled_firma_shape in *.
  destruct (search_at_skip IGNORECASE spelled_firma_re pre
              (spelled_signing D mes Y ++ post) None 0)
    as [(m & Hm & Hlt) | Heq].
  - apply Hfirst in Hm. simpl in Hlt. lia.
  - rewrite Heq.
    destruct (@spelled_firma_match (last (map Some pre) None) (0 + length pre)
                D mes Y post HD LD Hmes Hne HY) as (m & Hm & G).
    exists m. split; [now apply search_at_here | exact G].
Qed.

(** *** Occurrences of the word [convenio] *)

Lemma convenio_runs_to_endb_spec (text : str) :
  convenio_runs_to_endb text = true -> convenio_runs_to_end text.
Proof.
  intros H pre. revert text H.
  induction pre as [|x pre IH]; intros text H w post Ht Hw c Hin.
  - assert (Lw : length w = 8).
    { rewrite <- (lower_length w), Hw. reflexivity. }
    simpl in Ht.
    destruct text as [|y text];
      [destruct w; [discriminate Lw | discriminate Ht]|].
    cbn [convenio_runs_to_endb] in H.
    apply andb_true_iff in H. destruct H as [H _]. rewrite Ht in H.
    rewrite <- Lw in H. rewrite firstn_app, Nat.sub_diag, firstn_all in H.
      rewrite skipn_app, Nat.sub_diag, skipn_all in H.
      simpl in H. rewrite app_nil_r, Hw in H.
      replace (eqb_str (txt "convenio") (txt "convenio")) with true in H
        by (symmetry; now apply eqb_str_true).
      simpl in H. rewrite forallb_forall in H.
      apply H in Hin. now destruct (is_terminator c).
  - destruct text as [|y text]; [discriminate Ht|].
    injection Ht as -> Ht. simpl in H.
    apply andb_true_iff in H. destruct H as [_ H].
    apply (IH text H w post Ht Hw c Hin).
Qed.

(** *** Whole-word lookups *)

Lemma is_word_lower (c : ascii) : is_word (lower_char c) = is_word c.
Proof. destruct c as [[] [] [] [] [] [] [] []]; reflexivity. Qed.

Lemma leads_wordb fl (st : mstate) :
  at_boundary st = true -> leads fl WordB st st.
Proof. intros H k res Hk. simpl. now rewrite H. Qed.

Lemma den_wordb_inv fl st st' :
  den fl WordB st st' -> at_boundary st = true /\ st' = st.
Proof. exact (fun H => H). Qed.

Lemma lower_lit_ok (s w : str) :
  lower w = lower s -> Forall2 (fun x c => lit_ok IGNORECASE x c = true) s w.
Proof.
  revert w. induction s as [|x s IH]; intros [|c w] H; try discriminate.
  - constructor.
  - injection H as Hc H. constructor; [|now apply IH].
    unfold lit_ok. simpl. now apply Ascii.eqb_eq.
Qed.

Lemma search_at_some fl (r : regex) (pre suf : str) (m : rmatch) :
  match_here fl r (last (map Some pre) None) suf (0 + length pre) = Some m ->
  exists m', search_at fl r None (pre ++ suf) 0 = Some m'.
Proof.
  intros H.
  destruct (search_at_skip fl r pre suf None 0) as [(m' & Hm & _) | Heq].
  - now exists m'.
  - exists m. rewrite Heq. now apply search_at_here.
Qed.

(** A whole-word match of a key that continues another key after a
    character that is no word character holds a whole-word match of the
    shorter key. *)
Lemma word_prefix_found (k1 rest : str) (c : ascii) (text : str) (m : rmatch) :
  k1 <> [] -> Forall (fun x => is_word x = true) k1 -> is_word c = false ->
  search_at IGNORECASE (word_re (k1 ++ c :: rest)) None text 0 = Some m ->
  exists m', search_at IGNORECASE (word_re k1) None text 0 = Some m'.
Proof.
  intros Hne Hk1 Hc H.
  apply search_at_found in H. destruct H as (pre & suf & -> & Hs & H).
  rewrite Hs in H. apply match_here_den in H.
  unfold word_re in H. apply den_seq_inv in H. destruct H as (mid & H0 & H).
  apply den_wordb_inv in H0. destruct H0 as [Hb ->].
  apply den_lits_i in H. destruct H as (w & mid & Hw & [Hr _] & _ & _).
  unfold lower in Hw. rewrite map_app in Hw.
  apply map_eq_app in Hw. destruct Hw as (w1 & w2 & -> & Hw1 & Hw2).
  destruct w2 as [|x w2]; [discriminate|]. injection Hw2 as Hx Hw2.
  cbn [m_rest init] in Hr. rewrite <- app_assoc in Hr.
  apply search_at_some with (m := {| start := 0 + length pre;
     final := advance_by w1 ((x :: w2) ++ m_rest mid)
                (init (last (map Some pre) None) suf (0 + length pre)) |}).
  unfold match_here.
  assert (L : leads IGNORECASE (word_re k1)
                (init (last (map Some pre) None) suf (0 + length pre))
                (advance_by w1 ((x :: w2) ++ m_rest mid)
                   (init (last (map Some pre) None) suf (0 + length pre)))).
  { unfold word_re. eapply leads_seq; [now apply leads_wordb|].
    eapply leads_lits; [exact Hr | now apply lower_lit_ok |].
    apply leads_wordb. unfold at_boundary, advance_by.
    cbn [m_prev m_rest app].
    assert (Hx' : is_word x = false).
    { rewrite <- (is_word_lower x), Hx, is_word_lower. exact Hc. }
    rewrite Hx'.
    assert (Hlast : exists y, last (map Some w1) (m_prev (init (last (map Some pre) None) suf (0 + length pre))) = Some y /\ is_word y = true).
    { assert (Hw : Forall (fun y => is_word y = true) w1).
      { clear - Hw1 Hk1. revert k1 Hw1 Hk1.
        induction w1 as [|y w1 IH]; intros [|k k1] E Hk; try discriminate;
          constructor.
        - injection E as E _. inversion Hk; subst.
          rewrite <- (is_word_lower y), E, is_word_lower. assumption.
        - injection E as _ E. inversion Hk; subst. eapply IH; eauto. }
      assert (Hne1 : w1 <> []).
      { intros ->. destruct k1; [congruence | discriminate]. }
      clear - Hw Hne1. generalize (m_prev (init (last (map Some pre) None) suf (0 + length pre))).
      induction w1 as [|y w1 IH]; intros d; [congruence|].
      cbn [map]. rewrite last_cons. destruct w1 as [|z w1].
      - exists y. inversion Hw; subst. auto.
      - inversion Hw; subst. apply IH; auto. discriminate. }
    destruct Hlast as (y & -> & ->). reflexivity. }
  now rewrite (L Some _ eq_refl).
Qed.

Lemma lookup_word_first (d : table) (text v : str) :
  lookup_word d text = Some v ->
  exists i k,
    nth_error d i = Some (k, v)
    /\ search IGNORECASE (word_pattern k) text <> None
    /\ forall j k' v', j < i -> nth_error d j = Some (k', v') ->
         search IGNORECASE (word_pattern k') text = None.
Proof.
  induction d as [|[k0 v0] d IH]; [discriminate|].
  cbn [lookup_word].
  change (txt "\b" ++ escape k0 ++ txt "\b") with (word_pattern k0).
  destruct (search IGNORECASE (word_pattern k0) text) as [m|] eqn:E.
  - intros H. injection H as ->. exists 0, k0.
    split; [reflexivity|]. split; [rewrite E; discriminate|].
    intros j k' v' Hj. lia.
  - intros H. apply IH in H. destruct H as (i & k & Hn & Hm & He).
    exists (S i), k. split; [exact Hn|]. split; [exact Hm|].
    intros [|j] k' v' Hj Hj'.
    + injection Hj' as <- <-. exact E.
    + apply (He j k' v'); [lia | exact Hj'].
Qed.

Lemma marco_patterns_shape :
  compile (word_pattern (txt "marco")) = word_re (txt "marco")
  /\ compile (word_pattern (txt "marco de cooperacion"))
     = word_re (txt "marco" ++ " "%char :: txt "de cooperacion").
Proof. vm_compute. split; reflexivity. Qed.

End ExtractorFacts.

(** ** The claims of the specification *)

Module ConvenioSpec.
Import Py Re Extractor Props PyFacts ReFacts ExtractorFacts.

(** *** Two-digit years *)

(** C5. A year token of exactly two digits is expanded with the pivot at
    50: a value above 50 gets the prefix 19, any other value the prefix
    20.  This holds of the expansion itself, of the year of an
    [expediente] and of the year of a numeric [firmado el] date. *)
Theorem two_digit_year_pivot (n : nat) (H : n < 100) :
  let century := if 50 <? n then txt "19" else txt "20" in
  pivot_year (two_digits n) = century ++ two_digits n
  /\ res_expediente_anio
       (extract_resolution_data (txt "Expediente N° 1234/" ++ two_digits n)
          scenario_url)
     = century ++ two_digits n
  /\ fecha_firma
       (extract_convenio_data (txt "Convenio firmado el 7/3/" ++ two_digits n))
     = century ++ two_digits n ++ txt "-03-07".
Proof.
  do 100 (destruct n as [|n]; [vm_compute; repeat split; reflexivity|]).
  exfalso. lia.
Qed.

Lemma two_digit_year_pivot_witness :
  pivot_year (txt "49") = txt "2049"
  /\ pivot_year (txt "51") = txt "1951"
  /\ pivot_year (txt "50") = txt "2050".
Proof.
  split; [|split].
  - exact (proj1 (@two_digit_year_pivot 49 ltac:(lia))).
  - exact (proj1 (@two_digit_year_pivot 51 ltac:(lia))).
  - exact (proj1 (@two_digit_year_pivot 50 ltac:(lia))).
Defined.

(** *** Short texts *)



(** *** Truncation *)

(** C8. The title has at most 255 characters and the object at most 500,
    whatever the length of the captured span. *)
Theorem titulo_objeto_truncated (text : str) :
  length (titulo (extract_convenio_data text)) <= 255
  /\ length (objeto (extract_convenio_data text)) <= 500.
Proof.
  split.
  - change (length (convenio_titulo text) <= 255). unfold convenio_titulo.
    destruct search; [apply firstn_le_length | simpl; lia].
  - change (length (convenio_objeto text) <= 500). unfold convenio_objeto.
    destruct first_match as [[pattern m]|]; [apply firstn_le_length | simpl; lia].
Qed.

(** A captured span of 300 characters is cut to 255, one of 600 to 500. *)
Lemma truncation_reached :
  titulo (extract_convenio_data
            (txt "Convenio " ++ repeat "a"%char 300 ++ txt "."))
  = repeat "a"%char 255
  /\ objeto (extract_convenio_data
               (txt "Objeto: " ++ repeat "b"%char 600 ++ txt ". Fin"))
     = repeat "b"%char 500.
Proof. vm_compute. split; reflexivity. Qed.

(** *** Bounded, deduplicated, ordered lists *)

(** C7. The institutions and the signers each are at most 5, no two of
    them have the same deduplication key (the lowered name; the lowered
    "nombre apellido"), and they stand in the order of first discovery:
    each entry is built from the first accepted candidate that has its
    key, and the entries follow the order of the candidates. *)
Theorem lists_bounded_deduplicated_ordered (text : str) :
  length (extract_institutions text) <= 5
  /\ NoDup (map inst_key (extract_institutions text))
  /\ in_discovery_order institution_key institution_ok institution_of
       (matches_in_order IGNORECASE institution_patterns text)
       (extract_institutions text)
  /\ length (extract_signers text) <= 5
  /\ NoDup (map sig_key (extract_signers text))
  /\ in_discovery_order full_name_of signer_ok (make_signer text)
       (matches_in_order no_flags name_patterns text)
       (extract_signers text).
Proof.
  pose proof (institutions_in_order text) as Hi.
  pose proof (signers_in_order text) as Hs.
  repeat split; auto.
  - apply firstn_le_length.
  - eapply order_nodup; [|exact Hi]. reflexivity.
  - apply firstn_le_length.
  - eapply order_nodup; [|exact Hs]. reflexivity.
Qed.

(** *** Titles of signers *)

(** C9. When the context window of a signer contains [vicerrector] or
    [vicerrectora], the title is [Rector/a] and not [Vicerrector/a]: the
    key [rector] comes first in the table and occurs inside both words. *)
Theorem vicerrector_classified_as_rector (text : str) (m : rmatch)
    (H : contains (txt "vicerrector") (lower (context_of text m)) = true
         \/ contains (txt "vicerrectora") (lower (context_of text m)) = true) :
  sig_cargo (make_signer text m) = txt "Rector/a"
  /\ sig_cargo (make_signer text m) <> txt "Vicerrector/a".
Proof.
  split; [|apply cargo_of_never_vicerrector].
  apply cargo_of_rector.
  destruct H as [H|H];
    [apply (@contains_trans _ (txt "vicerrector")) |
     apply (@contains_trans _ (txt "vicerrectora"))]; auto.
Qed.

Lemma vicerrector_classified_as_rector_witness :
  option_map
    (fun m => sig_cargo
                (make_signer (txt "Firma el Vicerrector Juan Perez.") m))
    (first_name_match (txt "Firma el Vicerrector Juan Perez."))
  = Some (txt "Rector/a").
Proof.
  destruct (first_name_match (txt "Firma el Vicerrector Juan Perez."))
    as [m|] eqn:E; [|vm_compute in E; discriminate].
  simpl. f_equal.
  apply (@vicerrector_classified_as_rector
           (txt "Firma el Vicerrector Juan Perez.") m).
  left. vm_compute in E. injection E as <-. vm_compute. reflexivity.
Defined.

(** No signer of any text carries the title [Vicerrector/a]. *)
Lemma signers_never_vicerrector (text : str) (s : signer) :
  In s (extract_signers text) -> sig_cargo s <> txt "Vicerrector/a".
Proof.
  intros H.
  destruct (@order_built _ _ _ _ _ _ _ s (signers_in_order text) H)
    as (m & _ & _ & ->).
  apply cargo_of_never_vicerrector.
Qed.

(** *** The scenario of the specification *)



(** Whatever the text, an institution named [Universidad Nacional de
    Salta] is classified [Nacional]: the key [nacional] comes before
    [universidad] in the table. *)
Lemma universidad_nacional_is_nacional (text : str) (i : institution) :
  In i (extract_institutions text) ->
  lower (inst_nombre i) = txt "universidad nacional de salta" ->
  inst_tipo i = txt "Nacional".
Proof.
  intros H Hname.
  destruct (@order_built _ _ _ _ _ _ _ i (institutions_in_order text) H)
    as (m & _ & _ & ->).
  unfold institution_of, make_institution in *. cbn [inst_nombre inst_tipo] in *.
  rewrite Hname. vm_compute. reflexivity.
Qed.

(** *** Compound and generic agreement types *)

(** C2 at failing inputs: the compound term [marco de cooperacion] and the
    generic term [marco] both occur as whole words, in either order, and
    the lookup returns [Marco], since the table declares [marco] before
    [marco de cooperacion]. *)
Lemma marco_de_cooperacion_yields_marco :
  tipo_convenio
    (extract_convenio_data (txt "Convenio marco de cooperacion entre las partes"))
  = txt "Marco"
  /\ tipo_convenio
       (extract_convenio_data
          (txt "Convenio marco de cooperacion, en adelante el marco"))
     = txt "Marco"
  /\ tipo_convenio
       (extract_convenio_data
          (txt "Dentro del marco legal se firma el convenio marco de cooperacion"))
     = txt "Marco".
Proof. vm_compute. repeat split; reflexivity. Qed.

(** The entry [marco de cooperacion] is never selected, whatever the
    text: where it matches as a whole word, so does [marco], which the
    table declares first. *)
Lemma marco_de_cooperacion_never_returned (text : str) :
  tipo_convenio (extract_convenio_data text) <> txt "Marco de Cooperacion".
Proof.
  change (match lookup_word tipos_convenio text with
          | Some v => v
          | None => txt "Marco"
          end <> txt "Marco de Cooperacion").
  destruct (lookup_word tipos_convenio text) as [v|] eqn:E;
    [|vm_compute; discriminate].
  intros ->. apply lookup_word_first in E.
  destruct E as (i & k & Hn & Hm & He).
  assert (Hi : i = 18).
  { do 34 (destruct i as [|i];
           [vm_compute in Hn; first [discriminate Hn | reflexivity]|]).
    destruct i; discriminate Hn. }
  subst i. injection Hn as <-.
  assert (Hmarco :
    search IGNORECASE (word_pattern (txt "marco")) text = None).
  { apply (He 16 (txt "marco") (txt "Marco")); [lia | reflexivity]. }
  destruct (search IGNORECASE (word_pattern (txt "marco de cooperacion")) text)
    as [m|] eqn:E; [|now apply Hm].
  unfold search in E, Hmarco.
  destruct marco_patterns_shape as [S1 S2]. rewrite S1 in Hmarco. rewrite S2 in E.
  apply word_prefix_found in E.
  - destruct E as [m' E]. congruence.
  - discriminate.
  - repeat (constructor; [reflexivity|]). constructor.
  - reflexivity.
Qed.

(** *** Dates *)

(** C3, as stated, fails: a date field that is neither empty nor a
    calendar date is emitted, for the resolution (31 February) and for
    the signing (day 45 of month 13). *)
Lemma invalid_dates_emitted :
  res_fecha (extract_resolution_data (txt "Salta, 31 de febrero de 2020")
               scenario_url)
  = txt "2020-02-31"
  /\ valid_iso_date
       (res_fecha (extract_resolution_data (txt "Salta, 31 de febrero de 2020")
                     scenario_url))
     = false
  /\ fecha_firma (extract_convenio_data (txt "Convenio firmado el 45/13/2020"))
     = txt "2020-13-45"
  /\ valid_iso_date
       (fecha_firma (extract_convenio_data (txt "Convenio firmado el 45/13/2020")))
     = false.
Proof. vm_compute. repeat split; reflexivity. Qed.

(** C4, as stated, fails: the spelling [suscrito] is not matched by the
    second signing pattern, and no signing date is found. *)
Lemma suscrito_not_matched :
  fecha_firma
    (extract_convenio_data
       (txt "Convenio marco suscrito el 15 de marzo de 2020 entre las partes"))
  = []
  /\ search IGNORECASE numeric_firma_pattern
       (txt "Convenio marco suscrito el 15 de marzo de 2020 entre las partes")
     = None.
Proof. vm_compute. split; reflexivity. Qed.

(** C4, amended.  When the first match of the spelled signing pattern is
    a clause [suscripto el D de <mes> de YYYY] (one or two digits for the
    day, a month name of the table in any case, four digits for the year)
    and the text has no numeric [firmado el D/M/Y] date, the signing date
    is [YYYY-MM-DD], with the month of the table and the day padded to two
    digits. *)
Theorem suscripto_date_extracted (pre D mes mm Y post : str)
    (HD : Forall (fun c => is_digit c = true) D)
    (LD : 1 <= length D <= 2)
    (Hmes : In (lower mes, mm) month_map)
    (HY : digits 4 Y)
    (Hnum : search IGNORECASE numeric_firma_pattern
              (pre ++ spelled_signing D mes Y ++ post) = None)
    (Hfirst : forall m,
        search IGNORECASE spelled_firma_pattern
          (pre ++ spelled_signing D mes Y ++ post) = Some m ->
        length pre <= start m) :
  fecha_firma (extract_convenio_data (pre ++ spelled_signing D mes Y ++ post))
  = Y ++ dash ++ mm ++ dash ++ zfill 2 D.
Proof.
  destruct (@month_entry (lower mes) mm Hmes) as (Hmm & Hw & Hne).
  assert (Hne' : mes <> []) by (intros ->; now apply Hne).
  destruct (@spelled_firma_found pre D mes Y post HD LD (@lower_word_i mes Hw)
              Hne' HY Hfirst)
    as (m & Hm & G1 & G2 & G3).
  change (convenio_fecha_firma (pre ++ spelled_signing D mes Y ++ post)
          = Y ++ dash ++ mm ++ dash ++ zfill 2 D).
  unfold convenio_fecha_firma.
  unfold firma_patterns. cbn [first_match]. rewrite Hnum, Hm.
  replace (contains (txt "de") spelled_firma_pattern) with true
    by (vm_compute; reflexivity).
  cbv iota. unfold spelled_date. rewrite G1, G2, G3, Hmm. reflexivity.
Qed.

Lemma suscripto_date_extracted_witness :
  fecha_firma
    (extract_convenio_data
       (txt "Convenio marco " ++ spelled_signing (txt "15") (txt "Marzo") (txt "2020")
        ++ txt " entre las partes."))
  = txt "2020-03-15".
Proof.
  apply (@suscripto_date_extracted (txt "Convenio marco ") (txt "15")
           (txt "Marzo") (txt "03") (txt "2020") (txt " entre las partes.")).
  - repeat constructor.
  - vm_compute. lia.
  - vm_compute. tauto.
  - split; [repeat constructor | reflexivity].
  - vm_compute. reflexivity.
  - intros m H. vm_compute in H. injection H as <-. vm_compute. lia.
Defined.

(** *** Titles at the end of the text *)

Lemma title_pattern_shape :
  compile title_pattern
  = lits (txt "convenio")
      (Seq (Rep (Cls false [CSpace]) 1 None true)
         (Seq (Grp 1 (Rep Any 1 None false))
            (Alt (Lit newline) (Lit ".")))).
Proof. vm_compute. reflexivity. Qed.

(** A match of the title pattern holds the word, in any case, and a
    newline or a period somewhere after it. *)
Lemma title_match_terminated (text : str) (m : rmatch) :
  search IGNORECASE title_pattern text = Some m ->
  exists pre w post c,
    text = pre ++ w ++ post /\ lower w = txt "convenio"
    /\ In c post /\ is_terminator c = true.
Proof.
  unfold search. rewrite title_pattern_shape. intros H.
  apply search_at_found in H.
  destruct H as (pre & suf & -> & _ & H).
  apply match_here_den in H. apply den_lits_i in H.
  destruct H as (w & mid & Hw & [Hr _] & _ & H).
  apply den_seq_inv in H. destruct H as (m1 & H1 & H).
  apply den_seq_inv in H. destruct H as (m2 & H2 & H).
  apply den_reads in H1. destruct H1 as (w1 & [Hr1 _]).
  apply den_reads in H2. destruct H2 as (w2 & [Hr2 _]).
  assert (Hc : exists c, m_rest m2 = c :: m_rest (final m)
                         /\ is_terminator c = true).
  { apply den_alt_inv in H.
    destruct H as [H|H]; apply den_lit_i in H;
      destruct H as (c & Hc & [Hr3 _] & _); exists c; (split; [exact Hr3|]);
      apply lower_char_terminator; [left | right]; exact Hc. }
  destruct Hc as (c & Hr3 & Hc).
  exists pre, w, (w1 ++ w2 ++ c :: m_rest (final m)), c.
  split; [|split; [exact Hw|split; [|exact Hc]]].
  - f_equal. simpl in Hr. rewrite Hr, Hr1, Hr2, Hr3. reflexivity.
  - apply in_or_app. right. apply in_or_app. right. now left.
Qed.

(** C10. If every occurrence of the word [convenio] is followed by text
    that reaches the end of the input without a newline or a period, the
    title is empty. *)
Theorem title_needs_terminator (text : str) (H : convenio_runs_to_end text) :
  titulo (extract_convenio_data text) = [].
Proof.
  change (convenio_titulo text = []). unfold convenio_titulo.
  destruct (search IGNORECASE title_pattern text) as [m|] eqn:E;
    [|reflexivity].
  exfalso. apply title_match_terminated in E.
  destruct E as (pre & w & post & c & Ht & Hw & Hin & Hc).
  rewrite (H pre w post Ht Hw c Hin) in Hc. discriminate.
Qed.

Lemma title_needs_terminator_witness :
  titulo (extract_convenio_data
            (txt "Convenio marco de cooperacion entre las partes"))
  = [].
Proof.
  apply (@title_needs_terminator
           (txt "Convenio marco de cooperacion entre las partes")).
  apply convenio_runs_to_endb_spec. vm_compute. reflexivity.
Defined.

(** A title at the very end of the text is dropped, the same title
    followed by a period is kept. *)
Lemma title_dropped_at_end :
  titulo (extract_convenio_data (txt "Se aprueba el convenio marco de pasantias"))
  = []
  /\ titulo (extract_convenio_data
               (txt "Se aprueba el convenio marco de pasantias."))
     = txt "marco de pasantias".
Proof. vm_compute. split; reflexivity. Qed.

(** *** The shape of the dates *)

(** C3, amended.  Each date field is empty or has the form [Y-MM-DD] with
    decimal digits only, two for the month and two for the day, four for
    the year of the resolution date and three or four for the year of the
    signing date; the numbers are not checked against the calendar. *)
Theorem dates_shaped (text url : str) :
  (res_fecha (extract_resolution_data text url) = []
   \/ iso_shaped 4 4 (res_fecha (extract_resolution_data text url)))
  /\ (fecha_firma (extract_convenio_data text) = []
      \/ iso_shaped 3 4 (fecha_firma (extract_convenio_data text))).
Proof.
  split.
  - exact (resolution_fecha_shaped text).
  - exact (fecha_firma_shaped text).
Qed.

(** A year of three digits is kept as it is. *)
Lemma three_digit_year_kept :
  fecha_firma (extract_convenio_data (txt "Convenio firmado el 1/2/202."))
  = txt "202-02-01".
Proof. vm_compute. reflexivity. Qed.

End ConvenioSpec.

(** ** Further properties of the [str] operations *)

Unset Implicit Arguments.

Module StringFacts.
Import Py Re PyFacts.

(** *** Pieces of a text *)
Lemma infix_nil (t : str) : infix [] t.
Proof. now exists [], t. Qed.

Lemma infix_app (s t pre post : str) : infix s t -> infix s (pre ++ t ++ post).
Proof.
  intros (a & b & ->). exists (pre ++ a), (b ++ post).
  now rewrite <- !app_assoc.
Qed.

Lemma infix_trans (s t u : str) : infix s t -> infix t u -> infix s u.
Proof.
  intros (a & b & ->) (a' & b' & ->). exists (a' ++ a), (b ++ b').
  now rewrite <- !app_assoc.
Qed.

Lemma Forall_infix (P : ascii -> Prop) (s t : str) :
  infix s t -> Forall P t -> Forall P s.
Proof.
  intros (a & b & ->) H. apply Forall_app in H. destruct H as [_ H].
  apply Forall_app in H. tauto.
Qed.

Lemma firstn_infix (n : nat) (s : str) : infix (firstn n s) s.
Proof. exists [], (skipn n s). simpl. now rewrite firstn_skipn. Qed.
Lemma forall_not_in (bad : ascii -> bool) (c : ascii) (s : str) :
  bad c = true -> Forall (fun x => bad x = false) s -> ~ In c s.
Proof.
  intros Hc F Hin. rewrite Forall_forall in F. specialize (F _ Hin). congruence.
Qed.

Lemma not_digit_forall (s : str) :
  Forall (fun c => Props.not_digit c = false) s -> Forall (fun c => is_digit c = true) s.
Proof.
  apply Forall_impl. intros c H. unfold Props.not_digit in H.
  now destruct (is_digit c).
Qed.
Lemma contains_false_app_l (p a b : str) :
  contains p (a ++ b) = false -> contains p a = false.
Proof.
  intros H. destruct (contains p a) eqn:E; [|reflexivity].
  apply contains_spec in E. destruct E as (x & y & ->).
  assert (C : contains p ((x ++ p ++ y) ++ b) = true).
  { apply contains_spec. exists x, (y ++ b). now rewrite <- !app_assoc. }
  congruence.
Qed.

Lemma contains_false_infix (p s t : str) :
  infix s t -> contains p t = false -> contains p s = false.
Proof.
  intros (a & b & ->) H. destruct (contains p s) eqn:E; [|reflexivity].
  apply contains_spec in E. destruct E as (x & y & ->).
  assert (C : contains p (a ++ (x ++ p ++ y) ++ b) = true).
  { apply contains_spec. exists (a ++ x), (y ++ b). now rewrite <- !app_assoc. }
  congruence.
Qed.

(** *** Stripping *)
Lemma lstrip_suffix (s : str) : exists a, s = a ++ lstrip s.
Proof.
  induction s as [|c s [a IH]]; [now exists []|]. simpl.
  destruct (is_space c); [|now exists []].
  exists (c :: a). simpl. now rewrite <- IH.
Qed.

Lemma rstrip_prefix (s : str) : exists b, s = rstrip s ++ b.
Proof.
  unfold rstrip. destruct (lstrip_suffix (rev s)) as [a H].
  exists (rev a). rewrite <- rev_app_distr, <- H. now rewrite rev_involutive.
Qed.

Lemma strip_infix (s : str) : infix (strip s) s.
Proof.
  unfold strip. destruct (lstrip_suffix s) as [a Ha].
  destruct (rstrip_prefix (lstrip s)) as [b Hb].
  exists a, b. now rewrite <- Hb.
Qed.

Lemma lstrip_head (s : str) :
  match lstrip s with
  | [] => True
  | c :: _ => is_space c = false
  end.
Proof.
  induction s as [|c s IH]; simpl; [exact I|].
  destruct (is_space c) eqn:E; [exact IH | exact E].
Qed.

Lemma lstrip_fixed (s : str) :
  match s with [] => True | c :: _ => is_space c = false end ->
  lstrip s = s.
Proof. destruct s as [|c s]; simpl; [reflexivity|]. now intros ->. Qed.

Lemma lstrip_idem (s : str) : lstrip (lstrip s) = lstrip s.
Proof. apply lstrip_fixed, lstrip_head. Qed.

Lemma rstrip_idem (s : str) : rstrip (rstrip s) = rstrip s.
Proof.
  unfold rstrip. now rewrite rev_involutive, lstrip_idem.
Qed.

Lemma rstrip_keeps_head (s : str) :
  match s with [] => True | c :: _ => is_space c = false end ->
  match rstrip s with [] => True | c :: _ => is_space c = false end.
Proof.
  destruct s as [|c s]; [intros _; exact I|]. intros Hc.
  destruct (rstrip_prefix (c :: s)) as [b Hb].
  destruct (rstrip (c :: s)) as [|d t] eqn:E; [exact I|].
  simpl in Hb. injection Hb as <- _. exact Hc.
Qed.

(** [strip] leaves a stripped string as it is. *)
Lemma strip_idem (s : str) : strip (strip s) = strip s.
Proof.
  unfold strip.
  rewrite (lstrip_fixed (rstrip (lstrip s)))
    by (apply rstrip_keeps_head, lstrip_head).
  apply rstrip_idem.
Qed.

Lemma firstn_keeps_head (n : nat) (s : str) :
  match s with [] => True | c :: _ => is_space c = false end ->
  match firstn n s with [] => True | c :: _ => is_space c = false end.
Proof. destruct n, s; simpl; auto. Qed.
Lemma strip_forall (P : ascii -> Prop) (s : str) :
  Forall P s -> Forall P (strip s).
Proof. apply Forall_infix, strip_infix. Qed.

Lemma suffix_same_length (a s t : str) :
  s = a ++ t -> length s <= length t -> a = [].
Proof.
  intros -> H. rewrite length_app in H. destruct a; [reflexivity|].
  simpl in H. lia.
Qed.

Lemma strip_fixed_parts (s : str) :
  strip s = s -> lstrip s = s /\ rstrip s = s.
Proof.
  intros H. assert (L : lstrip s = s).
  { destruct (lstrip_suffix s) as [a Ha].
    assert (E : a = []).
    { apply (suffix_same_length a s (lstrip s) Ha).
      rewrite <- H at 1. unfold strip.
      destruct (rstrip_prefix (lstrip s)) as [b Hb].
      rewrite Hb at 2. rewrite length_app. lia. }
    subst a. now rewrite Ha at 2. }
  split; [exact L|]. unfold strip in H. now rewrite L in H.
Qed.

Lemma lstrip_app (a b : str) : a <> [] -> lstrip a = a -> lstrip (a ++ b) = a ++ b.
Proof.
  intros Hne H. destruct a as [|c a]; [congruence|].
  pose proof (lstrip_head (c :: a)) as Hh. rewrite H in Hh.
  simpl. now rewrite Hh.
Qed.

Lemma rstrip_app (a b : str) : b <> [] -> rstrip b = b -> rstrip (a ++ b) = a ++ b.
Proof.
  intros Hne H. unfold rstrip in *. rewrite rev_app_distr.
  rewrite lstrip_app.
  - now rewrite <- rev_app_distr, rev_involutive.
  - intros E. apply Hne. apply (f_equal (@rev ascii)) in E.
    now rewrite rev_involutive in E.
  - apply (f_equal (@rev ascii)) in H. now rewrite rev_involutive in H.
Qed.

Lemma join_stripped (sep : str) (chunks : list str) :
  Forall (fun c => c <> [] /\ strip c = c) chunks ->
  strip (join sep chunks) = join sep chunks.
Proof.
  intros F. destruct chunks as [|c rest]; [reflexivity|].
  assert (L : lstrip (join sep (c :: rest)) = join sep (c :: rest)).
  { inversion F as [|? ? [Hne Hs] _]; subst.
    destruct rest; [apply (strip_fixed_parts c Hs)|].
    change (join sep (c :: s :: rest)) with (c ++ sep ++ join sep (s :: rest)).
    apply lstrip_app; [exact Hne | apply (strip_fixed_parts c Hs)]. }
  unfold strip. rewrite L. clear L.
  revert c F. induction rest as [|d rest IH]; intros c F.
  - inversion F as [|? ? [_ Hs] _]; subst. apply (strip_fixed_parts c Hs).
  - change (join sep (c :: d :: rest)) with (c ++ sep ++ join sep (d :: rest)).
    inversion F as [|? ? _ F']; subst. specialize (IH d F').
    assert (Hne : join sep (d :: rest) <> []).
    { inversion F' as [|? ? [Hd _] _]; subst.
      destruct rest; [exact Hd|].
      change (join sep (d :: s :: rest)) with (d ++ sep ++ join sep (s :: rest)).
      destruct d; [congruence | discriminate]. }
    rewrite !app_assoc. now apply rstrip_app.
Qed.
Lemma lstrip_keeps (a : str) (c : ascii) (t : str) :
  is_space c = false -> exists a', lstrip (a ++ c :: t) = a' ++ c :: t.
Proof.
  intros Hc. induction a as [|x a [a' IH]].
  - exists []. simpl. now rewrite Hc.
  - simpl. destruct (is_space x); [now exists a' | now exists (x :: a)].
Qed.

Lemma rstrip_keeps (u : str) (d : ascii) (b : str) :
  is_space d = false -> exists b', rstrip (u ++ d :: b) = u ++ d :: b'.
Proof.
  intros Hd. unfold rstrip.
  rewrite rev_app_distr. simpl. rewrite <- app_assoc. simpl.
  destruct (lstrip_keeps (rev b) d (rev u) Hd) as [a' H].
  rewrite H. exists (rev a'). rewrite rev_app_distr. simpl.
  now rewrite rev_involutive, <- app_assoc.
Qed.


Lemma lower_char_space (x : ascii) : is_space (lower_char x) = is_space x.
Proof. destruct x as [[] [] [] [] [] [] [] []]; reflexivity. Qed.

Lemma strip_keeps_word (w r : str) :
  w <> [] -> Forall (fun c => is_space c = false) w ->
  exists r', strip (w ++ r) = w ++ r'.
Proof.
  intros Hne F. unfold strip.
  assert (L : lstrip (w ++ r) = w ++ r).
  { destruct w as [|c w]; [congruence|]. inversion F; subst.
    simpl. now match goal with H : is_space c = false |- _ => rewrite H end. }
  rewrite L.
  destruct (exists_last Hne) as (u & d & ->).
  apply Forall_app in F. destruct F as [_ F]. inversion F; subst.
  rewrite <- app_assoc. cbn [app].
  destruct (rstrip_keeps u d r) as [b' ->]; [assumption|].
  exists b'. now rewrite <- app_assoc.
Qed.

(** *** Counting a character *)
Lemma count_app (c : ascii) (a b : str) :
  count c (a ++ b) = count c a + count c b.
Proof. induction a as [|x a IH]; simpl; [reflexivity | rewrite IH; lia]. Qed.

Lemma count_none (c : ascii) (s : str) : ~ In c s -> count c s = 0.
Proof.
  induction s as [|x s IH]; simpl; [reflexivity|]. intros H.
  destruct (Ascii.eqb_spec x c) as [->|_]; [exfalso; apply H; now left|].
  apply IH. intros Hin. apply H. now right.
Qed.

Lemma count_avoided (bad : ascii -> bool) (c : ascii) (s : str) :
  bad c = true -> Forall (fun x => bad x = false) s -> count c s = 0.
Proof. intros Hc F. apply count_none. eapply forall_not_in; eauto. Qed.

Lemma count_digits (c : ascii) (s : str) :
  is_digit c = false -> Forall (fun x => is_digit x = true) s -> count c s = 0.
Proof.
  intros Hc F. apply count_none. intros Hin.
  rewrite Forall_forall in F. specialize (F _ Hin). congruence.
Qed.

Lemma count_join (c : ascii) (sep : str) (parts : list str) :
  count c (join sep parts)
  = list_sum (map (count c) parts) + (length parts - 1) * count c sep.
Proof.
  induction parts as [|p rest IH]; [reflexivity|].
  destruct rest as [|q rest].
  - simpl. lia.
  - change (join sep (p :: q :: rest)) with (p ++ sep ++ join sep (q :: rest)).
    rewrite !count_app, IH. simpl. lia.
Qed.

(** *** Lines and pieces *)
Lemma splitlines_from_lines (n : nat) :
  forall s cur, length s <= n ->
    Forall (fun x => is_linebreak x = false) cur ->
    Forall Props.no_linebreak (splitlines_from s cur).
Proof.
  induction n as [|n IH]; intros s cur Hn Hc.
  - destruct s; [|simpl in Hn; lia]. simpl.
    destruct cur; [constructor|]. constructor; [|constructor].
    now apply Forall_rev.
  - destruct s as [|c t].
    + simpl. destruct cur; [constructor|]. constructor; [|constructor].
      now apply Forall_rev.
    + simpl in Hn. cbn [splitlines_from]. destruct (is_linebreak c) eqn:E.
      * constructor; [now apply Forall_rev|].
        destruct t as [|d t']; [apply IH; [simpl; lia | constructor]|].
        simpl in Hn.
        destruct (N.eqb (code c) 13 && N.eqb (code d) 10)%bool;
          apply IH; simpl; try lia; constructor.
      * apply IH; [lia|]. now constructor.
Qed.

Lemma splitlines_lines (s : str) : Forall Props.no_linebreak (splitlines s).
Proof. apply (splitlines_from_lines (length s)); [lia | constructor]. Qed.

Lemma splitlines_from_line (p : str) :
  Props.no_linebreak p ->
  forall rest cur,
    splitlines_from (p ++ rest) cur = splitlines_from rest (rev p ++ cur).
Proof.
  induction 1 as [|c p Hc Hp IH]; intros rest cur; [reflexivity|].
  cbn [app splitlines_from]. rewrite Hc, IH. cbn [rev].
  now rewrite <- app_assoc.
Qed.

Lemma splitlines_join (chunks : list str) :
  Forall (fun c => c <> [] /\ Props.no_linebreak c) chunks ->
  splitlines (join [newline] chunks) = chunks.
Proof.
  unfold splitlines. induction chunks as [|c rest IH]; intros F; [reflexivity|].
  inversion F as [|? ? [Hne Hc] F']; subst.
  destruct rest as [|d rest].
  - cbn [join]. rewrite <- (app_nil_r c) at 1.
    rewrite splitlines_from_line by exact Hc. cbn [splitlines_from].
    rewrite app_nil_r.
    destruct (rev c) eqn:E.
    + exfalso. apply Hne. apply (f_equal (@rev ascii)) in E.
      now rewrite rev_involutive in E.
    + now rewrite <- E, rev_involutive.
  - change (join [newline] (c :: d :: rest))
      with (c ++ [newline] ++ join [newline] (d :: rest)).
    rewrite splitlines_from_line by exact Hc. rewrite app_nil_r.
    cbn [app splitlines_from]. change (is_linebreak newline) with true.
    cbv iota. rewrite rev_involutive. f_equal.
    specialize (IH F').
    destruct (join [newline] (d :: rest)) as [|x t] eqn:E; [exact IH|].
    change (N.eqb (code newline) 13) with false. cbn [andb]. exact IH.
Qed.

Lemma split_from_forall (P : ascii -> Prop) (sep : str) :
  forall s cur skip, Forall P cur -> Forall P s ->
    Forall (Forall P) (split_from sep s cur skip).
Proof.
  induction s as [|c t IH]; intros cur skip Hc Hs.
  - simpl. constructor; [now apply Forall_rev | constructor].
  - inversion Hs as [|? ? Pc Pt]; subst. cbn [split_from].
    destruct skip as [|k]; [|now apply IH].
    destruct (starts_with sep (c :: t)).
    + constructor; [now apply Forall_rev|]. apply IH; [constructor | exact Pt].
    + apply IH; [now constructor | exact Pt].
Qed.

Lemma double_space_snoc (a : str) (c d : ascii) :
  contains [Props.sp; Props.sp] (a ++ [c]) = false ->
  (c = Props.sp -> d <> Props.sp) ->
  contains [Props.sp; Props.sp] (a ++ [c; d]) = false.
Proof.
  intros H Hcd. induction a as [|x a IH].
  - cbn [app contains starts_with].
    destruct (Ascii.eqb_spec Props.sp c) as [<-|], (Ascii.eqb_spec Props.sp d) as [<-|];
      cbn [andb orb]; try reflexivity.
    exfalso. now apply Hcd.
  - cbn [app contains] in H |- *. apply orb_false_iff in H.
    destruct H as [H1 H2]. rewrite (IH H2), orb_false_r.
    destruct a as [|y a].
    + cbn [app starts_with] in *.
      destruct (Ascii.eqb Props.sp x); [|reflexivity].
      cbn [andb] in *. destruct (Ascii.eqb Props.sp c); [discriminate | reflexivity].
    + cbn [app starts_with] in *. exact H1.
Qed.

Lemma double_space_single (d : ascii) : contains [Props.sp; Props.sp] [d] = false.
Proof. cbn [contains starts_with]. now rewrite andb_false_r. Qed.

Lemma split_from_no_double_space :
  forall s cur skip,
    (skip = 0 -> contains [Props.sp; Props.sp] (rev cur ++ firstn 1 s) = false) ->
    (skip <> 0 -> cur = [] /\ skip = 1) ->
    Forall (fun p => contains [Props.sp; Props.sp] p = false)
      (split_from [Props.sp; Props.sp] s cur skip).
Proof.
  induction s as [|c t IH]; intros cur skip H0 H1.
  - simpl. constructor; [|constructor].
    destruct skip as [|k].
    + specialize (H0 eq_refl). simpl in H0. now rewrite app_nil_r in H0.
    + destruct (H1 ltac:(discriminate)) as [-> _]. reflexivity.
  - cbn [split_from]. destruct skip as [|k].
    + specialize (H0 eq_refl). cbn [firstn] in H0.
      destruct (starts_with [Props.sp; Props.sp] (c :: t)) eqn:E.
      * constructor; [eapply contains_false_app_l; eauto|].
        apply IH; [discriminate | intros _; split; reflexivity].
      * apply IH; [intros _ | intros []; reflexivity].
        cbn [rev]. rewrite <- app_assoc. cbn [app].
        destruct t as [|d t']; [exact H0|].
        cbn [firstn]. apply double_space_snoc; [exact H0|].
        intros -> ->. discriminate E.
    + destruct (H1 ltac:(discriminate)) as [-> Hk]. injection Hk as ->.
      apply IH; [intros _ | intros []; reflexivity].
      destruct t as [|d t']; [reflexivity | apply double_space_single].
Qed.

Lemma split_no_double_space (s : str) :
  Forall (fun p => contains (txt "  ") p = false) (split (txt "  ") s).
Proof.
  apply split_from_no_double_space; [intros _ | intros []; reflexivity].
  destruct s as [|c t]; [reflexivity | apply double_space_single].
Qed.

Lemma split_from_whole :
  forall s cur,
    contains [Props.sp; Props.sp] (rev cur ++ s) = false ->
    split_from [Props.sp; Props.sp] s cur 0 = [rev cur ++ s].
Proof.
  induction s as [|c t IH]; intros cur H.
  - simpl. now rewrite app_nil_r.
  - cbn [split_from].
    destruct (starts_with [Props.sp; Props.sp] (c :: t)) eqn:E.
    + exfalso. apply starts_with_spec in E. destruct E as [b E].
      assert (C : contains [Props.sp; Props.sp] (rev cur ++ c :: t) = true).
      { apply contains_spec. exists (rev cur), b. now rewrite E. }
      congruence.
    + rewrite IH; cbn [rev]; rewrite <- app_assoc; [reflexivity | exact H].
Qed.

End StringFacts.

(** ** What the groups of a match hold *)

Module GroupFacts.
Import Py Re PyFacts ReFacts StringFacts.

Section Groups.
Variable fl : flags.

Lemma captured_by_weaken (r r' : regex) (st st0 : mstate) (w : str) n s :
  incl (groups_of r) (groups_of r') -> m_rest st0 = w ++ m_rest st ->
  captured_by fl r st n s -> captured_by fl r' st0 n s.
Proof.
  intros Hi Hr (a & x & y & pre & Hin & Hd & Hs & Hp).
  exists a, x, y, (w ++ pre). repeat split; auto; try apply Hs.
  rewrite Hr, Hp, app_assoc. reflexivity.
Qed.

Lemma iter_groups (a : regex) (r : regex) :
  incl (groups_of a) (groups_of r) ->
  (forall st st', den fl a st st' ->
     forall n s, In (n, s) (m_caps st') ->
       In (n, s) (m_caps st) \/ captured_by fl a st n s) ->
  forall k st st', iter (den fl a) k st st' ->
    forall n s, In (n, s) (m_caps st') ->
      In (n, s) (m_caps st) \/ captured_by fl r st n s.
Proof.
  intros Hi Ha. induction k as [|k IH]; intros st st' H n s Hin; simpl in H.
  - subst. now left.
  - destruct H as (mid & H1 & H2).
    destruct (IH _ _ H2 n s Hin) as [Hmid|Hc].
    + destruct (Ha _ _ H1 n s Hmid) as [Hst|Hc]; [now left|right].
      apply (@captured_by_weaken a r st st [] n s); auto.
    + right. apply den_reads in H1. destruct H1 as (w & Hr & _).
      destruct Hc as (b & x & y & pre & Hb & Hd & Hs & Hp).
      exists b, x, y, (w ++ pre). repeat split; auto; try apply Hs.
      rewrite Hr, Hp, app_assoc. reflexivity.
Qed.

Lemma den_groups (r : regex) :
  forall st st', den fl r st st' ->
    forall n s, In (n, s) (m_caps st') ->
      In (n, s) (m_caps st) \/ captured_by fl r st n s.
Proof.
  induction r as [| c | | neg items | | a IHa b IHb | a IHa b IHb
                 | a IHa lo hi g | n0 a IHa]; intros st st' H n s Hin.
  - simpl in H. subst. now left.
  - apply steps_reads in H. destruct H as (c' & _ & _ & Hc). left. congruence.
  - apply steps_reads in H. destruct H as (c' & _ & _ & Hc). left. congruence.
  - apply steps_reads in H. destruct H as (c' & _ & _ & Hc). left. congruence.
  - destruct H as [_ ->]. now left.
  - apply den_seq_inv in H. destruct H as (mid & H1 & H2).
    destruct (IHb _ _ H2 n s Hin) as [Hmid|Hc].
    + destruct (IHa _ _ H1 n s Hmid) as [Hst|Hc]; [now left|right].
      apply (@captured_by_weaken a (Seq a b) st st [] n s); auto.
      simpl. apply incl_appl, incl_refl.
    + right. apply den_reads in H1. destruct H1 as (w & Hr & _).
      apply (@captured_by_weaken b (Seq a b) mid st w n s); auto.
      simpl. apply incl_appr, incl_refl.
  - apply den_alt_inv in H. destruct H as [H|H].
    + destruct (IHa _ _ H n s Hin) as [Hst|Hc]; [now left|right].
      apply (@captured_by_weaken a (Alt a b) st st [] n s); auto.
      simpl. apply incl_appl, incl_refl.
    + destruct (IHb _ _ H n s Hin) as [Hst|Hc]; [now left|right].
      apply (@captured_by_weaken b (Alt a b) st st [] n s); auto.
      simpl. apply incl_appr, incl_refl.
  - destruct H as (k & _ & _ & H).
    apply (@iter_groups a (Rep a lo hi g) (incl_refl _) IHa k st st' H n s Hin).
  - destruct H as (mid & H & ->). simpl in Hin. destruct Hin as [Heq|Hin].
    + injection Heq as <- <-. right.
      pose proof H as Hr. apply den_reads in Hr. destruct Hr as (w & Hr).
      exists a, st, mid, []. rewrite (span_reads Hr).
      repeat split; simpl; auto; apply Hr.
    + destruct (IHa _ _ H n s Hin) as [Hst|Hc]; [now left|right].
      apply (@captured_by_weaken a (Grp n0 a) st st [] n s); auto.
      simpl. apply incl_tl, incl_refl.
Qed.

Lemma assoc_in (n : nat) (l : list (nat * str)) (s : str) :
  assoc n l = Some s -> In (n, s) l.
Proof.
  induction l as [|[k v] l IH]; simpl; [discriminate|].
  destruct (Nat.eqb_spec k n) as [->|]; [intros [= ->]; now left|].
  intros H. right. auto.
Qed.

(** A group of a match read from [suf] is empty or was read by the body of
    a group of the pattern, inside [suf]. *)
Lemma match_here_group (r : regex) pv (suf : str) pos (m : rmatch) (n : nat) :
  match_here fl r pv suf pos = Some m ->
  group m n = [] \/ captured_by fl r (init pv suf pos) n (group m n).
Proof.
  intros H. apply match_here_den in H. unfold group.
  destruct (assoc n (m_caps (final m))) as [s|] eqn:E; [|now left].
  apply assoc_in in E. destruct (den_groups _ _ _ H n s E) as [[]|Hc].
  now right.
Qed.

Lemma captured_infix (r : regex) (st : mstate) n s :
  captured_by fl r st n s -> infix s (m_rest st).
Proof.
  intros (a & x & y & pre & _ & _ & [Hs _] & Hp).
  exists pre, (m_rest y). now rewrite Hp, Hs.
Qed.

(** The matches of [finditer] are matches found somewhere in the text. *)
Lemma finditer_at_found (r : regex) :
  forall fuel prev rest pos m,
    In m (finditer_at fuel fl r prev rest pos) ->
    exists pre suf pv, rest = pre ++ suf
      /\ match_here fl r pv suf (start m) = Some m.
Proof.
  induction fuel as [|fuel IH]; intros prev rest pos m Hin; [destruct Hin|].
  cbn [finditer_at] in Hin.
  destruct (search_at fl r prev rest pos) as [m0|] eqn:E; [|destruct Hin].
  pose proof E as E'. apply search_at_found in E'.
  destruct E' as (pre & suf & Hrest & Hs & Hm).
  destruct Hin as [<-|Hin].
  - exists pre, suf, (last (map Some pre) prev). auto.
  - pose proof Hm as Hd. apply match_here_den in Hd. apply den_reads in Hd.
    destruct Hd as (w & Hr & _). cbn [m_rest init] in Hr.
    destruct (m_pos (final m0) =? start m0).
    + destruct (m_rest (final m0)) as [|c t] eqn:Et; [destruct Hin|].
      apply IH in Hin. destruct Hin as (pre2 & suf2 & pv & Ht & Hm2).
      exists (pre ++ w ++ c :: pre2), suf2, pv. split; [|exact Hm2].
      rewrite Hrest, Hr, Ht, <- !app_assoc. reflexivity.
    + apply IH in Hin. destruct Hin as (pre2 & suf2 & pv & Ht & Hm2).
      exists (pre ++ w ++ pre2), suf2, pv. split; [|exact Hm2].
      rewrite Hrest, Hr, Ht, <- !app_assoc. reflexivity.
Qed.

End Groups.

Lemma search_found fl (p text : str) (m : rmatch) :
  search fl p text = Some m ->
  exists pre suf pv, text = pre ++ suf
    /\ match_here fl (compile p) pv suf (start m) = Some m.
Proof.
  unfold search. intros H. apply search_at_found in H.
  destruct H as (pre & suf & Ht & _ & H). eauto.
Qed.

Lemma finditer_found fl (p text : str) (m : rmatch) :
  In m (finditer fl p text) ->
  exists pre suf pv, text = pre ++ suf
    /\ match_here fl (compile p) pv suf (start m) = Some m.
Proof. unfold finditer. apply finditer_at_found. Qed.

(** Every group of a match is a piece of the text. *)
Lemma match_group_infix fl (r : regex) pv (pre suf : str) pos m n :
  match_here fl r pv suf pos = Some m -> infix (group m n) (pre ++ suf).
Proof.
  intros H. destruct (@match_here_group fl r pv suf pos m n H) as [->|Hc].
  - apply infix_nil.
  - apply captured_infix in Hc. cbn [m_rest init] in Hc.
    destruct Hc as (a & b & ->). exists (pre ++ a), b.
    now rewrite <- !app_assoc.
Qed.

Lemma in_all_chars (c : ascii) : In c all_chars.
Proof.
  unfold all_chars. rewrite <- (ascii_nat_embedding c).
  apply in_map, in_seq. pose proof (nat_ascii_bounded c). lia.
Qed.

Lemma refuses_spec (ok bad : ascii -> bool) (c : ascii) :
  refuses ok bad = true -> ok c = true -> bad c = false.
Proof.
  unfold refuses. rewrite forallb_forall. intros H Hok.
  specialize (H c (in_all_chars c)). rewrite Hok in H.
  now destruct (bad c).
Qed.

Lemma reads_unique (w w' : str) (st st' : mstate) :
  reads w st st' -> reads w' st st' -> w = w'.
Proof.
  intros [H1 _] [H2 _]. rewrite H1 in H2. now apply app_inv_tail in H2.
Qed.

Section Avoids.
Variable fl : flags.
Variable bad : ascii -> bool.

Lemma steps_avoids (ok : ascii -> bool) (st st' : mstate) :
  refuses ok bad = true -> steps ok st st' ->
  exists w, reads w st st' /\ Forall (fun c => bad c = false) w.
Proof.
  intros Hr H. apply steps_reads in H. destruct H as (c & Hc & H & _).
  exists [c]. split; [exact H|]. constructor; [|constructor].
  eapply refuses_spec; eauto.
Qed.

Lemma den_avoids_ex (r : regex) :
  avoids fl bad r = true ->
  forall st st', den fl r st st' ->
    exists w, reads w st st' /\ Forall (fun c => bad c = false) w.
Proof.
  induction r as [| c | | neg items | | a IHa b IHb | a IHa b IHb
                 | a IHa lo hi g | n0 a IHa]; intros Ha st st' H; simpl in Ha.
  - simpl in H. subst. exists []. split; [apply reads_refl | constructor].
  - eapply steps_avoids; eauto.
  - eapply steps_avoids; eauto.
  - eapply steps_avoids; eauto.
  - destruct H as [_ ->]. exists []. split; [apply reads_refl | constructor].
  - apply andb_true_iff in Ha. destruct Ha as [Ha Hb].
    apply den_seq_inv in H. destruct H as (mid & H1 & H2).
    destruct (IHa Ha _ _ H1) as (w1 & R1 & F1).
    destruct (IHb Hb _ _ H2) as (w2 & R2 & F2).
    exists (w1 ++ w2). split; [eapply reads_trans; eauto|].
    apply Forall_app. auto.
  - apply andb_true_iff in Ha. destruct Ha as [Ha Hb].
    apply den_alt_inv in H. destruct H as [H|H]; auto.
  - destruct H as (k & _ & _ & H). revert st st' H.
    induction k as [|k IHk]; intros st st' H; simpl in H.
    + subst. exists []. split; [apply reads_refl | constructor].
    + destruct H as (mid & H1 & H2).
      destruct (IHa Ha _ _ H1) as (w1 & R1 & F1).
      destruct (IHk _ _ H2) as (w2 & R2 & F2).
      exists (w1 ++ w2). split; [eapply reads_trans; eauto|].
      apply Forall_app. auto.
  - destruct H as (mid & H & ->).
    destruct (IHa Ha _ _ H) as (w & [R1 R2] & F).
    exists w. split; [split; assumption | exact F].
Qed.

Lemma den_avoids (r : regex) (w : str) (st st' : mstate) :
  avoids fl bad r = true -> den fl r st st' -> reads w st st' ->
  Forall (fun c => bad c = false) w.
Proof.
  intros Ha H Hr. destruct (@den_avoids_ex r Ha st st' H) as (w' & Hr' & F).
  now rewrite (@reads_unique w w' st st' Hr Hr').
Qed.

(** When the bodies of the groups numbered [n] avoid the characters of
    [bad], so does the group [n] of a match. *)
Lemma match_group_avoids (r : regex) pv (suf : str) pos (m : rmatch) (n : nat) :
  forallb (fun g => negb (fst g =? n) || avoids fl bad (snd g)) (groups_of r)
    = true ->
  match_here fl r pv suf pos = Some m ->
  Forall (fun c => bad c = false) (group m n).
Proof.
  intros Hg H. destruct (@match_here_group fl r pv suf pos m n H) as [->|Hc].
  - constructor.
  - destruct Hc as (a & x & y & pre & Hin & Hd & Hs & _).
    rewrite forallb_forall in Hg. specialize (Hg _ Hin). simpl in Hg.
    rewrite Nat.eqb_refl in Hg. simpl in Hg.
    eapply den_avoids; eauto.
Qed.

End Avoids.

Lemma match_group_bounded fl (r : regex) pv (suf : str) pos (m : rmatch)
    (n lo : nat) (hi : option nat) :
  forallb (fun g => negb (fst g =? n) || is_rep_bounded lo hi (snd g))
    (groups_of r) = true ->
  match_here fl r pv suf pos = Some m ->
  group m n = []
  \/ (lo <= length (group m n) /\ within (length (group m n)) hi).
Proof.
  intros Hg H. destruct (@match_here_group fl r pv suf pos m n H) as [->|Hc];
    [now left | right].
  destruct Hc as (a & x & y & pre & Hin & Hd & Hs & _).
  rewrite forallb_forall in Hg. specialize (Hg _ Hin). simpl in Hg.
  rewrite Nat.eqb_refl in Hg. simpl in Hg.
  destruct a as [| | | | | | | a lo' hi' g |]; try discriminate.
  destruct a; try discriminate.
  apply andb_true_iff in Hg. destruct Hg as [Hlo Hhi].
  apply Nat.eqb_eq in Hlo. subst lo'.
  apply den_rep_cls in Hd. destruct Hd as (w & Hr & _ & _ & Hl & Hh).
  rewrite (@reads_unique (group m n) w x y Hs Hr).
  split; [exact Hl|].
  destruct hi as [h|], hi' as [h'|]; try discriminate; [|exact I].
  apply Nat.eqb_eq in Hhi. now subst.
Qed.

Lemma grp_lits_prefix (kw : str) (tail : regex) pv (suf : str) pos m :
  match_here IGNORECASE (Grp 1 (lits kw tail)) pv suf pos = Some m ->
  exists w r, group m 1 = w ++ r /\ lower w = lower kw.
Proof.
  intros H. apply match_here_den in H. destruct H as (mid & H & E).
  unfold group. rewrite E. cbn [m_caps set_group assoc Nat.eqb].
  pose proof H as Hr. apply den_reads in Hr. destruct Hr as (w0 & Hr).
  rewrite (span_reads Hr).
  apply den_lits_i in H. destruct H as (w & mid' & Hw & Hr1 & _ & Ht).
  apply den_reads in Ht. destruct Ht as (w2 & Hr2).
  exists w, w2. split; [|exact Hw].
  apply (reads_unique w0 (w ++ w2) (init pv suf pos) mid Hr).
  eapply reads_trans; eauto.
Qed.

Lemma keyword_prefix (kw : str) (tail : regex) pv (suf : str) pos m :
  kw <> [] -> forallb (fun c => negb (is_space c)) (lower kw) = true ->
  match_here IGNORECASE (Grp 1 (lits kw tail)) pv suf pos = Some m ->
  starts_with (lower kw) (lower (strip (group m 1))) = true.
Proof.
  intros Hne Hk H. apply grp_lits_prefix in H.
  destruct H as (w & r & -> & Hw).
  assert (F : Forall (fun c => is_space c = false) w).
  { rewrite forallb_forall in Hk. apply Forall_forall. intros c Hc.
    rewrite <- lower_char_space. apply negb_true_iff, Hk.
    rewrite <- Hw. now apply in_map. }
  assert (Hw' : w <> []).
  { intros ->. destruct kw; [congruence | discriminate]. }
  destruct (strip_keeps_word w r Hw' F) as [r' ->].
  apply starts_with_spec. exists (lower r').
  unfold lower in *. now rewrite map_app, Hw.
Qed.

End GroupFacts.

(** ** The fields of a record *)

Module FieldFacts.
Import Py Re Extractor Props PyFacts ReFacts ExtractorFacts.
Import StringFacts GroupFacts.

(** *** Matches and their groups *)

(** A match of [matches_in_order] is a match of one of the patterns,
    found somewhere in the text. *)
Lemma matches_in_order_found fl (ps : list str) (text : str) (m : rmatch) :
  In m (matches_in_order fl ps text) ->
  exists p pre suf pv, In p ps /\ text = pre ++ suf
    /\ match_here fl (compile p) pv suf (start m) = Some m.
Proof.
  unfold matches_in_order. rewrite in_flat_map. intros (p & Hp & Hm).
  apply finditer_found in Hm. destruct Hm as (pre & suf & pv & Ht & Hm).
  exists p, pre, suf, pv. auto.
Qed.

(** The groups of a search or of a first match, with the checks run on
    the parsed pattern. *)
Ltac group_facts H :=
  let pre := fresh "pre" in let suf := fresh "suf" in
  let pv := fresh "pv" in let Ht := fresh "Ht" in
  apply search_found in H; destruct H as (pre & suf & pv & Ht & H).

Lemma search_group_infix fl (p text : str) (m : rmatch) (n : nat) :
  search fl p text = Some m -> infix (group m n) text.
Proof.
  intros H. group_facts H. subst text.
  eapply match_group_infix; eauto.
Qed.

Lemma first_match_group_infix fl (ps : list str) (text p : str) (m : rmatch)
    (n : nat) :
  first_match fl ps text = Some (p, m) -> infix (group m n) text.
Proof.
  intros H. apply first_match_found in H. destruct H as [_ H].
  eapply search_group_infix; eauto.
Qed.

(** *** The resolution *)

(** The digits of the fields of a resolution. *)
Lemma resolution_fields (text url : str) :
  let r := extract_resolution_data text url in
  (res_numero r = [] \/
   (Forall (fun c => is_digit c = true) (res_numero r)
    /\ 3 <= length (res_numero r) <= 4))
  /\ (res_expediente_numero r = [] \/
      Forall (fun c => is_digit c = true) (res_expediente_numero r))
  /\ (res_expediente_anio r = [] \/
      (Forall (fun c => is_digit c = true) (res_expediente_anio r)
       /\ 3 <= length (res_expediente_anio r) <= 4)).
Proof.
  cbv zeta. unfold extract_resolution_data.
  cbn [res_numero res_expediente_numero res_expediente_anio].
  assert (Hurl : forall m, search no_flags url_pattern url = Some m ->
            (Forall (fun c => is_digit c = true) (group m 1)
             /\ (group m 1 = [] \/ length (group m 1) = 4))
            /\ Forall (fun c => is_digit c = true) (group m 2)
            /\ (group m 2 = [] \/ 3 <= length (group m 2) <= 4)).
  { intros m H. group_facts H.
    repeat split.
    - apply not_digit_forall.
      eapply (match_group_avoids no_flags not_digit); [|exact H].
      vm_compute. reflexivity.
    - destruct (match_group_bounded no_flags (compile url_pattern) pv suf (start m) m 1 4 (Some 4)
                  ltac:(vm_compute; reflexivity) H) as [E|[L1 L2]];
        [now left | right]. simpl in L2. lia.
    - apply not_digit_forall.
      eapply (match_group_avoids no_flags not_digit); [|exact H].
      vm_compute. reflexivity.
    - destruct (match_group_bounded no_flags (compile url_pattern) pv suf (start m) m 2 3 (Some 4)
                  ltac:(vm_compute; reflexivity) H) as [E|[L1 L2]];
        [now left | right]. simpl in L2. lia. }
  assert (Hexp : forall m,
            search IGNORECASE expediente_pattern text = Some m ->
            Forall (fun c => is_digit c = true) (group m 1)
            /\ Forall (fun c => is_digit c = true) (group m 2)
            /\ (group m 2 = [] \/ 2 <= length (group m 2) <= 4)).
  { intros m H. group_facts H.
    repeat split.
    - apply not_digit_forall.
      eapply (match_group_avoids IGNORECASE not_digit); [|exact H].
      vm_compute. reflexivity.
    - apply not_digit_forall.
      eapply (match_group_avoids IGNORECASE not_digit); [|exact H].
      vm_compute. reflexivity.
    - destruct (match_group_bounded IGNORECASE (compile expediente_pattern) pv suf (start m) m 2 2 (Some 4)
                  ltac:(vm_compute; reflexivity) H) as [E|[L1 L2]];
        [now left | right]. simpl in L2. lia. }
  split; [|split].
  - destruct (search no_flags url_pattern url) as [m|] eqn:E; [|now left].
    destruct (Hurl m eq_refl) as (_ & F & [->|L]); [now left | right; auto].
  - destruct (search IGNORECASE expediente_pattern text) as [m|];
      [|now left].
    right. apply (Hexp m eq_refl).
  - destruct (search IGNORECASE expediente_pattern text) as [m|].
    + destruct (Hexp m eq_refl) as (_ & F & [E|L]).
      * left. rewrite E. reflexivity.
      * right. now apply pivot_year_digits.
    + destruct (search no_flags url_pattern url) as [m|]; [|now left].
      destruct (Hurl m eq_refl) as ((F & [E|L]) & _); [now left | right].
      split; [exact F | lia].
Qed.

(** A date holds digits and dashes. *)
Lemma count_iso (c : ascii) (lo hi : nat) (s : str) :
  is_digit c = false -> c <> "-"%char -> iso_shaped lo hi s -> count c s = 0.
Proof.
  intros Hc Hd (y & mo & d & -> & Fy & _ & [Fm _] & [Fd _]).
  rewrite !count_app, (count_digits c y), (count_digits c mo),
    (count_digits c d) by assumption.
  assert (E : count c dash = 0).
  { apply count_none. intros [H|[]]. now subst c. }
  rewrite !E. reflexivity.
Qed.

(** No field of a resolution before the link holds a bar. *)
Lemma resolucion_head_bars (text url : str) :
  let r := extract_resolution_data text url in
  count "|" (res_numero r) = 0 /\ count "|" (res_fecha r) = 0
  /\ count "|" (res_tipo r) = 0 /\ count "|" (res_expediente_numero r) = 0
  /\ count "|" (res_expediente_anio r) = 0
  /\ count "|" (res_dependencia_id r) = 0.
Proof.
  cbv zeta.
  destruct (resolution_fields text url) as (Hn & He & Ha).
  repeat split.
  - destruct Hn as [->|[F _]]; [reflexivity | now apply count_digits].
  - change (res_fecha (extract_resolution_data text url))
      with (resolution_fecha text).
    destruct (resolution_fecha_shaped text) as [->|H]; [reflexivity|].
    eapply count_iso; eauto; discriminate.
  - destruct He as [->|F]; [reflexivity | now apply count_digits].
  - destruct Ha as [->|[F _]]; [reflexivity | now apply count_digits].
Qed.

(** *** Keys hidden by an earlier key *)

(** The key that [lookup_substring] answers with is the first key of
    the table that the text contains. *)
Lemma lookup_substring_first (d : table) (s default : str) :
  lookup_substring d s default = default
  \/ exists i k,
       nth_error d i = Some (k, lookup_substring d s default)
       /\ contains k s = true
       /\ forall j k' v', j < i -> nth_error d j = Some (k', v') ->
            contains k' s = false.
Proof.
  induction d as [|[k0 v0] d IH]; [now left|].
  cbn [lookup_substring]. destruct (contains k0 s) eqn:E.
  - right. exists 0, k0. repeat split; auto. intros j k' v' Hj. lia.
  - destruct IH as [IH|(i & k & Hn & Hc & He)]; [now left | right].
    exists (S i), k. repeat split; auto.
    intros [|j] k' v' Hj Hj'.
    + injection Hj' as <- <-. exact E.
    + apply (He j k' v'); [lia | exact Hj'].
Qed.

(** A key of [cargos] that contains an earlier key is never the first
    one found: six posts are left. *)
Lemma cargo_of_reachable (context : str) :
  In (cargo_of context) reachable_cargos.
Proof.
  unfold cargo_of.
  destruct (lookup_substring_first cargos (lower context) (txt "Rector/a"))
    as [->|(i & k & Hn & Hc & He)]; [now left|].
  revert Hn. generalize (lookup_substring cargos (lower context) (txt "Rector/a")).
  intros v Hn.
  assert (Hshadow : forall j k1 v1,
            j < i -> nth_error cargos j = Some (k1, v1) ->
            contains k1 k = true -> False).
  { intros j k1 v1 Hj Hn1 Hk.
    pose proof (He j k1 v1 Hj Hn1) as Hf.
    rewrite (@contains_trans k1 k (lower context) Hk Hc) in Hf. discriminate. }
  do 20 (destruct i as [|i];
    [vm_compute in Hn; injection Hn as <- <-;
     first [ solve [vm_compute; repeat (first [left; reflexivity | right])]
           | exfalso; apply (Hshadow 0 (txt "rector") (txt "Rector/a"));
             [lia | reflexivity | reflexivity]
           | exfalso; apply (Hshadow 8 (txt "decano") (txt "Decano/a"));
             [lia | reflexivity | reflexivity]
           | exfalso; apply (Hshadow 9 (txt "decana") (txt "Decano/a"));
             [lia | reflexivity | reflexivity] ]|]).
  destruct i; discriminate Hn.
Qed.

(** A key made of an earlier key, a space and more words is found as a
    word only where the earlier key is. *)
Lemma shadowed_word (k1 rest : str) (text : str) :
  k1 <> [] -> Forall (fun x => is_word x = true) k1 ->
  compile (word_pattern k1) = word_re k1 ->
  compile (word_pattern (k1 ++ " "%char :: rest))
    = word_re (k1 ++ " "%char :: rest) ->
  search IGNORECASE (word_pattern k1) text = None ->
  search IGNORECASE (word_pattern (k1 ++ " "%char :: rest)) text = None.
Proof.
  intros Hne Hw S1 S2 H1.
  destruct (search IGNORECASE (word_pattern (k1 ++ " "%char :: rest)) text)
    as [m|] eqn:E; [|reflexivity].
  unfold search in E, H1. rewrite S1 in H1. rewrite S2 in E.
  apply word_prefix_found in E; auto.
  destruct E as [m' E]. congruence.
Qed.

Ltac shadowed_by He j k1 v1 rest :=
  apply (shadowed_word k1 rest);
  [ discriminate
  | repeat (constructor; [reflexivity|]); constructor
  | vm_compute; reflexivity
  | vm_compute; reflexivity
  | apply (He j k1 v1); [lia | reflexivity] ].

(** [lookup_word] answers with a value of the table. *)
Lemma lookup_word_in (d : table) (text v : str) :
  lookup_word d text = Some v -> In v (map snd d).
Proof.
  induction d as [|[k0 v0] d IH]; [discriminate|]. cbn [lookup_word].
  destruct (search IGNORECASE (txt "\b" ++ escape k0 ++ txt "\b") text).
  - intros [= <-]. now left.
  - intros H. right. auto.
Qed.

(** *** Names *)

(** The name of an institution starts with the word of its pattern. *)
Ltac keyword_case Hm kw :=
  match type of Hm with
  | match_here _ (compile ?p) _ _ _ = _ =>
      let r := eval vm_compute in (compile p) in
      change (compile p) with r in Hm
  end;
  exists (lower kw); split;
  [ vm_compute; repeat (first [left; reflexivity | right])
  | eapply (keyword_prefix kw); [discriminate | reflexivity | exact Hm] ].


Lemma cls_capital (c : ascii) :
  cls_ok no_flags false capitals c = is_capital c.
Proof. destruct c as [[] [] [] [] [] [] [] []]; reflexivity. Qed.

Lemma cls_small (c : ascii) : cls_ok no_flags false smalls c = is_small c.
Proof. destruct c as [[] [] [] [] [] [] [] []]; reflexivity. Qed.

(** A capital letter and small letters, as the name patterns read
    them. *)
Lemma den_capitalised (tail : regex) (s : str) (x y : mstate) :
  den no_flags
    (Seq (Cls false capitals)
       (Seq (Rep (Cls false smalls) 1 None true) tail)) x y ->
  reads s x y ->
  exists c w r,
    s = c :: w ++ r /\ is_capital c = true
    /\ Forall (fun d => is_small d = true) w /\ 1 <= length w
    /\ exists mid, reads r mid y /\ den no_flags tail mid y.
Proof.
  intros H Hs. apply den_seq_inv in H. destruct H as (m1 & H1 & H).
  apply den_seq_inv in H. destruct H as (m2 & H2 & H3).
  apply steps_reads in H1. destruct H1 as (c & Hc & R1 & _).
  apply den_rep_cls in H2. destruct H2 as (w & R2 & _ & F & Hlo & _).
  pose proof H3 as R3. apply den_reads in R3. destruct R3 as (r & R3).
  exists c, w, r. split; [|split; [|split; [|split]]].
  - apply (reads_unique s ([c] ++ w ++ r) x y Hs).
    eapply reads_trans; [exact R1|]. eapply reads_trans; eauto.
  - now rewrite <- cls_capital.
  - eapply Forall_impl; [|exact F]. intros d Hd. now rewrite <- cls_small.
  - exact Hlo.
  - exists m2. split; assumption.
Qed.

Lemma den_capitalised_word (s : str) (x y : mstate) :
  den no_flags capitalised_word x y -> reads s x y ->
  exists c w,
    s = c :: w /\ is_capital c = true
    /\ Forall (fun d => is_small d = true) w /\ 1 <= length w.
Proof.
  intros H Hs.
  assert (H' : den no_flags
                 (Seq (Cls false capitals)
                    (Seq (Rep (Cls false smalls) 1 None true) Eps)) x y).
  { apply den_seq_inv in H. destruct H as (m1 & H1 & H2).
    exists m1. split; [exact H1|]. exists y. split; [exact H2 | reflexivity]. }
  destruct (den_capitalised Eps s x y H' Hs)
    as (c & w & r & -> & Hc & F & Hl & mid & [Hr _] & Hd).
  simpl in Hd. subst mid.
  assert (r = []).
  { rewrite <- (app_nil_l (m_rest y)) in Hr at 1.
    apply app_inv_tail in Hr. now symmetry. }
  subst r. rewrite app_nil_r. exists c, w. auto.
Qed.

(** What the loop of [extract_signers] keeps. *)
Lemma signer_fields (text : str) :
  Forall (fun s =>
            sig_dni s = []
            /\ 2 < length (sig_nombre s) /\ 2 < length (sig_apellido s)
            /\ infix (sig_nombre s) text /\ infix (sig_apellido s) text
            /\ Forall (fun c => is_word c = true) (sig_nombre s)
            /\ Forall (fun c => (is_word c || is_space c)%bool = true)
                 (sig_apellido s)
            /\ In (sig_cargo s) reachable_cargos)
    (extract_signers text).
Proof.
  apply Forall_forall. intros s Hin.
  destruct (@order_built _ _ _ _ _ _ _ s (signers_in_order text) Hin)
    as (m & Hm & Hok & ->).
  cbn [sig_dni sig_nombre sig_apellido sig_cargo make_signer].
  unfold signer_ok in Hok. apply andb_true_iff in Hok. destruct Hok as [L1 L2].
  apply Nat.ltb_lt in L1. apply Nat.ltb_lt in L2.
  apply matches_in_order_found in Hm.
  destruct Hm as (p & pre & suf & pv & Hp & -> & Hm).
  split; [reflexivity|]. split; [exact L1|]. split; [exact L2|].
  split; [eapply match_group_infix; eauto|].
  split; [eapply match_group_infix; eauto|].
  split; [|split; [|apply cargo_of_reachable]].
  - assert (F : Forall (fun c => not_word c = false) (group m 1)).
    { unfold name_patterns in Hp.
      repeat (destruct Hp as [<-|Hp];
              [eapply (match_group_avoids no_flags not_word); [|exact Hm];
               vm_compute; reflexivity|]).
      destruct Hp. }
    eapply Forall_impl; [|exact F]. intros c Hc. unfold not_word in Hc.
    now destruct (is_word c).
  - assert (F : Forall (fun c => not_word_or_space c = false) (group m 2)).
    { unfold name_patterns in Hp.
      repeat (destruct Hp as [<-|Hp];
              [eapply (match_group_avoids no_flags not_word_or_space);
               [|exact Hm]; vm_compute; reflexivity|]).
      destruct Hp. }
    eapply Forall_impl; [|exact F]. intros c Hc. unfold not_word_or_space in Hc.
    now destruct (is_word c || is_space c)%bool.
Qed.

(** The cell of a signer has its ten bars and no semicolon. *)
Lemma signer_cell_separators (text : str) (s : signer) :
  In s (extract_signers text) ->
  count "|" (signer_cell s) = 10 /\ count ";" (signer_cell s) = 0.
Proof.
  intros Hin. pose proof (signer_fields text) as F.
  rewrite Forall_forall in F.
  destruct (F s Hin) as (Hd & _ & _ & _ & _ & Fn & Fa & Hc).
  assert (Hn : forall c, is_separator c = true -> count c (sig_nombre s) = 0).
  { intros c Hc'. apply count_none. intros Hi.
    rewrite Forall_forall in Fn. specialize (Fn _ Hi).
    unfold is_separator in Hc'. apply orb_true_iff in Hc'.
    destruct Hc' as [E|E]; apply Ascii.eqb_eq in E; subst c; discriminate. }
  assert (Ha : forall c, is_separator c = true -> count c (sig_apellido s) = 0).
  { intros c Hc'. apply count_none. intros Hi.
    rewrite Forall_forall in Fa. specialize (Fa _ Hi).
    unfold is_separator in Hc'. apply orb_true_iff in Hc'.
    destruct Hc' as [E|E]; apply Ascii.eqb_eq in E; subst c; discriminate. }
  assert (Hg : forall c, is_separator c = true -> count c (sig_cargo s) = 0).
  { intros c Hc'. unfold is_separator in Hc'. apply orb_true_iff in Hc'.
    unfold reachable_cargos in Hc.
    repeat (destruct Hc as [<-|Hc];
            [destruct Hc' as [E|E]; apply Ascii.eqb_eq in E; subst c;
             reflexivity|]).
    destruct Hc. }
  unfold signer_cell. rewrite !count_join. cbn [map list_sum length].
  rewrite Hd, (Hn "|"%char), (Ha "|"%char), (Hg "|"%char),
    (Hn ";"%char), (Ha ";"%char), (Hg ";"%char) by reflexivity.
  split; reflexivity.
Qed.

Lemma list_sum_cons (a : nat) (l : list nat) : list_sum (a :: l) = a + list_sum l.
Proof. reflexivity. Qed.

Lemma signer_cells_separators (text : str) (l : list signer) :
  incl l (extract_signers text) ->
  list_sum (map (count "|") (map signer_cell l)) = 10 * length l
  /\ list_sum (map (count ";") (map signer_cell l)) = 0.
Proof.
  induction l as [|s l IH]; intros Hl; [split; reflexivity|].
  destruct (signer_cell_separators text s (Hl s (or_introl eq_refl)))
    as [H1 H2].
  destruct IH as [I1 I2]; [intros x Hx; apply Hl; now right|].
  cbn [map length]. rewrite !list_sum_cons, H1, H2, I1, I2. split; lia.
Qed.

End FieldFacts.

(** ** The text of a document and the file of URLs *)

Module TextFacts.
Import Py Re Extractor Props PyFacts ReFacts ExtractorFacts.
Import StringFacts GroupFacts.

(** *** OCR and the direct extraction *)

(** The loop of [ocr_pdf] stops after the page of index 10. *)
Lemma ocr_pages_firstn (images : list (option str)) :
  forall i text, i <= 10 ->
    ocr_pages i images text = ocr_pages i (firstn (11 - i) images) text.
Proof.
  induction images as [|[p|] images IH]; intros i text Hi.
  - now rewrite firstn_nil.
  - replace (11 - i) with (S (10 - i)) by lia. cbn [firstn ocr_pages].
    destruct (10 <=? i) eqn:E; [reflexivity|].
    apply Nat.leb_gt in E. rewrite IH by lia.
    replace (11 - S i) with (10 - i) by lia. reflexivity.
  - replace (11 - i) with (S (10 - i)) by lia. reflexivity.
Qed.

(** A page that fails among those read makes the loop fail. *)
Lemma ocr_pages_failure (images : list (option str)) :
  forall i text, i <= 10 -> In None (firstn (11 - i) images) ->
    ocr_pages i images text = None.
Proof.
  induction images as [|[p|] images IH]; intros i text Hi Hin.
  - rewrite firstn_nil in Hin. destruct Hin.
  - replace (11 - i) with (S (10 - i)) in Hin by lia.
    cbn [firstn] in Hin. destruct Hin as [Hin|Hin]; [discriminate|].
    cbn [ocr_pages]. destruct (10 <=? i) eqn:E.
    + apply Nat.leb_le in E. replace (10 - i) with 0 in Hin by lia.
      destruct Hin.
    + apply Nat.leb_gt in E. apply IH; [lia|].
      replace (11 - S i) with (10 - i) by lia. exact Hin.
  - reflexivity.
Qed.

(** When no page fails the loop appends the blocks of the pages it
    reads. *)
Lemma ocr_pages_blocks (pages : list str) :
  forall i text, i <= 10 ->
    ocr_pages i (map Some pages) text
    = Some (text ++ page_blocks i (firstn (11 - i) pages)).
Proof.
  induction pages as [|p pages IH]; intros i text Hi.
  - rewrite firstn_nil. simpl. now rewrite app_nil_r.
  - replace (11 - i) with (S (10 - i)) by lia.
    cbn [map ocr_pages firstn page_blocks].
    destruct (10 <=? i) eqn:E.
    + apply Nat.leb_le in E. replace (10 - i) with 0 by lia.
      simpl. now rewrite app_nil_r.
    + apply Nat.leb_gt in E. rewrite IH by lia.
      replace (11 - S i) with (10 - i) by lia.
      now rewrite <- app_assoc.
Qed.

(** A page that fails ends the loop of the direct extraction. *)
Lemma direct_pages_failure (ps : list str) (rest : list (option str)) :
  forall text,
    direct_pages (map Some ps ++ None :: rest) text
    = direct_pages (map Some ps) text.
Proof.
  induction ps as [|p ps IH]; intros text; [reflexivity|].
  cbn [map app direct_pages]. apply IH.
Qed.




(** *** The loop over the URLs *)


(** *** The lines of an HTML text *)

(** Every chunk is a clean line. *)
Lemma html_chunks_clean (text : str) : Forall clean_chunk (html_chunks text).
Proof.
  apply Forall_forall. intros c Hc. unfold html_chunks in Hc.
  apply filter_In in Hc. destruct Hc as [Hc Hne].
  apply in_flat_map in Hc. destruct Hc as (line & Hline & Hc).
  apply in_map_iff in Hc. destruct Hc as (piece & <- & Hpiece).
  apply in_map_iff in Hline. destruct Hline as (l & <- & Hl).
  split; [|split; [|split]].
  - apply negb_true_iff, eqb_str_false in Hne. exact Hne.
  - apply strip_idem.
  - apply strip_forall.
    pose proof (splitlines_lines text) as F. rewrite Forall_forall in F.
    specialize (F l Hl).
    pose proof (split_from_forall _ (txt "  ") (strip l) [] 0
                  (Forall_nil _) (strip_forall _ l F)) as G.
    rewrite Forall_forall in G. apply (G piece Hpiece).
  - eapply contains_false_infix; [apply strip_infix|].
    pose proof (split_no_double_space (strip l)) as G.
    rewrite Forall_forall in G. apply (G piece Hpiece).
Qed.

(** *** The fallback on regular expressions *)

Lemma spaces_compiled : compile spaces_pattern = space_run.
Proof. vm_compute. reflexivity. Qed.

Lemma cls_space (c : ascii) : cls_ok no_flags false [CSpace] c = is_space c.
Proof. destruct c as [[] [] [] [] [] [] [] []]; reflexivity. Qed.

Lemma match_space_none prev (rest : str) pos :
  stops_at is_space rest -> match_here no_flags space_run prev rest pos = None.
Proof.
  intros Hs. destruct (match_here no_flags space_run prev rest pos) as [m|] eqn:E;
    [|reflexivity].
  apply match_here_den in E. apply den_rep_cls in E.
  destruct E as (w & [Hr _] & _ & F & Hlo & _).
  destruct w as [|c w]; [simpl in Hlo; lia|].
  cbn [m_rest init] in Hr. subst rest. simpl in Hs.
  inversion F as [|? ? Hc _]; subst. rewrite cls_space in Hc. congruence.
Qed.

Lemma match_space_run prev (w rest : str) pos :
  w <> [] -> Forall (fun c => is_space c = true) w -> stops_at is_space rest ->
  match_here no_flags space_run prev (w ++ rest) pos
  = Some {| start := pos;
            final := advance_by w rest (init prev (w ++ rest) pos) |}.
Proof.
  intros Hne F Hs. unfold match_here, space_run.
  rewrite (@leads_rep_cls no_flags false [CSpace] 1 None w rest
             (init prev (w ++ rest) pos) eq_refl) with (res := advance_by w rest (init prev (w ++ rest) pos)).
  - reflexivity.
  - eapply Forall_impl; [|exact F]. intros c Hc. now rewrite cls_space.
  - right. destruct rest as [|c t]; [exact I|]. cbn [stops_at] in *.
    now rewrite cls_space.
  - destruct w; [congruence | simpl; lia].
  - exact I.
  - reflexivity.
Qed.

Lemma search_space_none (u : str) :
  forall prev pos, Forall (fun c => is_space c = false) u ->
    search_at no_flags space_run prev u pos = None.
Proof.
  induction u as [|c u IH]; intros prev pos F; cbn [search_at].
  - now rewrite match_space_none.
  - inversion F; subst. rewrite match_space_none by assumption. now apply IH.
Qed.

Lemma search_space_run (u : str) :
  forall prev pos (w rest : str),
    Forall (fun c => is_space c = false) u ->
    w <> [] -> Forall (fun c => is_space c = true) w ->
    stops_at is_space rest ->
    exists pv,
      search_at no_flags space_run prev (u ++ w ++ rest) pos
      = Some {| start := pos + length u;
                final := advance_by w rest
                           (init pv (w ++ rest) (pos + length u)) |}.
Proof.
  induction u as [|c u IH]; intros prev pos w rest F Hne Fw Hs.
  - exists prev. cbn [app length]. rewrite Nat.add_0_r.
    apply search_at_here. now apply match_space_run.
  - inversion F; subst. cbn [app search_at length].
    rewrite match_space_none by assumption.
    destruct (IH (Some c) (S pos) w rest) as [pv E]; auto.
    exists pv. replace (pos + S (length u)) with (S pos + length u) by lia.
    exact E.
Qed.

(** A text starts with characters that are not white space, followed by
    a run of white space that is as long as it can be. *)
Lemma runs_split (s : str) :
  exists u w rest,
    s = u ++ w ++ rest
    /\ Forall (fun c => is_space c = false) u
    /\ Forall (fun c => is_space c = true) w
    /\ stops_at is_space rest
    /\ (w = [] -> rest = []).
Proof.
  induction s as [|c s (u & w & rest & -> & Fu & Fw & Hs & He)].
  - exists [], [], []. repeat split; constructor.
  - destruct (is_space c) eqn:E.
    + destruct u as [|d u].
      * exists [], (c :: w), rest. repeat split; auto; discriminate.
      * exists [], [c], (d :: u ++ w ++ rest). inversion Fu; subst.
        repeat split; auto; try discriminate; try constructor.
    + exists (c :: u), w, rest. repeat split; auto.
Qed.

Lemma collapse_stop (rest : str) :
  stops_at is_space rest -> collapse rest true = collapse rest false.
Proof. destruct rest as [|c t]; [reflexivity|]. simpl. now intros ->. Qed.

Lemma collapse_words (u t : str) :
  Forall (fun c => is_space c = false) u ->
  collapse (u ++ t) false = u ++ collapse t false.
Proof.
  induction 1 as [|c u Hc _ IH]; [reflexivity|].
  cbn [app collapse]. now rewrite Hc, IH.
Qed.

Lemma collapse_spaces (w rest : str) :
  Forall (fun c => is_space c = true) w -> stops_at is_space rest ->
  collapse (w ++ rest) true = collapse rest false.
Proof.
  intros F Hs. induction F as [|c w Hc _ IH]; [now apply collapse_stop|].
  cbn [app collapse]. now rewrite Hc.
Qed.

Lemma collapse_run (w rest : str) :
  w <> [] -> Forall (fun c => is_space c = true) w -> stops_at is_space rest ->
  collapse (w ++ rest) false = sp :: collapse rest false.
Proof.
  intros Hne F Hs. destruct w as [|c w]; [congruence|].
  inversion F; subst. cbn [app collapse].
  match goal with H : is_space c = true |- _ => rewrite H end.
  now rewrite collapse_spaces.
Qed.

Lemma slice_middle (done u more : str) :
  slice (length done) (length done + length u) (done ++ u ++ more) = u.
Proof.
  unfold slice. rewrite skipn_app, skipn_all, Nat.sub_diag. cbn [skipn app].
  replace (length done + length u - length done) with (length u) by lia.
  rewrite firstn_app, Nat.sub_diag, firstn_all. cbn [firstn].
  now rewrite app_nil_r.
Qed.

(** [re.sub] with the pattern of a run of white space walks through the
    text as [collapse] does. *)
Lemma sub_spaces (n : nat) :
  forall (rest done : str) prev fuel,
    length rest <= n -> length rest < fuel ->
    sub_matches [sp]
      (finditer_at fuel no_flags space_run prev rest (length done))
      (done ++ rest) (length done)
    = collapse rest false.
Proof.
  induction n as [|n IH]; intros rest done prev fuel Hn Hf.
  - destruct rest; [|simpl in Hn; lia]. destruct fuel; [lia|].
    cbn [finditer_at]. rewrite search_space_none by constructor.
    cbn [sub_matches collapse]. now rewrite app_nil_r, skipn_all.
  - destruct fuel as [|fuel]; [lia|].
    destruct (runs_split rest) as (u & w & rest' & -> & Fu & Fw & Hs & He).
    cbn [finditer_at].
    destruct w as [|c w].
    + rewrite (He eq_refl), app_nil_r. cbn [app].
      rewrite search_space_none by assumption.
      cbn [sub_matches]. rewrite skipn_app, skipn_all, Nat.sub_diag.
      cbn [skipn app].
      rewrite <- (app_nil_r u) at 2. rewrite collapse_words by assumption.
      cbn [collapse]. now rewrite app_nil_r.
    + destruct (search_space_run u prev (length done) (c :: w) rest' Fu
                  ltac:(discriminate) Fw Hs) as [pv ->].
      cbn [final start advance_by m_pos m_rest m_prev init].
      replace (length done + length u + length (c :: w)
               =? length done + length u) with false
        by (symmetry; apply Nat.eqb_neq; simpl; lia).
      cbn [sub_matches start]. unfold m_end.
      cbn [final advance_by m_pos init].
      rewrite slice_middle.
      rewrite collapse_words, collapse_run by (assumption || discriminate).
      f_equal. cbn [app]. f_equal.
      replace (done ++ u ++ c :: w ++ rest')
        with ((done ++ u ++ c :: w) ++ rest')
        by (now rewrite <- !app_assoc).
      replace (length done + length u + length (c :: w))
        with (length (done ++ u ++ c :: w))
        by (rewrite !length_app; simpl; lia).
      apply (IH rest' (done ++ u ++ c :: w)).
      * rewrite !length_app in Hn. simpl in Hn. lia.
      * rewrite !length_app in Hf. simpl in Hf. lia.
Qed.

Lemma sub_spaces_collapse (s : str) :
  sub no_flags spaces_pattern (txt " ") s = collapse s false.
Proof.
  unfold sub, finditer. rewrite spaces_compiled.
  apply (sub_spaces (length s) s [] None (S (length s))); lia.
Qed.

Lemma collapse_only_spaces (s : str) :
  forall b, Forall (fun c => is_space c = true -> c = sp) (collapse s b).
Proof.
  induction s as [|c s IH]; intros b; [constructor|]. cbn [collapse].
  destruct (is_space c) eqn:E.
  - destruct b; [apply IH|]. constructor; [reflexivity | apply IH].
  - constructor; [congruence | apply IH].
Qed.

Lemma collapse_in_run_head (s : str) :
  starts_with [sp] (collapse s true) = false.
Proof.
  induction s as [|c s IH]; [reflexivity|]. cbn [collapse].
  destruct (is_space c) eqn:E; [exact IH|].
  cbn [starts_with]. destruct (Ascii.eqb_spec sp c) as [<-|]; [|reflexivity].
  discriminate E.
Qed.

Lemma collapse_no_double_space (s : str) :
  forall b, contains [sp; sp] (collapse s b) = false.
Proof.
  induction s as [|c s IH]; intros b; [reflexivity|]. cbn [collapse].
  destruct (is_space c) eqn:E.
  - destruct b; [apply IH|]. cbn [contains starts_with]. rewrite IH.
    rewrite Ascii.eqb_refl. cbn [andb].
    pose proof (collapse_in_run_head s) as H.
    destruct (collapse s true) as [|d t]; [reflexivity|].
    cbn [starts_with] in H |- *. rewrite andb_true_r in H. rewrite H.
    reflexivity.
  - cbn [contains starts_with]. rewrite IH.
    destruct (Ascii.eqb_spec sp c) as [<-|]; [discriminate E | reflexivity].
Qed.

Lemma direct_pages_text (ps : list str) :
  forall text,
    direct_pages (map Some ps) text
    = text ++ concat (map (fun p => p ++ [newline])
                        (filter (fun p => negb (is_blank p)) ps)).
Proof.
  induction ps as [|p ps IH]; intros text.
  - simpl. now rewrite app_nil_r.
  - cbn [map direct_pages filter]. rewrite IH.
    unfold is_blank at 2. destruct (strip p) as [|c t]; simpl.
    + reflexivity.
    + now rewrite <- !app_assoc.
Qed.


End TextFacts.

(** ** Further properties of the extractor *)

Module ConvenioExtras.
Import Py Re Extractor Props PyFacts ReFacts ExtractorFacts.
Import StringFacts GroupFacts FieldFacts TextFacts.

(** *** The fields of a resolution *)

(** X1. The number of a resolution is empty or made of three or four
    decimal digits; the number of the [expediente] is empty or made of
    decimal digits; its year is empty or made of three or four decimal
    digits. *)
Theorem resolution_fields_shaped (text url : str) :
  let r := extract_resolution_data text url in
  (res_numero r = [] \/
   (Forall (fun c => is_digit c = true) (res_numero r)
    /\ 3 <= length (res_numero r) <= 4))
  /\ (res_expediente_numero r = [] \/
      Forall (fun c => is_digit c = true) (res_expediente_numero r))
  /\ (res_expediente_anio r = [] \/
      (Forall (fun c => is_digit c = true) (res_expediente_anio r)
       /\ 3 <= length (res_expediente_anio r) <= 4)).
Proof. exact (resolution_fields text url). Qed.

(** X2. The fields that are copied are pieces of the input: the title,
    the object, the duration and the number of the [expediente] are
    contiguous pieces of the text, and the number of the resolution is a
    contiguous piece of the URL. *)
Theorem scalar_fields_from_input (text url : str) :
  infix (titulo (extract_convenio_data text)) text
  /\ infix (objeto (extract_convenio_data text)) text
  /\ infix (duracion (extract_convenio_data text)) text
  /\ infix (res_expediente_numero (extract_resolution_data text url)) text
  /\ infix (res_numero (extract_resolution_data text url)) url.
Proof.
  repeat split.
  - change (infix (convenio_titulo text) text). unfold convenio_titulo.
    destruct (search IGNORECASE title_pattern text) as [m|] eqn:E;
      [|apply infix_nil].
    eapply infix_trans; [apply firstn_infix|].
    eapply infix_trans; [apply strip_infix|].
    eapply search_group_infix; eauto.
  - change (infix (convenio_objeto text) text). unfold convenio_objeto.
    destruct (first_match IGNORECASE_DOTALL objeto_patterns text)
      as [[p m]|] eqn:E; [|apply infix_nil].
    eapply infix_trans; [apply firstn_infix|].
    eapply infix_trans; [apply strip_infix|].
    eapply first_match_group_infix; eauto.
  - cbn [duracion extract_convenio_data].
    destruct (first_match IGNORECASE duracion_patterns text)
      as [[p m]|] eqn:E; [|apply infix_nil].
    eapply first_match_group_infix; eauto.
  - cbn [res_expediente_numero extract_resolution_data].
    destruct (search IGNORECASE expediente_pattern text) as [m|] eqn:E;
      [|apply infix_nil].
    eapply search_group_infix; eauto.
  - cbn [res_numero extract_resolution_data].
    destruct (search no_flags url_pattern url) as [m|] eqn:E;
      [|apply infix_nil].
    eapply search_group_infix; eauto.
Qed.

(** *** The duration and the title *)

(** X3. The duration is made of decimal digits (or is empty): the unit
    and the words around the number are never part of it. *)
Theorem duracion_digits (text : str) :
  Forall (fun c => is_digit c = true) (duracion (extract_convenio_data text)).
Proof.
  cbn [duracion extract_convenio_data].
  destruct (first_match IGNORECASE duracion_patterns text) as [[p m]|] eqn:E;
    [|constructor].
  apply first_match_found in E. destruct E as [Hin H].
  group_facts H. apply not_digit_forall.
  destruct Hin as [<-|[<-|[<-|[]]]];
    (eapply (match_group_avoids IGNORECASE not_digit); [|exact H];
     vm_compute; reflexivity).
Qed.

(** X4. The title holds no newline and does not start with white
    space. *)
Theorem titulo_one_line (text : str) :
  let t := titulo (extract_convenio_data text) in
  ~ In newline t /\ lstrip t = t.
Proof.
  cbv zeta. change (titulo (extract_convenio_data text))
    with (convenio_titulo text).
  unfold convenio_titulo.
  destruct (search IGNORECASE title_pattern text) as [m|] eqn:E;
    [|split; [intros [] | reflexivity]].
  split.
  - assert (F : Forall (fun c => is_newline c = false) (group m 1)).
    { group_facts E.
      eapply (match_group_avoids IGNORECASE is_newline); [|exact E].
      vm_compute. reflexivity. }
    intros Hin.
    assert (F' : Forall (fun c => is_newline c = false)
                   (upto 255 (strip (group m 1)))).
    { eapply Forall_infix; [|exact F].
      eapply infix_trans; [apply firstn_infix | apply strip_infix]. }
    rewrite Forall_forall in F'. specialize (F' _ Hin).
    unfold is_newline in F'. now rewrite Ascii.eqb_refl in F'.
  - apply lstrip_fixed. apply firstn_keeps_head.
    unfold strip. apply rstrip_keeps_head, lstrip_head.
Qed.

(** *** The enumerated fields *)

(** X5. The type of an agreement is one of nineteen values: the fifteen
    values whose key starts with an earlier key of [tipos_convenio] and a
    space are never returned.  The type of renewal is empty or a value of
    [tipos_renovacion], and [internacional] is ["true"] or ["false"]. *)
Theorem enumerated_fields_in_range (text : str) :
  In (tipo_convenio (extract_convenio_data text)) reachable_tipos
  /\ In (tipo_renovacion (extract_convenio_data text))
       ([] :: map snd tipos_renovacion)
  /\ In (internacional (extract_convenio_data text))
       [txt "true"; txt "false"].
Proof.
  split; [|split].
  - change (In (match lookup_word tipos_convenio text with
                | Some v => v
                | None => txt "Marco"
                end) reachable_tipos).
    destruct (lookup_word tipos_convenio text) as [v|] eqn:E;
      [|vm_compute; repeat (first [left; reflexivity | right])].
    apply lookup_word_first in E. destruct E as (i & k & Hn & Hm & He).
    do 34 (destruct i as [|i];
      [vm_compute in Hn; injection Hn as <- <-;
       first
         [ solve [vm_compute; repeat (first [left; reflexivity | right])]
         | exfalso; apply Hm;
           first
             [ shadowed_by He 4 (txt "acuerdo") (txt "Acuerdo")
                 (txt "complementario")
             | shadowed_by He 4 (txt "acuerdo") (txt "Acuerdo")
                 (txt "cooperacion")
             | shadowed_by He 4 (txt "acuerdo") (txt "Acuerdo")
                 (txt "especifico")
             | shadowed_by He 4 (txt "acuerdo") (txt "Acuerdo")
                 (txt "investigacion")
             | shadowed_by He 16 (txt "marco") (txt "Marco")
                 (txt "de colaboracion")
             | shadowed_by He 16 (txt "marco") (txt "Marco")
                 (txt "de cooperacion")
             | shadowed_by He 16 (txt "marco") (txt "Marco")
                 (txt "de investigacion")
             | shadowed_by He 16 (txt "marco") (txt "Marco")
                 (txt "de intercambio")
             | shadowed_by He 16 (txt "marco") (txt "Marco")
                 (txt "de intercambio de alumnos")
             | shadowed_by He 16 (txt "marco") (txt "Marco")
                 (txt "de pasantias")
             | shadowed_by He 23 (txt "memorandum") (txt "Memorandum")
                 (txt "de entendimiento")
             | shadowed_by He 26 (txt "protocolo") (txt "Protocolo")
                 (txt "adicional")
             | shadowed_by He 26 (txt "protocolo") (txt "Protocolo")
                 (txt "de colaboracion")
             | shadowed_by He 26 (txt "protocolo") (txt "Protocolo")
                 (txt "especifico")
             | shadowed_by He 26 (txt "protocolo") (txt "Protocolo")
                 (txt "de investigacion") ] ]|]).
    destruct i; discriminate Hn.
  - cbn [tipo_renovacion extract_convenio_data].
    destruct (lookup_word tipos_renovacion text) as [v|] eqn:E; [|now left].
    right. eapply lookup_word_in; eauto.
  - cbn [internacional extract_convenio_data].
    destruct (search IGNORECASE internacional_pattern text);
      [now left | right; now left].
Qed.

(** *** Institutions and signers *)

(** X6. Every institution of the list has a name of more than five
    characters, without white space around it and without a comma, that
    is a contiguous piece of the text; its other fields are those that
    [make_institution] gives that name. *)
Theorem institutions_well_formed (text : str) :
  Forall (fun i =>
            i = make_institution (inst_nombre i)
            /\ 5 < length (inst_nombre i)
            /\ strip (inst_nombre i) = inst_nombre i
            /\ infix (inst_nombre i) text
            /\ ~ In ","%char (inst_nombre i))
    (extract_institutions text).
Proof.
  apply Forall_forall. intros i Hin.
  destruct (@order_built _ _ _ _ _ _ _ i (institutions_in_order text) Hin)
    as (m & Hm & Hok & ->).
  unfold institution_of. cbn [inst_nombre make_institution].
  apply matches_in_order_found in Hm.
  destruct Hm as (p & pre & suf & pv & Hp & -> & Hm).
  split; [reflexivity|]. split; [now apply Nat.ltb_lt|].
  unfold inst_name_of. split; [apply strip_idem|].
  split.
  - eapply infix_trans; [apply strip_infix|].
    eapply match_group_infix; eauto.
  - apply (forall_not_in is_comma); [reflexivity|].
    eapply Forall_infix; [apply strip_infix|].
    unfold institution_patterns in Hp.
    repeat (destruct Hp as [<-|Hp];
            [eapply (match_group_avoids IGNORECASE is_comma); [|exact Hm];
             vm_compute; reflexivity|]).
    destruct Hp.
Qed.

(** X7. The name of every institution of the list starts, whatever the
    case of its letters, with the word of one of the nine patterns:
    universidad, instituto, ministerio, gobierno, provincia,
    municipalidad, fundaci, empresa or asociaci. *)
Theorem institution_names_start_with_keyword (text : str) :
  Forall (fun i =>
            exists k, In k institution_keywords
                      /\ starts_with k (lower (inst_nombre i)) = true)
    (extract_institutions text).
Proof.
  apply Forall_forall. intros i Hin.
  destruct (@order_built _ _ _ _ _ _ _ i (institutions_in_order text) Hin)
    as (m & Hm & Hok & ->).
  unfold institution_of. cbn [inst_nombre make_institution].
  unfold inst_name_of.
  apply matches_in_order_found in Hm.
  destruct Hm as (p & pre & suf & pv & Hp & -> & Hm).
  unfold institution_patterns in Hp.
  destruct Hp as [<-|[<-|[<-|[<-|[<-|[<-|[<-|[<-|[<-|[]]]]]]]]]].
  - keyword_case Hm (txt "Universidad").
  - keyword_case Hm (txt "Instituto").
  - keyword_case Hm (txt "Ministerio").
  - keyword_case Hm (txt "Gobierno").
  - keyword_case Hm (txt "Provincia").
  - keyword_case Hm (txt "Municipalidad").
  - keyword_case Hm (txt "Fundaci").
  - keyword_case Hm (txt "Empresa").
  - keyword_case Hm (txt "Asociaci").
Qed.

(** X8. Every signer of the list has an empty [dni], a first name and a
    surname of more than two characters that are contiguous pieces of the
    text, the first made of word characters and the second of word
    characters and white space, and a post among six: [Vicerrector/a] and
    [Vicedecano/a] are never given. *)
Theorem signers_well_formed (text : str) :
  Forall (fun s =>
            sig_dni s = []
            /\ 2 < length (sig_nombre s) /\ 2 < length (sig_apellido s)
            /\ infix (sig_nombre s) text /\ infix (sig_apellido s) text
            /\ Forall (fun c => is_word c = true) (sig_nombre s)
            /\ Forall (fun c => (is_word c || is_space c)%bool = true)
                 (sig_apellido s)
            /\ In (sig_cargo s) reachable_cargos)
    (extract_signers text).
Proof. exact (signer_fields text). Qed.

(** X9. The first name of every signer is a capital letter followed by
    small letters only, and the surname starts with a capital letter and
    a small one (the letters of the Spanish alphabet, with the acute
    accents). *)
Theorem signer_names_capitalised (text : str) :
  Forall (fun s =>
            (exists c w,
               sig_nombre s = c :: w /\ is_capital c = true
               /\ Forall (fun d => is_small d = true) w)
            /\ (exists c d r,
                  sig_apellido s = c :: d :: r /\ is_capital c = true
                  /\ is_small d = true))
    (extract_signers text).
Proof.
  apply Forall_forall. intros s Hin.
  destruct (@order_built _ _ _ _ _ _ _ s (signers_in_order text) Hin)
    as (m & Hm & Hok & ->).
  cbn [sig_nombre sig_apellido make_signer].
  unfold signer_ok in Hok. apply andb_true_iff in Hok. destruct Hok as [L1 L2].
  apply Nat.ltb_lt in L1. apply Nat.ltb_lt in L2.
  apply matches_in_order_found in Hm.
  destruct Hm as (p & pre & suf & pv & Hp & -> & Hm).
  split.
  - destruct (match_here_group no_flags (compile p) pv suf (start m) m 1 Hm)
      as [E|(a & x & y & pre' & Ha & Hd & Hs & _)];
      [rewrite E in L1; simpl in L1; lia|].
    assert (a = capitalised_word).
    { unfold name_patterns in Hp.
      repeat (destruct Hp as [<-|Hp];
              [vm_compute in Ha;
               repeat (destruct Ha as [Ha|Ha];
                       [first [injection Ha as <-; reflexivity
                              | discriminate Ha]|]);
               destruct Ha|]).
      destruct Hp. }
    subst a.
    destruct (den_capitalised_word _ x y Hd Hs) as (c & w & E & Hc & F & _).
    exists c, w. auto.
  - destruct (match_here_group no_flags (compile p) pv suf (start m) m 2 Hm)
      as [E|(a & x & y & pre' & Ha & Hd & Hs & _)];
      [rewrite E in L2; simpl in L2; lia|].
    assert (exists tail,
              a = Seq (Cls false capitals)
                    (Seq (Rep (Cls false smalls) 1 None true) tail)
              \/ a = capitalised_word).
    { unfold name_patterns in Hp.
      destruct Hp as [<-|Hp].
      - vm_compute in Ha.
        destruct Ha as [Ha|[Ha|[]]]; [discriminate Ha|].
        injection Ha as <-. eexists. left. reflexivity.
      - exists Eps. right.
        repeat (destruct Hp as [<-|Hp];
                [vm_compute in Ha;
                 repeat (destruct Ha as [Ha|Ha];
                         [first [injection Ha as <-; reflexivity
                                | discriminate Ha]|]);
                 destruct Ha|]).
        destruct Hp. }
    destruct H as (tail & [->| ->]).
    + destruct (den_capitalised tail _ x y Hd Hs)
        as (c & w & r & E & Hc & F & Hl & _).
      destruct w as [|d w]; [simpl in Hl; lia|].
      inversion F; subst. exists c, d, (w ++ r). auto.
    + destruct (den_capitalised_word _ x y Hd Hs) as (c & w & E & Hc & F & Hl).
      destruct w as [|d w]; [simpl in Hl; lia|].
      inversion F; subst. exists c, d, w. auto.
Qed.

(** *** The columns of a row *)

(** X10. In the column [resolucion] the URL comes last, after six fields
    that hold no bar: the text before the URL has exactly six bars. *)
Theorem resolucion_column_fields (text url : str) :
  exists head,
    row_resolucion (make_row text url) = head ++ url
    /\ count "|" head = 6.
Proof.
  destruct (resolucion_head_bars text url) as (H1 & H2 & H3 & H4 & H5 & H6).
  cbv zeta in *.
  set (r := extract_resolution_data text url) in *.
  exists (res_numero r ++ bar ++ res_fecha r ++ bar ++ res_tipo r ++ bar
          ++ res_expediente_numero r ++ bar ++ res_expediente_anio r ++ bar
          ++ res_dependencia_id r ++ bar).
  split.
  - cbn [row_resolucion make_row]. fold r. cbn [join].
    change (res_link r) with url. now rewrite <- !app_assoc.
  - rewrite !count_app, H1, H2, H3, H4, H5, H6. reflexivity.
Qed.

(** X11. In the column [firmantes] no field of a signer holds a bar or a
    semicolon: the column has ten bars for each signer and one semicolon
    between two signers. *)
Theorem firmantes_column_separators (text url : str) :
  let n := length (extract_signers text) in
  count "|" (row_firmantes (make_row text url)) = 10 * n
  /\ count ";" (row_firmantes (make_row text url)) = n - 1.
Proof.
  cbv zeta. cbn [row_firmantes make_row].
  rewrite !count_join, !length_map.
  destruct (signer_cells_separators text (extract_signers text)
              (incl_refl _)) as [H1 H2].
  rewrite H1, H2. change (count "|" (txt ";")) with 0.
  change (count ";" (txt ";")) with 1. split; lia.
Qed.

(** *** The text of a PDF file *)

(** X12. OCR reads the first eleven pages of a document, one more than
    the ten of the comment in the script: the pages after the eleventh
    do not count, and when every page is recognised the text is the
    sequence of the blocks of the first eleven. *)
Theorem ocr_pdf_reads_eleven_pages (images : list (option str)) :
  ocr_pdf (Some images) = ocr_pdf (Some (firstn 11 images))
  /\ (forall pages : list str,
        ocr_pdf (Some (map Some pages)) = page_blocks 0 (firstn 11 pages)).
Proof.
  split.
  - unfold ocr_pdf. now rewrite (ocr_pages_firstn images 0 []) by lia.
  - intros pages. unfold ocr_pdf.
    now rewrite (ocr_pages_blocks pages 0 []) by lia.
Qed.

(** X13. When the recognition of one of the first eleven pages fails,
    OCR gives the empty text: the pages recognised before are lost. *)
Theorem ocr_pdf_failure_loses_all (images : list (option str)) :
  In None (firstn 11 images) -> ocr_pdf (Some images) = [].
Proof.
  intros H. unfold ocr_pdf.
  now rewrite (ocr_pages_failure images 0 [] (Nat.le_0_l _) H).
Qed.

Lemma ocr_pdf_failure_loses_all_witness :
  In None (firstn 11 [Some (txt "uno"); None; Some (txt "tres")])
  /\ ocr_pdf (Some [Some (txt "uno"); None; Some (txt "tres")]) = [].
Proof.
  split; [right; left; reflexivity|].
  apply ocr_pdf_failure_loses_all. right; left; reflexivity.
Defined.

(** X14. When the direct extraction fails on a page, the text of the
    pages before it is kept as if the document ended there; that text is
    made of the pages that are not blank, each followed by a newline. *)
Theorem direct_text_keeps_pages_before_failure
    (ps : list str) (rest : list (option str))
    (images : option (list (option str))) :
  extract_text_from_pdf (Some (map Some ps ++ None :: rest)) images
  = extract_text_from_pdf (Some (map Some ps)) images
  /\ direct_pages (map Some ps) []
     = concat (map (fun p => p ++ [newline])
                 (filter (fun p => negb (is_blank p)) ps)).
Proof.
  split.
  - unfold extract_text_from_pdf, direct_text.
    now rewrite direct_pages_failure.
  - now rewrite direct_pages_text.
Qed.





(** *** The text of an HTML file *)

(** X17. The text of an HTML file has no white space around it, whether
    it comes from BeautifulSoup, from the fallback on regular expressions
    or from a file that cannot be read. *)
Theorem html_text_stripped (content : option str) (bs4 : option (str -> str)) :
  strip (extract_text_from_html content bs4)
  = extract_text_from_html content bs4.
Proof.
  destruct content as [content|]; [|reflexivity].
  destruct bs4 as [get_text|]; cbn [extract_text_from_html].
  - apply join_stripped. eapply Forall_impl; [|apply html_chunks_clean].
    intros c (H1 & H2 & _). now split.
  - apply strip_idem.
Qed.

(** X18. With BeautifulSoup the text is a sequence of lines joined by
    newlines, each of them not empty, without white space around it,
    without a line boundary and without two spaces in a row. *)
Theorem html_text_lines (content : str) (get_text : str -> str) :
  exists chunks,
    extract_text_from_html (Some content) (Some get_text)
    = join [newline] chunks
    /\ Forall clean_chunk chunks.
Proof.
  exists (html_chunks (get_text content)). split; [reflexivity|].
  apply html_chunks_clean.
Qed.

(** X19. Cleaning a cleaned text leaves it as it is. *)
Theorem html_chunks_idempotent (text : str) :
  html_chunks (join [newline] (html_chunks text)) = html_chunks text.
Proof.
  pose proof (html_chunks_clean text) as F.
  revert F. generalize (html_chunks text). intros chunks F.
  unfold html_chunks. rewrite splitlines_join.
  2:{ eapply Forall_impl; [|exact F]. intros c (H1 & _ & H3 & _). now split. }
  induction F as [|c rest (H1 & H2 & H3 & H4) F IH]; [reflexivity|].
  cbn [map flat_map]. rewrite H2.
  unfold split. change (txt "  ") with [sp; sp] in *.
  rewrite (split_from_whole c []) by exact H4.
  cbn [rev app map]. rewrite H2. cbn [app filter].
  apply eqb_str_false in H1. rewrite H1. cbn [negb]. f_equal. exact IH.
Qed.

(** X20. With the fallback on regular expressions, the only white space
    of the text is the single space: no tab, newline or other white-space
    character is left, and no two spaces follow each other. *)
Theorem fallback_text_single_spaces (content : str) :
  let text := extract_text_from_html (Some content) None in
  Forall (fun c => is_space c = true -> c = " "%char) text
  /\ contains (txt "  ") text = false.
Proof.
  cbv zeta. cbn [extract_text_from_html]. rewrite sub_spaces_collapse.
  split.
  - apply strip_forall. apply collapse_only_spaces.
  - eapply contains_false_infix; [apply strip_infix|].
    apply collapse_no_double_space.
Qed.

(** *** The file of URLs *)


End ConvenioExtras.
